(** * B-tree set: a shallow embedding of [btreeset.py] and its verification

    The Python class [BTreeSet] keeps a tree of mutable [Node] objects.  Every
    node is owned by exactly one parent, so the in-place updates of the source
    are rendered here as functions that return the updated node; where the
    source hands out a reference into the tree (the node returned by
    [ensure_child_remove], the [left] of [merge_children]) the embedding
    returns the position of that node inside the updated parent.

    Python exceptions are values of [error]; the [while True] loops that walk
    down the tree take a fuel argument, and running out of it is the separate
    outcome [OutOfFuel], which the theorems below exclude. *)

From stdpp Require Import base numbers list sorting.

Local Open Scope Z_scope.
Local Open Scope nat_scope.

(** ** Outcomes of Python code *)

Inductive error : Type :=
  | TypeError | ValueError | IndexError | RuntimeError | AssertionError | AttributeError
  | KeyError.

Inductive result (A : Type) : Type :=
  | Ok (a : A)
  | Raise (e : error)
  | OutOfFuel.
Arguments Ok {A} a.
Arguments Raise {A} e.
Arguments OutOfFuel {A}.

Definition bind {A B : Type} (m : result A) (f : A -> result B) : result B :=
  match m with
  | Ok a => f a
  | Raise e => Raise e
  | OutOfFuel => OutOfFuel
  end.

Notation "x <- m ; k" := (bind m (fun x => k))
  (at level 20, m at level 100, k at level 200, only parsing).
Notation "' p <- m ; k" := (bind m (fun x => let 'p := x in k))
  (at level 20, p pattern, m at level 100, k at level 200, only parsing).

(** [assert c] and [if not c: raise e]. *)
Definition guard (e : error) (c : Prop) `{Decision c} : result unit :=
  if decide c then Ok tt else Raise e.
Definition assert (c : Prop) `{Decision c} : result unit := guard AssertionError c.

(** ** Python list primitives used by the source (indexes are never negative
    at the places they are used, so they are natural numbers here) *)

(** [l[i]] *)
Definition py_get {A} (l : list A) (i : nat) : result A :=
  match l !! i with
  | Some x => Ok x
  | None => Raise IndexError
  end.

(** [l[i] = x] *)
Definition py_set {A} (l : list A) (i : nat) (x : A) : result (list A) :=
  if decide (i < length l) then Ok (<[i:=x]> l) else Raise IndexError.

(** [l.insert(i, x)]: an index past the end appends. *)
Definition py_insert {A} (i : nat) (x : A) (l : list A) : list A :=
  take i l ++ x :: drop i l.

(** [left, right = l[i : i + 2]]: unpacking fails unless the slice has two items. *)
Definition py_slice2 {A} (l : list A) (i : nat) : result (A * A) :=
  match take 2 (drop i l) with
  | [a; b] => Ok (a, b)
  | _ => Raise ValueError
  end.

(** [l.pop(-1)] *)
Definition py_pop_last {A} (l : list A) : result (A * list A) :=
  match last l with
  | Some x => Ok (x, take (length l - 1) l)
  | None => Raise IndexError
  end.

(** [l.pop(0)] *)
Definition py_pop_first {A} (l : list A) : result (A * list A) :=
  match l with
  | x :: l' => Ok (x, l')
  | [] => Raise IndexError
  end.

(** ** class BTreeSet.Node *)

Module Node.

(** [children = None] is a leaf. *)
#[local] Set Warnings "-register-all".
Inductive t : Type := mk { maxkeys : nat; keys : list Z; children : option (list t) }.

(** [Node.__init__(maxkeys, leaf)] *)
Definition init (maxkeys : nat) (leaf : bool) : result t :=
  _ <- assert (3 <= maxkeys /\ maxkeys mod 2 = 1) ;
  Ok (mk maxkeys [] (if leaf then None else Some [])).

Definition min_keys (n : t) : nat := maxkeys n / 2.

Definition is_leaf (n : t) : bool :=
  match children n with None => true | Some _ => false end.

Definition set_keys (n : t) (ks : list Z) : t := mk (maxkeys n) ks (children n).
Definition set_children (n : t) (cs : list t) : t := mk (maxkeys n) (keys n) (Some cs).

(** The scan of [search], started at position [i] on the keys from [i] on. *)
Fixpoint search_from (i : nat) (ks : list Z) (obj : Z) : bool * nat :=
  match ks with
  | [] => (false, i)
  | k :: ks' =>
      if decide (obj = k) then (true, i)
      else if decide (k < obj)%Z then search_from (S i) ks' obj
      else (false, i)
  end.

Definition search (n : t) (obj : Z) : bool * nat := search_from 0 (keys n) obj.

(** [remove_key(index)]: the removed key and the node without it. *)
Definition remove_key (n : t) (index : nat) : result (Z * t) :=
  _ <- guard IndexError (index < length (keys n)) ;
  k <- py_get (keys n) index ;
  Ok (k, set_keys n (delete index (keys n))).

(** [remove_key_and_child(keyindex, childindex)] *)
Definition remove_key_and_child (n : t) (keyindex : nat) (childindex : option nat)
    : result (Z * t) :=
  _ <- guard IndexError (keyindex < length (keys n)) ;
  n1 <- match children n, childindex with
        | None, Some _ => Raise ValueError
        | None, None => Ok n
        | Some cs, Some ci =>
            _ <- guard IndexError (ci < length cs) ;
            Ok (set_children n (delete ci cs))
        | Some _, None => Raise TypeError
        end ;
  remove_key n1 keyindex.

(** [split()]: the promoted key, the new right node and the node itself, which
    keeps the left half. *)
Definition split (n : t) : result (Z * t * t) :=
  _ <- guard RuntimeError (length (keys n) = maxkeys n) ;
  rightnode <- init (maxkeys n) (is_leaf n) ;
  middlekey <- py_get (keys n) (min_keys n) ;
  let rightkeys := keys rightnode ++ drop (min_keys n + 1) (keys n) in
  let leftkeys := take (min_keys n) (keys n) in
  match children n, children rightnode with
  | Some cs, Some rcs =>
      Ok (middlekey,
          mk (maxkeys rightnode) rightkeys (Some (rcs ++ drop (min_keys n + 1) cs)),
          mk (maxkeys n) leftkeys (Some (take (min_keys n + 1) cs)))
  | _, _ =>
      Ok (middlekey,
          mk (maxkeys rightnode) rightkeys (children rightnode),
          mk (maxkeys n) leftkeys (children n))
  end.

(** [merge_children(index)]: the node after the merge; the merged child is its
    child at [index]. *)
Definition merge_children (n : t) (index : nat) : result t :=
  match children n with
  | None => Raise RuntimeError
  | Some cs =>
      _ <- guard RuntimeError (length (keys n) <> 0) ;
      lr <- py_slice2 cs index ;
      let left := lr.1 in
      let right := lr.2 in
      _ <- guard RuntimeError (length (keys left) = length (keys right)
                               /\ length (keys right) = min_keys n) ;
      leftchildren <- match children left, children right with
                      | None, _ => Ok None
                      | Some lcs, Some rcs => Ok (Some (lcs ++ rcs))
                      | Some _, None => Raise TypeError
                      end ;
      '(k, n1) <- remove_key_and_child n index (Some (index + 1)) ;
      let left' := mk (maxkeys left) (keys left ++ [k] ++ keys right) leftchildren in
      Ok (mk (maxkeys n1) (keys n1) (option_map (fun cs1 => <[index:=left']> cs1) (children n1)))
  end.

(** The branch of [ensure_child_remove] that steals the rightmost item of the
    left sibling [l] for [child = cs[index]]. *)
Definition steal_from_left (n : t) (cs : list t) (index : nat) (child l : t)
    : result (t * nat) :=
  '(l1, childchildren) <-
     match children child with
     | Some ccs =>
         match children l with
         | Some lcs =>
             '(c, lcs') <- py_pop_last lcs ;
             Ok (mk (maxkeys l) (keys l) (Some lcs'), Some (py_insert 0 c ccs))
         | None => Raise AttributeError
         end
     | None => Ok (l, None)
     end ;
  sep <- py_get (keys n) (index - 1) ;
  let child' := mk (maxkeys child) (py_insert 0 sep (keys child)) childchildren in
  '(k, l2) <- remove_key l1 (length (keys l1) - 1) ;
  keys' <- py_set (keys n) (index - 1) k ;
  Ok (mk (maxkeys n) keys' (Some (<[index:=child']> (<[index - 1:=l2]> cs))), index).

(** The branch that steals the leftmost item of the right sibling [r]. *)
Definition steal_from_right (n : t) (cs : list t) (index : nat) (child r : t)
    : result (t * nat) :=
  '(r1, childchildren) <-
     match children child with
     | Some ccs =>
         match children r with
         | Some rcs =>
             '(c, rcs') <- py_pop_first rcs ;
             Ok (mk (maxkeys r) (keys r) (Some rcs'), Some (ccs ++ [c]))
         | None => Raise AttributeError
         end
     | None => Ok (r, None)
     end ;
  sep <- py_get (keys n) index ;
  let child' := mk (maxkeys child) (keys child ++ [sep]) childchildren in
  '(k, r2) <- remove_key r1 0 ;
  keys' <- py_set (keys n) index k ;
  Ok (mk (maxkeys n) keys' (Some (<[index:=child']> (<[index + 1:=r2]> cs))), index).

(** [sibling is not None and len(sibling.keys) > self.min_keys()] *)
Definition has_spare (n : t) (sibling : option t) : bool :=
  match sibling with
  | Some x => bool_decide (min_keys n < length (keys x))
  | None => false
  end.

(** [sibling is not None] *)
Definition not_none (sibling : option t) : bool :=
  match sibling with Some _ => true | None => false end.

(** [sibling is None or sibling.is_leaf() != internal] *)
Definition same_kind (sibling : option t) (internal : bool) : bool :=
  match sibling with
  | Some x => negb (Bool.eqb (is_leaf x) internal)
  | None => true
  end.

(** The [if]/[elif] chain that ends [ensure_child_remove], for the child
    [child = cs[index]] and its siblings [left] and [right]. *)
Definition rebalance (n : t) (cs : list t) (index : nat) (child : t) (left right : option t)
    : result (t * nat) :=
  match left, right with
  | Some l, _ =>
      if has_spare n left then steal_from_left n cs index child l
      else if has_spare n right then
        match right with
        | Some r => steal_from_right n cs index child r
        | None => Raise AssertionError
        end
      else
        (* Merge child into left sibling; the left sibling is returned *)
        n' <- merge_children n (index - 1) ; Ok (n', index - 1)
  | None, Some r =>
      if has_spare n right then steal_from_right n cs index child r
      else
        (* Merge right sibling into child *)
        n' <- merge_children n index ; Ok (n', index)
  | None, None => Raise AssertionError
  end.

(** [ensure_child_remove(index)]: the node after the adjustment and the
    position in it of the child that the source returns. *)
Definition ensure_child_remove (n : t) (index : nat) : result (t * nat) :=
  match children n with
  | None => Raise AssertionError
  | Some cs =>
      child <- py_get cs index ;
      if decide (min_keys n < length (keys child)) then Ok (n, index) else
      _ <- assert (length (keys child) = min_keys n) ;
      left <- (if decide (1 <= index) then x <- py_get cs (index - 1) ; Ok (Some x)
               else Ok None) ;
      right <- (if decide (index < length (keys n)) then x <- py_get cs (index + 1) ; Ok (Some x)
                else Ok None) ;
      let internal := negb (is_leaf child) in
      _ <- assert (not_none left || not_none right) ;
      _ <- assert (same_kind left internal) ;
      _ <- assert (same_kind right internal) ;
      rebalance n cs index child left right
  end.

(** The loop of [remove_min]; [mk0] is [self.min_keys()] of the node the
    method was called on.  Returns the removed key and the updated node. *)
Fixpoint remove_min_loop (fuel : nat) (mk0 : nat) (node : t) : result (Z * t) :=
  match fuel with
  | 0 => OutOfFuel
  | S fuel' =>
      match children node with
      | Some _ =>
          _ <- assert (mk0 < length (keys node)) ;
          '(node', i) <- ensure_child_remove node 0 ;
          match children node' with
          | Some cs' =>
              child <- py_get cs' i ;
              '(k, child') <- remove_min_loop fuel' mk0 child ;
              Ok (k, set_children node' (<[i:=child']> cs'))
          | None => Raise AssertionError
          end
      | None =>
          _ <- assert (mk0 < length (keys node)) ;
          remove_key node 0
      end
  end.

(** The loop of [remove_max]. *)
Fixpoint remove_max_loop (fuel : nat) (mk0 : nat) (node : t) : result (Z * t) :=
  match fuel with
  | 0 => OutOfFuel
  | S fuel' =>
      match children node with
      | Some cs =>
          _ <- assert (mk0 < length (keys node)) ;
          '(node', i) <- ensure_child_remove node (length cs - 1) ;
          match children node' with
          | Some cs' =>
              child <- py_get cs' i ;
              '(k, child') <- remove_max_loop fuel' mk0 child ;
              Ok (k, set_children node' (<[i:=child']> cs'))
          | None => Raise AssertionError
          end
      | None =>
          _ <- assert (mk0 < length (keys node)) ;
          remove_key node (length (keys node) - 1)
      end
  end.

(** Number of levels below a node along its first children; the descending
    loops get one unit of fuel per level. *)
Fixpoint levels (n : t) : nat :=
  match children n with
  | Some (c :: _) => S (levels c)
  | Some [] => 1
  | None => 0
  end.

Definition remove_min (n : t) : result (Z * t) := remove_min_loop (S (levels n)) (min_keys n) n.
Definition remove_max (n : t) : result (Z * t) := remove_max_loop (S (levels n)) (min_keys n) n.

(** The ordering loop of [check_structure] over [tempkeys]: no item that is
    not [None] is followed by a smaller or equal item that is not [None]. *)
Fixpoint check_order (tempkeys : list (option Z)) : bool :=
  match tempkeys with
  | x :: (y :: _) as rest =>
      match x, y with
      | Some x', Some y' => if decide (y' <= x')%Z then false else check_order rest
      | _, _ => check_order rest
      end
  | _ => true
  end.

(** [check_structure(isroot, leafdepth, min, max)]: the number of keys of the
    subtree. *)
Fixpoint check_structure (n : t) (isroot : bool) (leafdepth : Z) (min max : option Z)
    {struct n} : result nat :=
  let numkeys := length (keys n) in
  _ <- assert (is_leaf n = bool_decide (leafdepth = 0%Z)) ;
  _ <- assert (numkeys <= maxkeys n) ;
  _ <- assert (~ (isroot = true /\ is_leaf n = false /\ numkeys = 0)) ;
  _ <- assert (~ (isroot = false /\ numkeys < min_keys n)) ;
  let tempkeys := [min] ++ map Some (keys n) ++ [max] in
  _ <- assert (check_order tempkeys = true) ;
  match children n with
  | None => Ok numkeys
  | Some cs =>
      _ <- assert (length cs = numkeys + 1) ;
      (fix go (cs : list t) (i : nat) (count : nat) {struct cs} : result nat :=
         match cs with
         | [] => Ok count
         | child :: cs' =>
             lo <- py_get tempkeys i ;
             hi <- py_get tempkeys (i + 1) ;
             c <- check_structure child false (leafdepth - 1)%Z lo hi ;
             go cs' (S i) (count + c)
         end) cs 0 numkeys
  end.

End Node.

(** ** class BTreeSet *)

Record BTreeSet : Type := mkSet { minkeys : nat; maxkeys : nat; root : Node.t; size : Z }.

Definition set_root (s : BTreeSet) (r : Node.t) : BTreeSet :=
  mkSet (minkeys s) (maxkeys s) r (size s).

(** A set with the given bounds, an empty leaf as root and size 0: what
    [clear()] leaves behind. *)
Definition empty_set (minkeys maxkeys : nat) : result BTreeSet :=
  r <- Node.init maxkeys true ;
  Ok (mkSet minkeys maxkeys r 0).

(** [clear()] *)
Definition clear (s : BTreeSet) : result BTreeSet := empty_set (minkeys s) (maxkeys s).

(** [__len__()] *)
Definition len (s : BTreeSet) : Z := size s.

(** The loop of [__contains__]. *)
Fixpoint contains_loop (fuel : nat) (node : Node.t) (obj : Z) : result bool :=
  match fuel with
  | 0 => OutOfFuel
  | S fuel' =>
      let '(found, index) := Node.search node obj in
      if found then Ok true
      else match Node.children node with
           | None => Ok false
           | Some cs => child <- py_get cs index ; contains_loop fuel' child obj
           end
  end.

(** [__contains__(obj)] *)
Definition contains (s : BTreeSet) (obj : Z) : result bool :=
  contains_loop (S (Node.levels (root s))) (root s) obj.

(** The loop of [add], at [node]; [isroot] is [node is root].  Returns the
    updated node and whether [self.size += 1] was executed. *)
Fixpoint add_loop (fuel : nat) (minkeys maxkeys : nat) (isroot : bool) (node : Node.t) (obj : Z)
    : result (Node.t * bool) :=
  match fuel with
  | 0 => OutOfFuel
  | S fuel' =>
      _ <- assert (length (Node.keys node) < maxkeys) ;
      _ <- assert (isroot = true \/ minkeys <= length (Node.keys node)) ;
      let '(found, index) := Node.search node obj in
      if found then Ok (node, false)  (* Key already exists in tree *)
      else match Node.children node with
           | None =>  (* Simple insertion into leaf *)
               Ok (Node.set_keys node (py_insert index obj (Node.keys node)), true)
           | Some cs =>  (* Handle internal node *)
               child <- py_get cs index ;
               if decide (length (Node.keys child) = maxkeys) then  (* Split child node *)
                 '(middlekey, rgt, lft) <- Node.split child ;
                 let cs1 := py_insert (index + 1) rgt (<[index:=lft]> cs) in
                 let ks1 := py_insert index middlekey (Node.keys node) in
                 if decide (obj = middlekey) then
                   Ok (Node.mk (Node.maxkeys node) ks1 (Some cs1), false)
                 else
                   let i := if decide (middlekey < obj)%Z then index + 1 else index in
                   let child1 := if decide (middlekey < obj)%Z then rgt else lft in
                   '(child2, added) <- add_loop fuel' minkeys maxkeys false child1 obj ;
                   Ok (Node.mk (Node.maxkeys node) ks1 (Some (<[i:=child2]> cs1)), added)
               else
                 '(child2, added) <- add_loop fuel' minkeys maxkeys false child obj ;
                 Ok (Node.set_children node (<[index:=child2]> cs), added)
           end
  end.

(** [add(obj)] *)
Definition add (s : BTreeSet) (obj : Z) : result BTreeSet :=
  root0 <- (if decide (length (Node.keys (root s)) = maxkeys s) then
              (* Special preprocessing to split root node *)
              '(middlekey, rgt, lft) <- Node.split (root s) ;
              r <- Node.init (maxkeys s) false ;
              match Node.children r with
              | Some cs =>
                  Ok (Node.mk (Node.maxkeys r) (Node.keys r ++ [middlekey])
                        (Some ((cs ++ [lft]) ++ [rgt])))
              | None => Raise AttributeError
              end
            else Ok (root s)) ;
  '(root', added) <- add_loop (S (Node.levels root0)) (minkeys s) (maxkeys s) true root0 obj ;
  Ok (mkSet (minkeys s) (maxkeys s) root' (if added then size s + 1 else size s)%Z).

(** The loop of [_remove], at [node] with the current [found] and [index];
    [isroot] is [node is root].  Returns the node that stands for [node]
    afterwards (the new root when [isroot]) and the value returned by
    [_remove]; [self.size -= 1] goes with every [return True]. *)
Fixpoint remove_loop (fuel : nat) (minkeys maxkeys : nat) (isroot : bool) (node : Node.t)
    (found : bool) (index : nat) (obj : Z) : result (Node.t * bool) :=
  match fuel with
  | 0 => OutOfFuel
  | S fuel' =>
      _ <- assert (length (Node.keys node) <= maxkeys) ;
      _ <- assert (isroot = true \/ minkeys < length (Node.keys node)) ;
      match Node.children node with
      | None =>
          if found then  (* Simple removal from leaf *)
            '(_, node') <- Node.remove_key node index ;
            Ok (node', true)
          else Ok (node, false)
      | Some cs =>
          if found then  (* Key is stored at current node *)
            lr <- py_slice2 cs index ;
            let left := lr.1 in
            let right := lr.2 in
            if decide (minkeys < length (Node.keys left)) then
              (* Replace key with predecessor *)
              '(k, left') <- Node.remove_max left ;
              ks' <- py_set (Node.keys node) index k ;
              Ok (Node.mk (Node.maxkeys node) ks' (Some (<[index:=left']> cs)), true)
            else if decide (minkeys < length (Node.keys right)) then
              '(k, right') <- Node.remove_min right ;
              ks' <- py_set (Node.keys node) index k ;
              Ok (Node.mk (Node.maxkeys node) ks' (Some (<[index + 1:=right']> cs)), true)
            else
              (* Merge key and right node into left node, then recurse *)
              node' <- Node.merge_children node index ;
              match Node.children node' with
              | Some cs' =>
                  left' <- py_get cs' index ;
                  if decide (isroot = true /\ length (Node.keys node') = 0) then
                    (* Decrement tree height: [left] is the root from now on *)
                    remove_loop fuel' minkeys maxkeys true left' true minkeys obj
                  else
                    '(left'', removed) <-
                       remove_loop fuel' minkeys maxkeys false left' true minkeys obj ;
                    Ok (Node.set_children node' (<[index:=left'']> cs'), removed)
              | None => Raise AssertionError
              end
          else  (* Key might be found in some child *)
            '(node', i) <- Node.ensure_child_remove node index ;
            match Node.children node' with
            | Some cs' =>
                child <- py_get cs' i ;
                let '(found', index') := Node.search child obj in
                if decide (isroot = true /\ length (Node.keys node') = 0) then
                  (* Decrement tree height: [root.children[0]] is the root from now on *)
                  root' <- py_get cs' 0 ;
                  if decide (i = 0) then
                    remove_loop fuel' minkeys maxkeys true child found' index' obj
                  else
                    (* [child] is not the new root, and not below it *)
                    '(_, removed) <-
                       remove_loop fuel' minkeys maxkeys false child found' index' obj ;
                    Ok (root', removed)
                else
                  '(child', removed) <-
                     remove_loop fuel' minkeys maxkeys false child found' index' obj ;
                  Ok (Node.set_children node' (<[i:=child']> cs'), removed)
            | None => Raise AssertionError
            end
      end
  end.

(** [_remove(obj)]: the set afterwards and whether an object was removed. *)
Definition _remove (s : BTreeSet) (obj : Z) : result (BTreeSet * bool) :=
  let '(found, index) := Node.search (root s) obj in
  '(root', removed) <-
     remove_loop (S (Node.levels (root s))) (minkeys s) (maxkeys s) true (root s) found index obj ;
  Ok (mkSet (minkeys s) (maxkeys s) root' (if removed then size s - 1 else size s)%Z, removed).

(** [remove(obj)]: the set afterwards, and [Some KeyError] when the call ends
    by raising [KeyError] (the set stays usable after that). *)
Definition remove (s : BTreeSet) (obj : Z) : result (BTreeSet * option error) :=
  '(s', removed) <- _remove s obj ;
  Ok (s', if removed then None else Some KeyError).

(** [discard(obj)] *)
Definition discard (s : BTreeSet) (obj : Z) : result BTreeSet :=
  '(s', _) <- _remove s obj ;
  Ok s'.

(** [push_left_path(node)] of [__iter__]; the top of the stack is the head of
    the list. *)
Fixpoint push_left_path (node : Node.t) (stack : list (Node.t * nat))
    : result (list (Node.t * nat)) :=
  let stack' := (node, 0) :: stack in
  match Node.children node with
  | None => Ok stack'
  | Some [] => Raise IndexError
  | Some (c :: _) => push_left_path c stack'
  end.

(** The generating loop of [__iter__]: the keys it yields, in order. *)
Fixpoint iter_loop (fuel : nat) (stack : list (Node.t * nat)) : result (list Z) :=
  match fuel with
  | 0 => OutOfFuel
  | S fuel' =>
      match stack with
      | [] => Ok []
      | (node, index) :: stack1 =>
          match Node.children node with
          | None =>
              _ <- assert (index = 0) ;
              rest <- iter_loop fuel' stack1 ;
              Ok (Node.keys node ++ rest)
          | Some cs =>
              k <- py_get (Node.keys node) index ;
              let index' := index + 1 in
              let stack2 := if decide (index' < length (Node.keys node))
                            then (node, index') :: stack1 else stack1 in
              child <- py_get cs index' ;
              stack3 <- push_left_path child stack2 ;
              rest <- iter_loop fuel' stack3 ;
              Ok (k :: rest)
          end
      end
  end.

(** An upper bound on the number of rounds of the generating loop on a
    subtree: one per leaf and one per key of an internal node. *)
Fixpoint rounds (n : Node.t) : nat :=
  match Node.children n with
  | None => 1
  | Some cs => length (Node.keys n) + sum_list (rounds <$> cs)
  end.

(** [__iter__()] run to the end. *)
Definition iter (s : BTreeSet) : result (list Z) :=
  stack <- push_left_path (root s) [] ;
  iter_loop (S (rounds (root s))) stack.

(** The height computed by [check_structure] by descending into one branch. *)
Fixpoint height (node : Node.t) : result nat :=
  match Node.children node with
  | None => Ok 0
  | Some [] => Raise IndexError
  | Some (c :: _) => h <- height c ; Ok (h + 1)
  end.

(** [check_structure()] *)
Definition check_structure (s : BTreeSet) : result unit :=
  let r := root s in
  _ <- assert (~ ((size s < 0)%Z
                  \/ ((size s > Z.of_nat (maxkeys s))%Z /\ Node.is_leaf r = true)
                  \/ ((size s <= Z.of_nat (minkeys s * 2))%Z
                      /\ (Node.is_leaf r = false \/ Z.of_nat (length (Node.keys r)) <> size s)))) ;
  h <- height r ;
  count <- Node.check_structure r true (Z.of_nat h) None None ;
  assert (Z.of_nat count = size s).

(** [__init__(degree, coll)] after its [isinstance] test, for a [degree] that
    is an integer; the whole method is [__init__] below. *)
Definition init (degree : Z) (coll : option (list Z)) : result BTreeSet :=
  _ <- guard ValueError (2 <= degree)%Z ;
  s <- empty_set (Z.to_nat (degree - 1)) (Z.to_nat (degree * 2 - 1)) ;
  match coll with
  | None => Ok s
  | Some objs => foldl (fun acc obj => s' <- acc ; add s' obj) (Ok s) objs
  end.

(** What is passed as [degree]: an integer, or a value that is not an
    instance of [numbers.Integral] (1.5, 2.0, a string). *)
Inductive degree_arg : Type :=
  | Integral (degree : Z)
  | NotIntegral.

(** [__init__(degree, coll)] from its first line, the [isinstance] test. *)
Definition __init__ (degree : degree_arg) (coll : option (list Z)) : result BTreeSet :=
  match degree with
  | NotIntegral => Raise TypeError
  | Integral d => init d coll
  end.

(** ** Specification-level definitions *)

(** Keys and subtree listings woven together: [pre] ends with a key, [post]
    starts with one, [inter] starts and ends with a subtree listing. *)
Fixpoint pre (ks : list Z) (es : list (list Z)) : list Z :=
  match ks, es with
  | k :: ks', e :: es' => e ++ k :: pre ks' es'
  | _, _ => []
  end.

Fixpoint post (ks : list Z) (es : list (list Z)) : list Z :=
  match ks, es with
  | k :: ks', e :: es' => k :: e ++ post ks' es'
  | _, _ => []
  end.

Arguments pre : simpl nomatch.
Arguments post : simpl nomatch.

Definition inter (ks : list Z) (es : list (list Z)) : list Z :=
  match es with
  | [] => []
  | e :: es' => e ++ post ks es'
  end.

(** The keys of a subtree in symmetric order. *)
Fixpoint elements (n : Node.t) : list Z :=
  match Node.children n with
  | None => Node.keys n
  | Some cs => inter (Node.keys n) (elements <$> cs)
  end.

(** What lies before and after child [i] in the listing of a node with keys
    [ks] and children [cs]. *)
Definition before (ks : list Z) (cs : list Node.t) (i : nat) : list Z :=
  pre (take i ks) (elements <$> take i cs).
Definition after (ks : list Z) (cs : list Node.t) (i : nat) : list Z :=
  post (drop i ks) (elements <$> drop (S i) cs).

(** Strictly increasing lists. *)
Definition sorted (l : list Z) : Prop := StronglySorted Z.lt l.

(** Insertion into and deletion from a strictly increasing list. *)
Definition ins (obj : Z) (l : list Z) : list Z :=
  filter (fun x => (x < obj)%Z) l ++ obj :: filter (fun x => (obj < x)%Z) l.
Definition del (obj : Z) (l : list Z) : list Z := filter (fun x => x <> obj) l.

(** Membership in a list of keys, as a boolean. *)
Definition mem (obj : Z) (l : list Z) : bool := bool_decide (obj ∈ l).

(** [shape mn mx lb d n]: [n] is the root of a subtree all of whose leaves are
    at depth [d], every node has [maxkeys = mx], at most [mx] keys and, if
    internal, one child more than keys; [n] has at least [lb] keys and the
    nodes below it at least [mn]. *)
Fixpoint shape (mn mx lb d : nat) (n : Node.t) : Prop :=
  Node.maxkeys n = mx /\ lb <= length (Node.keys n) <= mx /\
  match d, Node.children n with
  | 0, None => True
  | S d', Some cs => length cs = S (length (Node.keys n)) /\ Forall (shape mn mx mn d') cs
  | _, _ => False
  end.

(** The shape of a root of height [d]: it may have fewer than [mn] keys, but
    not none when it is internal. *)
Definition root_ok (mn mx d : nat) (n : Node.t) : Prop :=
  shape mn mx 0 d n /\ (d <> 0 -> 1 <= length (Node.keys n)).

(** The invariant of a set of degree [t]. *)
Record Inv (t : nat) (s : BTreeSet) : Prop := mkInv {
  inv_minkeys : minkeys s = t - 1;
  inv_maxkeys : maxkeys s = 2 * t - 1;
  inv_shape : exists d, root_ok (t - 1) (2 * t - 1) d (root s);
  inv_sorted : sorted (elements (root s));
  inv_size : size s = Z.of_nat (length (elements (root s)))
}.

(** A node without its last key and, if internal, its last child; without
    its first key and first child. *)
Definition drop_last_item (n : Node.t) : Node.t :=
  Node.mk (Node.maxkeys n) (take (length (Node.keys n) - 1) (Node.keys n))
    ((fun cs => take (length cs - 1) cs) <$> Node.children n).
Definition drop_first_item (n : Node.t) : Node.t :=
  Node.mk (Node.maxkeys n) (drop 1 (Node.keys n)) (drop 1 <$> Node.children n).

Definition last_child (n : Node.t) : option Node.t := Node.children n ≫= last.
Definition first_child (n : Node.t) : option Node.t := Node.children n ≫= head.

(** A node with key [k] and, if internal, subtree [sub] put in front of its
    keys and children; put behind them. *)
Definition push_front (k : Z) (sub : option Node.t) (n : Node.t) : Node.t :=
  Node.mk (Node.maxkeys n) (k :: Node.keys n)
    (match Node.children n, sub with
     | Some cs, Some c => Some (c :: cs)
     | ch, _ => ch
     end).
Definition push_back (k : Z) (sub : option Node.t) (n : Node.t) : Node.t :=
  Node.mk (Node.maxkeys n) (Node.keys n ++ [k])
    (match Node.children n, sub with
     | Some cs, Some c => Some (cs ++ [c])
     | ch, _ => ch
     end).

(** The listing of an optional subtree. *)
Definition sub_elements (sub : option Node.t) : list Z :=
  match sub with Some c => elements c | None => [] end.

(** The siblings of [cs[i]]. *)
Definition left_sibling (cs : list Node.t) (i : nat) : option Node.t :=
  if decide (1 <= i) then cs !! (i - 1) else None.
Definition right_sibling (cs : list Node.t) (i : nat) : option Node.t := cs !! (i + 1).

(** The node that [merge_children] leaves at [index]: [left] followed by the
    separating key [k] and by [right]. *)
Definition merged (left : Node.t) (k : Z) (right : Node.t) : Node.t :=
  Node.mk (Node.maxkeys left) (Node.keys left ++ k :: Node.keys right)
    (match Node.children left, Node.children right with
     | Some lcs, Some rcs => Some (lcs ++ rcs)
     | _, _ => None
     end).

(** [widened mn mx lb d n i n' i']: the relation between a node [n] with its
    child at [i] and the node [n'] with its child at [i'] that
    [ensure_child_remove] establishes.  The child has taken over the part [X]
    of what lay before it and the part [Y] of what lay after it, it has more
    than [mn] keys, and [n'] may have one key less than [n]. *)
Definition widened (mn mx lb d : nat) (n : Node.t) (i : nat) (n' : Node.t) (i' : nat) : Prop :=
  exists cs cs' c c' X Y,
    Node.children n = Some cs /\ cs !! i = Some c /\
    Node.children n' = Some cs' /\ cs' !! i' = Some c' /\
    shape mn mx lb (S d) n' /\ shape mn mx (S mn) d c' /\
    before (Node.keys n) cs i = before (Node.keys n') cs' i' ++ X /\
    after (Node.keys n) cs i = Y ++ after (Node.keys n') cs' i' /\
    elements c' = X ++ elements c ++ Y.

(** What a frame [(node, index)] of the stack of [__iter__] still has to
    yield, and the rounds of the generating loop this takes: a leaf frame
    yields all its keys, an internal frame the keys from [index] on, each
    followed by the subtree to its right. *)
Definition frame_elements (f : Node.t * nat) : list Z :=
  match Node.children f.1 with
  | None => Node.keys f.1
  | Some cs => after (Node.keys f.1) cs f.2
  end.

Definition frame_rounds (f : Node.t * nat) : nat :=
  match Node.children f.1 with
  | None => 1
  | Some cs => length (drop f.2 (Node.keys f.1)) + sum_list (rounds <$> drop (S f.2) cs)
  end.

Definition frame_ok (mn mx : nat) (f : Node.t * nat) : Prop :=
  exists lb d, shape mn mx lb d f.1 /\
    match Node.children f.1 with
    | None => f.2 = 0
    | Some _ => f.2 < length (Node.keys f.1)
    end.

Definition stack_elements (stack : list (Node.t * nat)) : list Z :=
  concat (frame_elements <$> stack).
Definition stack_rounds (stack : list (Node.t * nat)) : nat :=
  sum_list (frame_rounds <$> stack).

(** The loop of [Node.check_structure] over the children, from child [i] on
    with [count] keys counted so far. *)
Fixpoint check_children (tempkeys : list (option Z)) (leafdepth : Z) (cs : list Node.t)
    (i count : nat) : result nat :=
  match cs with
  | [] => Ok count
  | child :: cs' =>
      lo <- py_get tempkeys i ;
      hi <- py_get tempkeys (i + 1) ;
      c <- Node.check_structure child false (leafdepth - 1)%Z lo hi ;
      check_children tempkeys leafdepth cs' (S i) (count + c)
  end.

(** All items of [l] lie strictly between the bounds that are not [None]. *)
Definition bounded (lo hi : option Z) (l : list Z) : Prop :=
  Forall (fun x => match lo with Some a => (a < x)%Z | None => True end
                   /\ match hi with Some b => (x < b)%Z | None => True end) l.

(** ** Sequences of calls *)

Inductive Op : Type :=
  | Add (k : Z)
  | Remove (k : Z)
  | Discard (k : Z)
  | Clear.

(** One call on the public interface.  A [KeyError] raised by [remove] is
    caught by the caller, who goes on with the set as the call left it. *)
Definition step (s : BTreeSet) (op : Op) : result BTreeSet :=
  match op with
  | Add k => add s k
  | Remove k => '(s', _) <- remove s k ; Ok s'
  | Discard k => discard s k
  | Clear => clear s
  end.

(** Whether the call is a removal that succeeds, that is, whether its
    [_remove] returns [True]. *)
Definition succeeds (s : BTreeSet) (op : Op) : bool :=
  match op with
  | Remove k | Discard k =>
      match _remove s k with
      | Ok (_, removed) => removed
      | _ => false
      end
  | _ => false
  end.

Fixpoint run (s : BTreeSet) (ops : list Op) : result BTreeSet :=
  match ops with
  | [] => Ok s
  | op :: ops' => s' <- step s op ; run s' ops'
  end.

(** The calls made, each with whether it was a successful removal. *)
Fixpoint trace (s : BTreeSet) (ops : list Op) : list (Op * bool) :=
  match ops with
  | [] => []
  | op :: ops' =>
      (op, succeeds s op) ::
      match step s op with
      | Ok s' => trace s' ops'
      | _ => []
      end
  end.

(** The states reachable from a freshly constructed set of the given degree. *)
Definition reachable (degree : Z) (s : BTreeSet) : Prop :=
  exists s0 ops, init degree None = Ok s0 /\ run s0 ops = Ok s.

(** The number of [add(k)] calls minus the number of successful removals of
    [k] since the last [clear], starting from [c]; set semantics: an
    [add(k)] that finds the count positive is a duplicate and collapses. *)
Fixpoint balance (k : Z) (c : Z) (tr : list (Op * bool)) : Z :=
  match tr with
  | [] => c
  | (Add j, _) :: tr' =>
      balance k (if decide (j = k) then (if decide (0 < c)%Z then c else c + 1)%Z else c) tr'
  | (Remove j, ok) :: tr' | (Discard j, ok) :: tr' =>
      balance k (if decide (j = k) then (if ok then c - 1 else c)%Z else c) tr'
  | (Clear, _) :: tr' => balance k 0%Z tr'
  end.

(** [net k c ops]: the count of [k] after the calls [ops], starting from the
    count [c], as a function of the calls alone: [add(k)] adds one unless
    [k] is counted already (duplicates collapse); [remove(k)] and
    [discard(k)] are successful removals, and take one off, exactly when [k]
    is counted; [clear()] sets the count to zero. *)
Fixpoint net (k : Z) (c : Z) (ops : list Op) : Z :=
  match ops with
  | [] => c
  | Add j :: ops' =>
      net k (if decide (j = k) then (if decide (0 < c)%Z then c else c + 1)%Z else c) ops'
  | Remove j :: ops' | Discard j :: ops' =>
      net k (if decide (j = k) then (if decide (0 < c)%Z then c - 1 else c)%Z else c) ops'
  | Clear :: ops' => net k 0%Z ops'
  end.

(** The keys of a set in increasing order. *)
Definition contents (s : BTreeSet) : list Z := elements (root s).

(** [ordered d lo hi n]: in the subtree of depth [d] at [n], the keys of every
    node are strictly increasing and lie strictly between the bounds it
    inherits: [lo] and [hi] for [n] itself and, for its child [i], the items
    [i] and [i + 1] of [tempkeys = [lo] + keys + [hi]], as
    [Node.check_structure] passes them down. *)
Fixpoint ordered (d : nat) (lo hi : option Z) (n : Node.t) : Prop :=
  sorted (Node.keys n) /\ bounded lo hi (Node.keys n) /\
  match d, Node.children n with
  | S d', Some cs =>
      let tempkeys := [lo] ++ (Some <$> Node.keys n) ++ [hi] in
      forall i c lo' hi',
        cs !! i = Some c -> tempkeys !! i = Some lo' -> tempkeys !! (i + 1) = Some hi' ->
        ordered d' lo' hi' c
  | _, _ => True
  end.

(** ** A concrete set *)

(** The set of degree 2 after [add(1)], [add(2)], [add(3)], [add(4)]. *)
Definition example_set : BTreeSet :=
  {| minkeys := 1; maxkeys := 3;
     root := Node.mk 3 [2]%Z (Some [Node.mk 3 [1]%Z None; Node.mk 3 [3; 4]%Z None]);
     size := 4 |}.

(** ** Definitions for the further properties *)

(** The key a call is about, if any. *)
Definition op_key (op : Op) : option Z :=
  match op with
  | Add k | Remove k | Discard k => Some k
  | Clear => None
  end.

(** What a call does to the keys of the set. *)
Definition apply_op (op : Op) (l : list Z) : list Z :=
  match op with
  | Add k => ins k l
  | Remove k | Discard k => del k l
  | Clear => []
  end.

(** [well_formed isroot d n]: what [Node.check_structure] checks of the form
    of a subtree, each node against its own [maxkeys]: all leaves at depth
    [d], at most [maxkeys] keys in a node and at least [min_keys] in one
    that is not the root, at least one key in an internal root, one child
    more than keys in an internal node. *)
Fixpoint well_formed (isroot : bool) (d : nat) (n : Node.t) : Prop :=
  length (Node.keys n) <= Node.maxkeys n /\
  (isroot = false -> Node.min_keys n <= length (Node.keys n)) /\
  match d, Node.children n with
  | 0, None => True
  | S d', Some cs =>
      (isroot = true -> 1 <= length (Node.keys n)) /\
      length cs = S (length (Node.keys n)) /\
      Forall (well_formed false d') cs
  | _, _ => False
  end.

(** The property proved of every node by induction on the tree. *)
Definition checked (n : Node.t) : Prop :=
  forall isroot leafdepth lo hi c,
    Node.check_structure n isroot leafdepth lo hi = Ok c ->
    exists d, leafdepth = Z.of_nat d /\ well_formed isroot d n /\
      sorted (elements n) /\ bounded lo hi (elements n) /\ c = length (elements n).

(** All the nodes of a subtree, the top node first. *)
Fixpoint subtrees (n : Node.t) : list Node.t :=
  n :: match Node.children n with
       | None => []
       | Some cs => mjoin (subtrees <$> cs)
       end.

(** ** Lists *)

Section Lists.

Lemma pre_app ks1 ks2 es1 es2 :
  length ks1 = length es1 -> pre (ks1 ++ ks2) (es1 ++ es2) = pre ks1 es1 ++ pre ks2 es2.
Proof.
  revert es1; induction ks1 as [|k ks1 IH]; intros [|e es1] Hl; simplify_eq/=; auto.
  rewrite IH by done. by rewrite <- app_assoc.
Qed.

Lemma post_app ks1 ks2 es1 es2 :
  length ks1 = length es1 -> post (ks1 ++ ks2) (es1 ++ es2) = post ks1 es1 ++ post ks2 es2.
Proof.
  revert es1; induction ks1 as [|k ks1 IH]; intros [|e es1] Hl; simplify_eq/=; auto.
  rewrite IH by done. by rewrite <- app_assoc.
Qed.

Lemma post_pre k ks1 ks2 es1 e es2 :
  length ks1 = length es1 ->
  post (k :: ks1 ++ ks2) (es1 ++ e :: es2) = k :: pre ks1 es1 ++ e ++ post ks2 es2.
Proof.
  revert k es1; induction ks1 as [|k1 ks1 IH]; intros k [|e1 es1] Hl; simplify_eq/=; auto.
  rewrite IH by done. by rewrite <- app_assoc.
Qed.

Lemma inter_app ks1 ks2 es1 e es2 :
  length ks1 = length es1 ->
  inter (ks1 ++ ks2) (es1 ++ e :: es2) = pre ks1 es1 ++ e ++ post ks2 es2.
Proof.
  destruct ks1 as [|k ks1], es1 as [|e1 es1]; intros Hl; simplify_eq/=; auto.
  rewrite post_pre by done. by rewrite <- app_assoc.
Qed.

Lemma pre_snoc ks k es e :
  length ks = length es -> pre (ks ++ [k]) (es ++ [e]) = pre ks es ++ e ++ [k].
Proof. intros. rewrite pre_app by done. done. Qed.

Lemma post_snoc ks k es e :
  length ks = length es -> post (ks ++ [k]) (es ++ [e]) = post ks es ++ k :: e.
Proof. intros. rewrite post_app by done. simpl. by rewrite app_nil_r. Qed.

Lemma inter_snoc ks k es e :
  length es = S (length ks) -> inter (ks ++ [k]) (es ++ [e]) = inter ks es ++ k :: e.
Proof.
  intros Hl. destruct es as [|e0 es]; simplify_eq/=.
  rewrite post_snoc by done. by rewrite <- app_assoc.
Qed.

Lemma inter_pre ks es e : length ks = length es -> inter ks (es ++ [e]) = pre ks es ++ e.
Proof.
  intros Hl. rewrite <- (app_nil_r ks) at 1. rewrite inter_app by done.
  simpl. by rewrite app_nil_r.
Qed.

End Lists.


Lemma elements_leaf m ks : elements (Node.mk m ks None) = ks.
Proof. reflexivity. Qed.

Lemma elements_internal m ks cs :
  elements (Node.mk m ks (Some cs)) = inter ks (elements <$> cs).
Proof. reflexivity. Qed.

Lemma inter_at ks cs i c :
  length cs = S (length ks) -> cs !! i = Some c ->
  inter ks (elements <$> cs) = before ks cs i ++ elements c ++ after ks cs i.
Proof.
  intros Hl Hc. unfold before, after.
  rewrite <- (take_drop i ks) at 1. rewrite <- (take_drop_middle cs i c Hc) at 1.
  rewrite fmap_app, fmap_cons. apply inter_app.
  apply lookup_lt_Some in Hc. rewrite length_fmap, !length_take. lia.
Qed.

Lemma before_insert ks cs i c : before ks (<[i:=c]> cs) i = before ks cs i.
Proof. unfold before. by rewrite take_insert_ge by lia. Qed.

Lemma after_insert ks cs i c : after ks (<[i:=c]> cs) i = after ks cs i.
Proof. unfold after. by rewrite drop_insert_lt by lia. Qed.

Lemma inter_insert ks cs i c c' :
  length cs = S (length ks) -> cs !! i = Some c ->
  inter ks (elements <$> <[i:=c']> cs) = before ks cs i ++ elements c' ++ after ks cs i.
Proof.
  intros Hl Hc. apply lookup_lt_Some in Hc as Hi.
  rewrite (inter_at ks (<[i:=c']> cs) i c').
  - by rewrite before_insert, after_insert.
  - by rewrite length_insert.
  - by apply list_lookup_insert_eq.
Qed.

(** search *)
Lemma search_from_found j ks obj i :
  Node.search_from j ks obj = (true, i) -> j <= i /\ ks !! (i - j) = Some obj.
Proof.
  revert j; induction ks as [|k ks IH]; intros j; simpl; [done|].
  repeat case_decide; intros Hs; simplify_eq.
  - split; [lia|]. by rewrite Nat.sub_diag.
  - apply IH in Hs as [? Hs]. split; [lia|].
    replace (i - j) with (S (i - S j)) by lia. done.
Qed.

Lemma search_from_not_found j ks obj i :
  Node.search_from j ks obj = (false, i) ->
  j <= i <= j + length ks /\ Forall (fun x => (x < obj)%Z) (take (i - j) ks)
  /\ match drop (i - j) ks with [] => True | k :: _ => (obj < k)%Z end.
Proof.
  revert j; induction ks as [|k ks IH]; intros j; simpl.
  - intros; simplify_eq. rewrite Nat.sub_diag. split; [lia|done].
  - repeat case_decide; intros Hs; simplify_eq.
    + apply IH in Hs as (? & Hs1 & Hs2). split; [lia|].
      replace (i - j) with (S (i - S j)) by lia. simpl. split; [by constructor|done].
    + rewrite Nat.sub_diag. simpl. split; [lia|]. split; [done|lia].
Qed.

Lemma sorted_cons_Forall k l : sorted (k :: l) -> Forall (fun x => (k < x)%Z) l.
Proof. unfold sorted. rewrite StronglySorted_cons. by intros []. Qed.

Lemma sorted_head_gt obj l :
  sorted l -> match l with [] => True | k :: _ => (obj < k)%Z end ->
  Forall (fun x => (obj < x)%Z) l.
Proof.
  destruct l as [|k l]; [done|]. intros Hs Hk. constructor; [done|].
  apply sorted_cons_Forall in Hs. eapply Forall_impl; [done|]. simpl; lia.
Qed.

Lemma search_not_found ks obj i :
  sorted ks -> Node.search_from 0 ks obj = (false, i) ->
  i <= length ks /\ Forall (fun x => (x < obj)%Z) (take i ks)
  /\ Forall (fun x => (obj < x)%Z) (drop i ks).
Proof.
  intros Hs Hf. apply search_from_not_found in Hf as (? & H1 & H2).
  rewrite Nat.sub_0_r in *. split; [lia|]. split; [done|].
  apply sorted_head_gt; [|done]. unfold sorted in *.
  rewrite <- (take_drop i ks) in Hs. by apply StronglySorted_app_1_r in Hs.
Qed.

Lemma search_found ks obj i :
  Node.search_from 0 ks obj = (true, i) -> ks !! i = Some obj.
Proof. intros Hf. apply search_from_found in Hf as [_ Hf]. by rewrite Nat.sub_0_r in Hf. Qed.


(** Sorted lists, [ins] and [del] *)

Lemma filter_all {A} (P : A -> Prop) `{forall x, Decision (P x)} (l : list A) :
  Forall P l -> filter P l = l.
Proof. induction 1; [done|]. rewrite filter_cons_True by done. by f_equal. Qed.

Lemma filter_none {A} (P : A -> Prop) `{forall x, Decision (P x)} (l : list A) :
  Forall (fun x => ~ P x) l -> filter P l = [].
Proof. induction 1; [done|]. by rewrite filter_cons_False. Qed.

Lemma sorted_app l1 l2 :
  sorted (l1 ++ l2) <->
  (forall x1 x2, x1 ∈ l1 -> x2 ∈ l2 -> (x1 < x2)%Z) /\ sorted l1 /\ sorted l2.
Proof. apply StronglySorted_app. Qed.

Lemma sorted_cons k l : sorted (k :: l) <-> Forall (fun x => (k < x)%Z) l /\ sorted l.
Proof. apply StronglySorted_cons. Qed.

Lemma sorted_nil : sorted [].
Proof. constructor. Qed.

Lemma sorted_middle l1 k l2 :
  sorted (l1 ++ k :: l2) ->
  Forall (fun x => (x < k)%Z) l1 /\ Forall (fun x => (k < x)%Z) l2.
Proof.
  rewrite sorted_app, sorted_cons. intros (H1 & _ & H2 & _). split; [|done].
  apply Forall_forall. intros x Hx. apply H1; [done|]. by left.
Qed.

Lemma ins_context obj A e B :
  Forall (fun x => (x < obj)%Z) A -> Forall (fun x => (obj < x)%Z) B ->
  ins obj (A ++ e ++ B) = A ++ ins obj e ++ B.
Proof.
  intros HA HB. unfold ins. rewrite !filter_app.
  rewrite (filter_all _ A) by done.
  rewrite (filter_none (fun x => (x < obj)%Z) B) by (eapply Forall_impl; [done|]; simpl; lia).
  rewrite (filter_none _ A) by (eapply Forall_impl; [done|]; simpl; lia).
  rewrite (filter_all _ B) by done.
  rewrite app_nil_r. simpl. by rewrite <- !app_assoc.
Qed.

Lemma del_context obj A e B :
  Forall (fun x => (x < obj)%Z) A -> Forall (fun x => (obj < x)%Z) B ->
  del obj (A ++ e ++ B) = A ++ del obj e ++ B.
Proof.
  intros HA HB. unfold del. rewrite !filter_app.
  rewrite (filter_all _ A) by (eapply Forall_impl; [done|]; simpl; lia).
  rewrite (filter_all _ B) by (eapply Forall_impl; [done|]; simpl; lia).
  done.
Qed.

Lemma ins_split obj A B :
  Forall (fun x => (x < obj)%Z) A -> Forall (fun x => (obj < x)%Z) B ->
  ins obj (A ++ B) = A ++ obj :: B.
Proof.
  intros HA HB. pose proof (ins_context obj A [] B HA HB) as H.
  simpl in H. rewrite H. done.
Qed.

Lemma ins_present obj l : sorted l -> obj ∈ l -> ins obj l = l.
Proof.
  intros Hs Hin. apply list_elem_of_split in Hin as (l1 & l2 & ->).
  apply sorted_middle in Hs as [H1 H2].
  change (l1 ++ obj :: l2) with (l1 ++ [obj] ++ l2).
  rewrite ins_context by done. f_equal. unfold ins. simpl.
  rewrite !filter_cons_False by lia. done.
Qed.

Lemma del_present obj l1 l2 : sorted (l1 ++ obj :: l2) -> del obj (l1 ++ obj :: l2) = l1 ++ l2.
Proof.
  intros Hs. apply sorted_middle in Hs as [H1 H2].
  change (l1 ++ obj :: l2) with (l1 ++ [obj] ++ l2).
  rewrite del_context by done. unfold del. simpl.
  rewrite filter_cons_False by (intros ?; done). done.
Qed.

Lemma del_absent obj l : obj ∉ l -> del obj l = l.
Proof.
  intros Hn. unfold del. apply filter_all, Forall_forall. intros x Hx ->. done.
Qed.

Lemma elem_of_ins x obj l : x ∈ ins obj l <-> x = obj \/ x ∈ l.
Proof.
  unfold ins. rewrite elem_of_app, elem_of_cons, !list_elem_of_filter.
  destruct (decide (x = obj)) as [->|Hne].
  - split; intros _; [by left|]. right; by left.
  - split.
    + intros [[_ ?]|[?|[_ ?]]]; [by right|done|by right].
    + intros [?|?]; [done|].
      destruct (decide (x < obj)%Z); [by left|]. right; right. split; [lia|done].
Qed.

Lemma elem_of_del x obj l : x ∈ del obj l <-> x <> obj /\ x ∈ l.
Proof. unfold del. by rewrite list_elem_of_filter. Qed.

Lemma sorted_filter (P : Z -> Prop) `{forall x, Decision (P x)} l :
  sorted l -> sorted (filter P l).
Proof.
  induction l as [|k l IH]; [done|]. rewrite sorted_cons. intros [Hk Hl].
  rewrite filter_cons. case_decide; [|by apply IH].
  apply sorted_cons. split; [|by apply IH].
  apply Forall_forall. intros x [_ Hx]%list_elem_of_filter.
  by eapply Forall_forall in Hk.
Qed.

Lemma sorted_ins obj l : sorted l -> sorted (ins obj l).
Proof.
  intros Hs. unfold ins. apply sorted_app. split; [|split].
  - intros x1 x2 [? _]%list_elem_of_filter [->|[? _]%list_elem_of_filter]%elem_of_cons; lia.
  - by apply sorted_filter.
  - apply sorted_cons. split; [|by apply sorted_filter].
    apply Forall_forall. by intros x [? _]%list_elem_of_filter.
Qed.

Lemma sorted_del obj l : sorted l -> sorted (del obj l).
Proof. apply sorted_filter. Qed.

Lemma mem_true obj l : mem obj l = true <-> obj ∈ l.
Proof. unfold mem. by rewrite bool_decide_eq_true. Qed.

Lemma mem_false obj l : mem obj l = false <-> obj ∉ l.
Proof. unfold mem. by rewrite bool_decide_eq_false. Qed.

Lemma length_ins obj l :
  sorted l -> length (ins obj l) = if mem obj l then length l else S (length l).
Proof.
  intros Hs. destruct (mem obj l) eqn:Hm.
  - apply mem_true in Hm. by rewrite ins_present.
  - apply mem_false in Hm. unfold ins. rewrite length_app. simpl.
    clear Hs. induction l as [|k l IH]; [done|].
    apply not_elem_of_cons in Hm as [Hk Hm]. specialize (IH Hm).
    rewrite !filter_cons. repeat case_decide; simpl in *; lia.
Qed.

Lemma length_del obj l :
  sorted l -> length l = if mem obj l then S (length (del obj l)) else length (del obj l).
Proof.
  intros Hs. destruct (mem obj l) eqn:Hm.
  - apply mem_true in Hm. apply list_elem_of_split in Hm as (l1 & l2 & ->).
    rewrite del_present by done. rewrite !length_app. simpl. lia.
  - apply mem_false in Hm. by rewrite del_absent.
Qed.

Lemma ins_ins obj l : sorted l -> ins obj (ins obj l) = ins obj l.
Proof.
  intros Hs. apply ins_present; [by apply sorted_ins|]. apply elem_of_ins. by left.
Qed.

(** Insertion into and removal from the keys of a leaf *)

Lemma leaf_insert ks obj i :
  sorted ks -> Node.search_from 0 ks obj = (false, i) -> py_insert i obj ks = ins obj ks.
Proof.
  intros Hs Hf. apply search_not_found in Hf as (? & H1 & H2); [|done].
  unfold py_insert. rewrite <- (take_drop i ks) at 3. by rewrite ins_split.
Qed.

Lemma search_not_found_absent ks obj i :
  sorted ks -> Node.search_from 0 ks obj = (false, i) -> obj ∉ ks.
Proof.
  intros Hs Hf. apply search_not_found in Hf as (? & H1 & H2); [|done].
  rewrite <- (take_drop i ks). rewrite elem_of_app. intros [Hin|Hin].
  - eapply Forall_forall in H1; [|done]. simpl in H1. lia.
  - eapply Forall_forall in H2; [|done]. simpl in H2. lia.
Qed.

Lemma leaf_delete ks obj i :
  sorted ks -> ks !! i = Some obj -> delete i ks = del obj ks.
Proof.
  intros Hs Hi. rewrite delete_take_drop.
  rewrite <- (take_drop_middle ks i obj Hi) in Hs.
  rewrite <- (del_present obj _ _ Hs). by rewrite take_drop_middle.
Qed.


(** Indexing into a list written as a concatenation *)

Section Middle.
Context {A : Type}.
Implicit Types (l : list A) (x y : A).

Lemma lookup_mid0 l1 x l2 i : i = length l1 -> (l1 ++ x :: l2) !! i = Some x.
Proof. intros ->. apply list_lookup_middle. done. Qed.

Lemma lookup_mid1 l1 x y l2 i : i = S (length l1) -> (l1 ++ x :: y :: l2) !! i = Some y.
Proof.
  intros ->. change (l1 ++ x :: y :: l2) with (l1 ++ [x] ++ y :: l2).
  rewrite app_assoc. apply list_lookup_middle. rewrite length_app. simpl. lia.
Qed.

Lemma insert_mid0 l1 x y l2 i : i = length l1 -> <[i:=y]> (l1 ++ x :: l2) = l1 ++ y :: l2.
Proof. intros ->. rewrite insert_app_r_alt by lia. by rewrite Nat.sub_diag. Qed.

Lemma insert_mid1 l1 x y z l2 i :
  i = S (length l1) -> <[i:=z]> (l1 ++ x :: y :: l2) = l1 ++ x :: z :: l2.
Proof.
  intros ->. rewrite insert_app_r_alt by lia.
  replace (S (length l1) - length l1) with 1 by lia. done.
Qed.

Lemma delete_mid0 l1 x l2 i : i = length l1 -> delete i (l1 ++ x :: l2) = l1 ++ l2.
Proof. intros ->. apply delete_middle. Qed.

Lemma delete_mid1 l1 x y l2 i :
  i = S (length l1) -> delete i (l1 ++ x :: y :: l2) = l1 ++ x :: l2.
Proof.
  intros ->. change (l1 ++ x :: y :: l2) with (l1 ++ [x] ++ y :: l2).
  rewrite app_assoc. rewrite delete_mid0; [by rewrite <- app_assoc|].
  rewrite length_app. simpl. lia.
Qed.

Lemma take_mid0 l1 l2 i : i = length l1 -> take i (l1 ++ l2) = l1.
Proof. apply take_app_length'. Qed.

Lemma take_mid1 l1 x l2 i : i = S (length l1) -> take i (l1 ++ x :: l2) = l1 ++ [x].
Proof.
  intros ->. change (l1 ++ x :: l2) with (l1 ++ [x] ++ l2). rewrite app_assoc.
  apply take_app_length'. rewrite length_app. simpl. lia.
Qed.

Lemma drop_mid0 l1 l2 i : i = length l1 -> drop i (l1 ++ l2) = l2.
Proof. apply drop_app_length'. Qed.

Lemma drop_mid1 l1 x l2 i : i = S (length l1) -> drop i (l1 ++ x :: l2) = l2.
Proof.
  intros ->. change (l1 ++ x :: l2) with (l1 ++ [x] ++ l2). rewrite app_assoc.
  apply drop_app_length'. rewrite length_app. simpl. lia.
Qed.

Lemma drop_mid2 l1 x y l2 i : i = S (S (length l1)) -> drop i (l1 ++ x :: y :: l2) = l2.
Proof.
  intros ->. change (l1 ++ x :: y :: l2) with (l1 ++ [x; y] ++ l2). rewrite app_assoc.
  apply drop_app_length'. rewrite length_app. simpl. lia.
Qed.

Lemma lookup_split l i x : l !! i = Some x -> exists l1 l2, l = l1 ++ x :: l2 /\ length l1 = i.
Proof.
  intros Hi. exists (take i l), (drop (S i) l). split.
  - by rewrite take_drop_middle.
  - apply lookup_lt_Some in Hi. rewrite length_take. lia.
Qed.

Lemma lookup_split2 l i x y :
  l !! i = Some x -> l !! S i = Some y ->
  exists l1 l2, l = l1 ++ x :: y :: l2 /\ length l1 = i.
Proof.
  intros Hi Hj. apply lookup_split in Hi as (l1 & l2 & -> & <-).
  exists l1. rewrite lookup_app_r in Hj by lia.
  replace (S (length l1) - length l1) with 1 in Hj by lia.
  destruct l2 as [|y' l2]; simplify_eq/=. by exists l2.
Qed.

Lemma snoc_split l : l <> [] -> exists l' x, l = l' ++ [x].
Proof.
  intros Hl. destruct (last l) as [x|] eqn:Hx.
  - apply last_Some in Hx as [l' ->]. by exists l', x.
  - by apply last_None in Hx.
Qed.

End Middle.


(** ** Nodes of a tree of degree [t] *)

Create Rewrite HintDb mid.
#[global] Hint Rewrite @lookup_mid0 @lookup_mid1 @insert_mid0 @insert_mid1 @delete_mid0
  @delete_mid1 @take_mid0 @take_mid1 @drop_mid0 @drop_mid1 @drop_mid2
  using (cbn [length]; rewrite ?length_app; cbn [length]; lia) : mid.
#[global] Hint Rewrite @take_0 @drop_0 : mid.

(** Runs the straight-line part of a method: binds, guards and list accesses
    whose outcome follows from the context. *)
Ltac len_solve :=
  rewrite ?length_app, ?length_take, ?length_drop, ?length_insert, ?length_fmap;
  cbn [length]; rewrite ?length_app; cbn [length]; first [done | lia | tauto].
Ltac run_guard :=
  match goal with
  | |- context [guard ?e ?c] =>
      unfold guard at 1; rewrite (decide_True (P := c)) by len_solve
  | |- context [assert ?c] =>
      unfold assert at 1, guard at 1;
      rewrite (decide_True (P := c)) by len_solve
  end.
Ltac nsimpl :=
  cbn [bind fst snd Node.keys Node.children Node.maxkeys Node.set_children Node.set_keys
       Node.is_leaf option_map negb].
Ltac run := repeat (first [progress nsimpl | progress (autorewrite with mid) | run_guard]).

#[local] Arguments Nat.div : simpl never.
#[local] Arguments Nat.modulo : simpl never.

Section Nodes.
Variables mn mx : nat.
Hypothesis Hmn : 1 <= mn.
Hypothesis Hmx : mx <= 2 * mn + 1 <= mx.

Lemma mx_half : mx / 2 = mn.
Proof. symmetry. apply (Nat.div_unique _ 2 _ 1); lia. Qed.

Lemma mx_odd : 3 <= mx /\ mx mod 2 = 1.
Proof.
  split; [lia|]. symmetry. apply (Nat.mod_unique _ 2 mn 1); lia.
Qed.

Lemma shape_maxkeys lb d n : shape mn mx lb d n -> Node.maxkeys n = mx.
Proof. destruct d; simpl; tauto. Qed.

Lemma shape_min_keys lb d n : shape mn mx lb d n -> Node.min_keys n = mn.
Proof. intros H%shape_maxkeys. unfold Node.min_keys. rewrite H. apply mx_half. Qed.

Lemma shape_length lb d n : shape mn mx lb d n -> lb <= length (Node.keys n) <= mx.
Proof. destruct d; simpl; tauto. Qed.

Lemma shape_0 lb n :
  shape mn mx lb 0 n <->
  Node.maxkeys n = mx /\ lb <= length (Node.keys n) <= mx /\ Node.children n = None.
Proof. simpl. destruct (Node.children n); naive_solver. Qed.

Lemma shape_S lb d n :
  shape mn mx lb (S d) n <->
  Node.maxkeys n = mx /\ lb <= length (Node.keys n) <= mx /\
  exists cs, Node.children n = Some cs /\ length cs = S (length (Node.keys n))
             /\ Forall (shape mn mx mn d) cs.
Proof. simpl. destruct (Node.children n); naive_solver. Qed.

#[local] Arguments shape : simpl never.

Lemma shape_leaf lb m ks : m = mx -> lb <= length ks <= mx -> shape mn mx lb 0 (Node.mk m ks None).
Proof. intros. by apply shape_0. Qed.

Lemma shape_internal lb d m ks cs :
  m = mx -> lb <= length ks <= mx -> length cs = S (length ks) ->
  Forall (shape mn mx mn d) cs -> shape mn mx lb (S d) (Node.mk m ks (Some cs)).
Proof. intros. apply shape_S. simpl. eauto 10. Qed.

Lemma shape_weaken lb lb' d n :
  lb' <= lb -> shape mn mx lb d n -> shape mn mx lb' d n.
Proof. destruct d; rewrite ?shape_0, ?shape_S; intros ? (? & ? & ?); (split; [done|split; [lia|done]]). Qed.

Lemma shape_strengthen lb lb' d n :
  lb' <= length (Node.keys n) -> shape mn mx lb d n -> shape mn mx lb' d n.
Proof. destruct d; rewrite ?shape_0, ?shape_S; intros ? (? & ? & ?); (split; [done|split; [lia|done]]). Qed.


Lemma shape_levels lb d n : shape mn mx lb d n -> Node.levels n = d.
Proof.
  revert lb n; induction d as [|d IH]; intros lb [m ks ch].
  - rewrite shape_0. simpl. by intros (_ & _ & ->).
  - rewrite shape_S. simpl. intros (_ & _ & cs & -> & Hl & Hcs).
    destruct cs as [|c cs]; [done|]. apply Forall_cons in Hcs as [Hc _].
    f_equal. eauto.
Qed.

Lemma shape_depth_unique lb lb' d d' n : shape mn mx lb d n -> shape mn mx lb' d' n -> d = d'.
Proof. intros H1%shape_levels H2%shape_levels. congruence. Qed.

(** *** split *)

Lemma split_eq lb d n :
  shape mn mx lb d n -> length (Node.keys n) = mx ->
  exists mid,
    Node.keys n !! mn = Some mid /\
    Node.split n =
      Ok (mid,
          Node.mk mx (drop (S mn) (Node.keys n)) (drop (S mn) <$> Node.children n),
          Node.mk mx (take mn (Node.keys n)) (take (S mn) <$> Node.children n)).
Proof.
  intros Hs Hfull. pose proof (shape_maxkeys _ _ _ Hs) as Hm.
  pose proof mx_odd as Hodd. destruct n as [m ks ch]; simpl in *. subst m.
  destruct (lookup_lt_is_Some_2 ks mn) as [mid Hmid]; [lia|].
  exists mid. split; [done|].
  unfold Node.split, Node.init, Node.min_keys, Node.is_leaf. simpl.
  rewrite mx_half. run. unfold py_get. rewrite Hmid. run.
  replace (mn + 1) with (S mn) by lia.
  destruct ch as [cs|]; simpl; done.
Qed.

Lemma inter_split ks1 k ks2 es1 e2 es2 :
  length es1 = S (length ks1) ->
  inter (ks1 ++ k :: ks2) (es1 ++ e2 :: es2) = inter ks1 es1 ++ k :: inter ks2 (e2 :: es2).
Proof.
  intros Hl. destruct (snoc_split es1) as (es1' & e & ->); [by destruct es1|].
  rewrite length_app in Hl. simpl in Hl.
  rewrite inter_pre by lia. rewrite <- (app_assoc es1'). simpl.
  rewrite inter_app by lia. simpl. by rewrite <- !app_assoc.
Qed.

Lemma split_spec lb d n :
  shape mn mx lb d n -> length (Node.keys n) = mx ->
  exists mid r l,
    Node.split n = Ok (mid, r, l) /\
    Node.keys n = Node.keys l ++ mid :: Node.keys r /\
    length (Node.keys l) = mn /\ length (Node.keys r) = mn /\
    shape mn mx mn d l /\ shape mn mx mn d r /\
    elements n = elements l ++ mid :: elements r.
Proof.
  intros Hs Hfull. destruct (split_eq _ _ _ Hs Hfull) as (mid & Hmid & ->).
  eexists _, _, _. split; [done|]. cbn.
  pose proof (take_drop_middle _ _ _ Hmid) as Hks.
  assert (length (take mn (Node.keys n)) = mn) as Hl1 by (rewrite length_take; lia).
  assert (length (drop (S mn) (Node.keys n)) = mn) as Hl2 by (rewrite length_drop; lia).
  split; [done|]. split; [done|]. split; [done|].
  destruct n as [m ks ch]; cbn in *. destruct d as [|d].
  - apply shape_0 in Hs as (_ & _ & Hch). cbn in Hch. subst ch.
    rewrite !shape_0. cbn. split_and!; try done; lia.
  - apply shape_S in Hs as (_ & _ & cs & Hch & Hlen & Hcs). cbn in *. subst ch.
    rewrite !shape_S. cbn.
    rewrite <- (take_drop (S mn) cs) in Hcs. apply Forall_app in Hcs as [Hc1 Hc2].
    split_and!; try done; try lia.
    { eexists. split_and!; [done| |done]. rewrite length_take. lia. }
    { eexists. split_and!; [done| |done]. rewrite length_drop. lia. }
    rewrite <- Hks at 1. rewrite <- (take_drop (S mn) cs) at 1.
    rewrite fmap_app.
    destruct (drop (S mn) cs) as [|c2 cs2] eqn:Hd.
    { apply (f_equal length) in Hd. rewrite length_drop in Hd. simpl in Hd. lia. }
    rewrite fmap_cons. rewrite inter_split; [done|].
    rewrite length_fmap, !length_take. lia.
Qed.

(** *** merge_children *)

Lemma merge_children_eq m ks1 k ks2 cs1 l r cs2 i :
  i = length cs1 -> length ks1 = length cs1 ->
  length (Node.keys l) = m / 2 -> length (Node.keys r) = m / 2 ->
  Node.is_leaf l = Node.is_leaf r ->
  Node.merge_children (Node.mk m (ks1 ++ k :: ks2) (Some (cs1 ++ l :: r :: cs2))) i =
  Ok (Node.mk m (ks1 ++ ks2) (Some (cs1 ++ merged l k r :: cs2))).
Proof.
  intros -> Hl Hkl Hkr Hleaf.
  unfold Node.merge_children, Node.remove_key_and_child, Node.remove_key, Node.min_keys,
    py_slice2, py_get.
  destruct l as [lm lks lch], r as [rm rks rch]. cbn in Hkl, Hkr, Hleaf.
  run. cbn [take]. run.
  unfold merged. cbn.
  destruct lch, rch; try done; by run.
Qed.

Lemma elements_merged d l k r :
  shape mn mx mn d l -> shape mn mx mn d r ->
  elements (merged l k r) = elements l ++ k :: elements r.
Proof.
  destruct l as [lm lks lch], r as [rm rks rch], d as [|d]; rewrite ?shape_0, ?shape_S; cbn.
  - intros (_ & _ & ->) (_ & _ & ->). done.
  - intros (_ & _ & lcs & -> & Hl1 & _) (_ & _ & rcs & -> & Hl2 & _). cbn.
    destruct rcs as [|rc rcs]; [done|]. rewrite fmap_app, fmap_cons.
    rewrite inter_split; [done|]. by rewrite length_fmap.
Qed.

Lemma shape_merged d l k r :
  shape mn mx mn d l -> shape mn mx mn d r ->
  length (Node.keys l) = mn -> length (Node.keys r) = mn ->
  shape mn mx mx d (merged l k r).
Proof.
  destruct l as [lm lks lch], r as [rm rks rch], d as [|d]; rewrite ?shape_0, ?shape_S; cbn.
  - intros (-> & _ & ->) (_ & _ & ->) Hl Hr. rewrite length_app. cbn. split_and!; try done; lia.
  - intros (-> & _ & lcs & -> & Hl1 & Hf1) (_ & _ & rcs & -> & Hl2 & Hf2) Hl Hr.
    rewrite length_app. cbn. split_and!; try done; try lia.
    eexists. split_and!; [done| |by apply Forall_app].
    rewrite !length_app. cbn. lia.
Qed.

Lemma shape_is_leaf lb d n : shape mn mx lb d n -> Node.is_leaf n = bool_decide (d = 0).
Proof.
  unfold Node.is_leaf. destruct d; rewrite ?shape_0, ?shape_S.
  - by intros (_ & _ & ->).
  - by intros (_ & _ & cs & -> & _).
Qed.

(** *** ensure_child_remove *)

Lemma delete_last {A} (l : list A) : delete (length l - 1) l = take (length l - 1) l.
Proof.
  rewrite delete_take_drop. rewrite (drop_ge l) by lia. by rewrite app_nil_r.
Qed.

Lemma last_lookup' {A} (l : list A) : l !! (length l - 1) = last l.
Proof. rewrite last_lookup. by rewrite Nat.sub_1_r. Qed.

Lemma steal_from_left_eq n cs i c l sep lk :
  Node.keys n !! (i - 1) = Some sep -> last (Node.keys l) = Some lk ->
  Node.is_leaf l = Node.is_leaf c -> Node.children l <> Some [] ->
  Node.steal_from_left n cs i c l =
  Ok (Node.mk (Node.maxkeys n) (<[i - 1:=lk]> (Node.keys n))
        (Some (<[i:=push_front sep (last_child l) c]> (<[i - 1:=drop_last_item l]> cs))), i).
Proof.
  intros Hsep Hlk Hleaf Hne. apply lookup_lt_Some in Hsep as Hi.
  assert (Node.keys l <> []) as Hlks by (by intros Hnil; rewrite Hnil in Hlk).
  assert (0 < length (Node.keys l)) by (destruct (Node.keys l); [done|cbn; lia]).
  destruct l as [lm lks lch], c as [cm cks cch]. unfold Node.is_leaf in Hleaf. cbn in *.
  unfold Node.steal_from_left, Node.remove_key, py_get, py_set, py_pop_last, push_front,
    drop_last_item, last_child, py_insert.
  destruct cch as [ccs|], lch as [lcs|]; try done; cbn.
  - destruct (last lcs) as [lc|] eqn:Hlc; [|by apply last_None in Hlc; subst].
    run. rewrite Hsep. run. rewrite last_lookup', Hlk. run.
    rewrite decide_True by done. by rewrite delete_last.
  - rewrite Hsep. run. rewrite last_lookup', Hlk. run.
    rewrite decide_True by done. by rewrite delete_last.
Qed.

Lemma steal_from_right_eq n cs i c r sep rk :
  Node.keys n !! i = Some sep -> head (Node.keys r) = Some rk ->
  Node.is_leaf r = Node.is_leaf c -> Node.children r <> Some [] ->
  Node.steal_from_right n cs i c r =
  Ok (Node.mk (Node.maxkeys n) (<[i:=rk]> (Node.keys n))
        (Some (<[i:=push_back sep (first_child r) c]> (<[i + 1:=drop_first_item r]> cs))), i).
Proof.
  intros Hsep Hrk Hleaf Hne. apply lookup_lt_Some in Hsep as Hi.
  destruct r as [rm rks rch], c as [cm cks cch]. unfold Node.is_leaf in Hleaf. cbn in *.
  destruct rks as [|rk' rks]; simplify_eq/=.
  unfold Node.steal_from_right, Node.remove_key, py_get, py_set, py_pop_first, push_back,
    drop_first_item, first_child.
  destruct cch as [ccs|], rch as [rcs|]; try done; cbn.
  - destruct rcs as [|rc rcs]; [done|]. run. rewrite Hsep. run. cbn.
    rewrite decide_True by done. done.
  - rewrite Hsep. run. cbn. rewrite decide_True by done. done.
Qed.

Lemma ensure_child_remove_eq n cs i c :
  Node.children n = Some cs -> length cs = S (length (Node.keys n)) ->
  1 <= length (Node.keys n) ->
  cs !! i = Some c -> length (Node.keys c) = Node.min_keys n ->
  Forall (fun x => Node.is_leaf x = Node.is_leaf c) cs ->
  Node.ensure_child_remove n i =
  Node.rebalance n cs i c (left_sibling cs i) (right_sibling cs i).
Proof.
  intros Hch Hlen Hks Hc Hck Hkind. apply lookup_lt_Some in Hc as Hi.
  unfold Node.ensure_child_remove, left_sibling, right_sibling, py_get.
  rewrite Hch, Hc. run. rewrite decide_False by lia. run.
  assert (forall j x, cs !! j = Some x ->
            Node.same_kind (Some x) (negb (Node.is_leaf c)) = true) as Hsame.
  { intros j x Hx. eapply Forall_lookup_1 in Hkind; [|done]. cbn in *. rewrite Hkind.
    by destruct (Node.is_leaf c). }
  destruct (decide (1 <= i)) as [Hi1|Hi1].
  - destruct (lookup_lt_is_Some_2 cs (i - 1)) as [l Hl]; [lia|]. rewrite Hl. run.
    destruct (decide (i < length (Node.keys n))) as [Hi2|Hi2].
    + destruct (lookup_lt_is_Some_2 cs (i + 1)) as [r Hr]; [lia|]. rewrite Hr. run.
      rewrite (Hsame _ _ Hl), (Hsame _ _ Hr). by run.
    + rewrite (lookup_ge_None_2 cs (i + 1)) by lia. run. rewrite (Hsame _ _ Hl). by run.
  - run. destruct (decide (i < length (Node.keys n))) as [Hi2|Hi2]; [|lia].
    destruct (lookup_lt_is_Some_2 cs (i + 1)) as [r Hr]; [lia|]. rewrite Hr. run.
    rewrite (Hsame _ _ Hr). by run.
Qed.

Lemma take_snoc {A} (l : list A) x : take (length (l ++ [x]) - 1) (l ++ [x]) = l.
Proof. rewrite length_app. cbn. apply take_app_length'. lia. Qed.

Lemma shape_children lb d n cs :
  shape mn mx lb (S d) n -> Node.children n = Some cs ->
  length cs = S (length (Node.keys n)) /\ Forall (shape mn mx mn d) cs.
Proof. rewrite shape_S. intros (_ & _ & cs' & Hcs & Hl & Hf) Hch. rewrite Hch in Hcs. injection Hcs as <-. by split. Qed.

Lemma last_child_0 lb l : shape mn mx lb 0 l -> last_child l = None.
Proof. rewrite shape_0. unfold last_child. by intros (_ & _ & ->). Qed.

Lemma last_child_S lb d l :
  shape mn mx lb (S d) l -> exists lc, last_child l = Some lc /\ shape mn mx mn d lc.
Proof.
  rewrite shape_S. unfold last_child. intros (_ & _ & cs & -> & Hl & Hcs). cbn.
  destruct (snoc_split cs) as (cs' & lc & ->); [by destruct cs|].
  exists lc. rewrite last_snoc. split; [done|].
  apply Forall_app in Hcs as [_ Hcs]. by inversion Hcs.
Qed.

Lemma first_child_0 lb l : shape mn mx lb 0 l -> first_child l = None.
Proof. rewrite shape_0. unfold first_child. by intros (_ & _ & ->). Qed.

Lemma first_child_S lb d l :
  shape mn mx lb (S d) l -> exists lc, first_child l = Some lc /\ shape mn mx mn d lc.
Proof.
  rewrite shape_S. unfold first_child. intros (_ & _ & cs & -> & Hl & Hcs). cbn.
  destruct cs as [|lc cs]; [done|]. exists lc. split; [done|].
  by apply Forall_cons in Hcs as [? _].
Qed.

Lemma elements_drop_last lb d l lk :
  shape mn mx lb d l -> last (Node.keys l) = Some lk ->
  elements l = elements (drop_last_item l) ++ lk :: sub_elements (last_child l).
Proof.
  intros Hs Hlk. apply last_Some in Hlk as [lks Hlks].
  destruct l as [lm ks lch], d as [|d]; cbn in Hlks; subst ks.
  - apply shape_0 in Hs as (_ & _ & Hch). cbn in Hch. subst lch.
    unfold drop_last_item, last_child. cbn [Node.keys Node.children Node.maxkeys].
    rewrite take_snoc. done.
  - apply shape_S in Hs as (_ & _ & cs & Hch & Hl & _). cbn in Hch, Hl. subst lch.
    destruct (snoc_split cs) as (cs' & lc & ->); [by destruct cs|].
    unfold drop_last_item, last_child. cbn [Node.keys Node.children Node.maxkeys].
    rewrite take_snoc. cbn. rewrite take_snoc, last_snoc. cbn.
    rewrite fmap_app. cbn. rewrite inter_snoc; [done|].
    rewrite !length_app in Hl. cbn in Hl. rewrite length_fmap. lia.
Qed.

Lemma shape_drop_last lb d l :
  shape mn mx (S lb) d l -> shape mn mx lb d (drop_last_item l).
Proof.
  destruct l as [lm ks lch], d as [|d]; rewrite ?shape_0, ?shape_S; unfold drop_last_item;
    cbn [Node.keys Node.children Node.maxkeys].
  - intros (-> & Hl & ->). rewrite length_take. split_and!; try done; lia.
  - intros (-> & Hl & cs & -> & Hlen & Hcs). rewrite length_take. split_and!; try done; try lia.
    eexists. split; [done|]. rewrite length_take. split; [lia|]. by apply Forall_take.
Qed.

Lemma elements_drop_first lb d r rk :
  shape mn mx lb d r -> head (Node.keys r) = Some rk ->
  elements r = sub_elements (first_child r) ++ rk :: elements (drop_first_item r).
Proof.
  intros Hs Hrk. destruct r as [rm ks rch], d as [|d]; cbn in Hrk;
    destruct ks as [|rk' ks]; simplify_eq/=.
  - apply shape_0 in Hs as (_ & _ & Hch). cbn in Hch. subst rch. done.
  - apply shape_S in Hs as (_ & _ & cs & Hch & Hl & _). cbn in Hch, Hl. subst rch.
    destruct cs as [|c0 [|c1 cs]]; simplify_eq/=. done.
Qed.

Lemma shape_drop_first lb d r :
  shape mn mx (S lb) d r -> shape mn mx lb d (drop_first_item r).
Proof.
  destruct r as [rm ks rch], d as [|d]; rewrite ?shape_0, ?shape_S; unfold drop_first_item;
    cbn [Node.keys Node.children Node.maxkeys].
  - intros (-> & Hl & ->). rewrite length_drop. split_and!; try done; lia.
  - intros (-> & Hl & cs & -> & Hlen & Hcs). rewrite length_drop. split_and!; try done; try lia.
    eexists. split; [done|]. rewrite length_drop. split; [lia|]. by apply Forall_drop.
Qed.

Lemma elements_push_front lb d c sep sub :
  shape mn mx lb d c -> (d = 0 -> sub = None) -> (d <> 0 -> is_Some sub) ->
  elements (push_front sep sub c) = sub_elements sub ++ sep :: elements c.
Proof.
  intros Hs H0 HS. destruct c as [cm ks cch], d as [|d].
  - apply shape_0 in Hs as (_ & _ & Hch). cbn in Hch. subst cch. by rewrite H0.
  - apply shape_S in Hs as (_ & _ & cs & Hch & Hl & _). cbn in Hch, Hl. subst cch.
    destruct HS as [x ->]; [done|]. destruct cs as [|c0 cs]; [done|]. done.
Qed.

Lemma shape_push_front lb d c sep sub :
  shape mn mx lb d c -> length (Node.keys c) < mx ->
  (forall d', d = S d' -> exists x, sub = Some x /\ shape mn mx mn d' x) ->
  shape mn mx (S lb) d (push_front sep sub c).
Proof.
  destruct c as [cm ks cch], d as [|d]; rewrite ?shape_0, ?shape_S; unfold push_front;
    cbn [Node.keys Node.children Node.maxkeys length].
  - intros (-> & Hl & ->) ? _. split_and!; try done; lia.
  - intros (-> & Hl & cs & -> & Hlen & Hcs) ? Hsub. destruct (Hsub d) as (x & -> & Hx); [done|].
    split_and!; try done; try lia. eexists. split; [done|]. cbn. split; [lia|].
    by constructor.
Qed.

Lemma elements_push_back lb d c sep sub :
  shape mn mx lb d c -> (d = 0 -> sub = None) -> (d <> 0 -> is_Some sub) ->
  elements (push_back sep sub c) = elements c ++ sep :: sub_elements sub.
Proof.
  intros Hs H0 HS. destruct c as [cm ks cch], d as [|d].
  - apply shape_0 in Hs as (_ & _ & Hch). cbn in Hch. subst cch. by rewrite H0.
  - apply shape_S in Hs as (_ & _ & cs & Hch & Hl & _). cbn in Hch, Hl. subst cch.
    destruct HS as [x ->]; [done|]. cbn. rewrite fmap_app. cbn.
    rewrite inter_snoc; [done|]. by rewrite length_fmap.
Qed.

Lemma shape_push_back lb d c sep sub :
  shape mn mx lb d c -> length (Node.keys c) < mx ->
  (forall d', d = S d' -> exists x, sub = Some x /\ shape mn mx mn d' x) ->
  shape mn mx (S lb) d (push_back sep sub c).
Proof.
  destruct c as [cm ks cch], d as [|d]; rewrite ?shape_0, ?shape_S; unfold push_back;
    cbn [Node.keys Node.children Node.maxkeys]; rewrite length_app; cbn [length].
  - intros (-> & Hl & ->) ? _. split_and!; try done; lia.
  - intros (-> & Hl & cs & -> & Hlen & Hcs) ? Hsub. destruct (Hsub d) as (x & -> & Hx); [done|].
    split_and!; try done; try lia. eexists. split; [done|]. rewrite length_app. cbn.
    split; [lia|]. apply Forall_app. split; [done|]. by constructor.
Qed.

Lemma before_mid0 ks1 ks2 cs1 cs2 i :
  i = length cs1 -> length ks1 = length cs1 ->
  before (ks1 ++ ks2) (cs1 ++ cs2) i = pre ks1 (elements <$> cs1).
Proof. intros -> Hl. unfold before. by rewrite take_mid0, take_mid0. Qed.

Lemma before_mid1 ks1 k ks2 cs1 c cs2 i :
  i = S (length cs1) -> length ks1 = length cs1 ->
  before (ks1 ++ k :: ks2) (cs1 ++ c :: cs2) i = pre ks1 (elements <$> cs1) ++ elements c ++ [k].
Proof.
  intros -> Hl. unfold before. rewrite !take_mid1 by lia.
  rewrite fmap_app. cbn. rewrite pre_snoc; [done|]. by rewrite length_fmap.
Qed.

Lemma after_mid0 ks1 ks2 cs1 c cs2 i :
  i = length cs1 -> length ks1 = length cs1 ->
  after (ks1 ++ ks2) (cs1 ++ c :: cs2) i = post ks2 (elements <$> cs2).
Proof. intros -> Hl. unfold after. by rewrite drop_mid0, drop_mid1. Qed.

Lemma after_mid1 ks1 k ks2 cs1 c0 c cs2 i :
  i = S (length cs1) -> length ks1 = length cs1 ->
  after (ks1 ++ k :: ks2) (cs1 ++ c0 :: c :: cs2) i = post ks2 (elements <$> cs2).
Proof. intros -> Hl. unfold after. by rewrite drop_mid1, drop_mid2 by lia. Qed.

Lemma steal_left_widened lb d n ks1 sep ks2 cs1 l c cs2 lk i :
  shape mn mx (S lb) (S d) n ->
  Node.keys n = ks1 ++ sep :: ks2 -> Node.children n = Some (cs1 ++ l :: c :: cs2) ->
  length ks1 = length cs1 -> i = S (length cs1) ->
  last (Node.keys l) = Some lk -> mn < length (Node.keys l) -> length (Node.keys c) = mn ->
  widened mn mx lb d n i
    (Node.mk (Node.maxkeys n) (<[i - 1:=lk]> (Node.keys n))
       (Some (<[i:=push_front sep (last_child l) c]>
                (<[i - 1:=drop_last_item l]> (cs1 ++ l :: c :: cs2))))) i.
Proof.
  intros Hs Hks Hcs Hl -> Hlk Hlspare Hck.
  pose proof (shape_maxkeys _ _ _ Hs) as Hm. pose proof (shape_length _ _ _ Hs) as Hlen.
  destruct (shape_children _ _ _ _ Hs Hcs) as [Hclen Hf].
  destruct n as [m ks ch]. cbn in Hks, Hcs, Hm, Hlen, Hclen. subst m ks ch. clear Hs.
  cbn [Node.keys Node.maxkeys]. rewrite !length_app in *. cbn [length] in *.
  apply Forall_app in Hf as (Hf1 & Hf2). apply Forall_cons in Hf2 as (Hsl & Hf2).
  apply Forall_cons in Hf2 as (Hsc & Hf2).
  replace (S (length cs1) - 1) with (length cs1) by lia. autorewrite with mid.
  assert (shape mn mx (S mn) d (push_front sep (last_child l) c)) as Hc'.
  { apply shape_push_front; [done|lia|]. intros d' ->. by eapply last_child_S. }
  exists (cs1 ++ l :: c :: cs2), (cs1 ++ drop_last_item l :: push_front sep (last_child l) c :: cs2),
    c, (push_front sep (last_child l) c), (sub_elements (last_child l) ++ [sep]), [].
  cbn [Node.keys Node.children]. split_and!; try done.
  - by autorewrite with mid.
  - by autorewrite with mid.
  - apply shape_S. cbn. rewrite !length_app. cbn. split_and!; try done; try lia.
    eexists. split; [done|]. rewrite !length_app. cbn. split; [lia|].
    apply Forall_app. split; [done|]. constructor.
    { apply shape_drop_last. by eapply shape_strengthen. }
    constructor; [|done]. by eapply shape_weaken; [|done]; lia.
  - rewrite !before_mid1 by done.
    rewrite (elements_drop_last _ _ _ _ Hsl Hlk). by rewrite <- !app_assoc.
  - by rewrite !after_mid1, app_nil_l.
  - rewrite app_nil_r. erewrite elements_push_front; [by rewrite <- app_assoc|done| |].
    + intros ->. by eapply last_child_0.
    + destruct d; [done|]. intros _. edestruct last_child_S as (? & -> & _); done.
Qed.

Lemma steal_right_widened lb d n ks1 sep ks2 cs1 c r cs2 rk i :
  shape mn mx (S lb) (S d) n ->
  Node.keys n = ks1 ++ sep :: ks2 -> Node.children n = Some (cs1 ++ c :: r :: cs2) ->
  length ks1 = length cs1 -> i = length cs1 ->
  head (Node.keys r) = Some rk -> mn < length (Node.keys r) -> length (Node.keys c) = mn ->
  widened mn mx lb d n i
    (Node.mk (Node.maxkeys n) (<[i:=rk]> (Node.keys n))
       (Some (<[i:=push_back sep (first_child r) c]>
                (<[i + 1:=drop_first_item r]> (cs1 ++ c :: r :: cs2))))) i.
Proof.
  intros Hs Hks Hcs Hl -> Hrk Hrspare Hck.
  pose proof (shape_maxkeys _ _ _ Hs) as Hm. pose proof (shape_length _ _ _ Hs) as Hlen.
  destruct (shape_children _ _ _ _ Hs Hcs) as [Hclen Hf].
  destruct n as [m ks ch]. cbn in Hks, Hcs, Hm, Hlen, Hclen. subst m ks ch. clear Hs.
  cbn [Node.keys Node.maxkeys]. rewrite !length_app in *. cbn [length] in *.
  apply Forall_app in Hf as (Hf1 & Hf2). apply Forall_cons in Hf2 as (Hsc & Hf2).
  apply Forall_cons in Hf2 as (Hsr & Hf2).
  replace (length cs1 + 1) with (S (length cs1)) by lia. autorewrite with mid.
  assert (shape mn mx (S mn) d (push_back sep (first_child r) c)) as Hc'.
  { apply shape_push_back; [done|lia|]. intros d' ->. by eapply first_child_S. }
  exists (cs1 ++ c :: r :: cs2), (cs1 ++ push_back sep (first_child r) c :: drop_first_item r :: cs2),
    c, (push_back sep (first_child r) c), [], (sep :: sub_elements (first_child r)).
  cbn [Node.keys Node.children]. split_and!; try done.
  - by autorewrite with mid.
  - by autorewrite with mid.
  - apply shape_S. cbn. rewrite !length_app. cbn. split_and!; try done; try lia.
    eexists. split; [done|]. rewrite !length_app. cbn. split; [lia|].
    apply Forall_app. split; [done|]. constructor.
    { by eapply shape_weaken; [|done]; lia. }
    constructor; [|done]. apply shape_drop_first. by eapply shape_strengthen.
  - by rewrite !before_mid0, app_nil_r.
  - rewrite !after_mid0 by done. cbn.
    rewrite (elements_drop_first _ _ _ _ Hsr Hrk). by rewrite <- !app_assoc.
  - rewrite app_nil_l. erewrite elements_push_back; [done|done| |].
    + intros ->. by eapply first_child_0.
    + destruct d; [done|]. intros _. edestruct first_child_S as (? & -> & _); done.
Qed.

Lemma merge_widened lb d n ks1 sep ks2 cs1 l r cs2 i :
  shape mn mx (S lb) (S d) n ->
  Node.keys n = ks1 ++ sep :: ks2 -> Node.children n = Some (cs1 ++ l :: r :: cs2) ->
  length ks1 = length cs1 -> i = length cs1 ->
  length (Node.keys l) = mn -> length (Node.keys r) = mn ->
  let n' := Node.mk (Node.maxkeys n) (ks1 ++ ks2) (Some (cs1 ++ merged l sep r :: cs2)) in
  Node.merge_children n i = Ok n' /\
  widened mn mx lb d n i n' i /\ widened mn mx lb d n (S i) n' i.
Proof.
  intros Hs Hks Hcs Hl -> Hlk Hrk.
  pose proof (shape_maxkeys _ _ _ Hs) as Hm. pose proof (shape_length _ _ _ Hs) as Hlen.
  destruct (shape_children _ _ _ _ Hs Hcs) as [Hclen Hf].
  destruct n as [m ks ch]. cbn in Hks, Hcs, Hm, Hlen, Hclen. subst m ks ch. clear Hs.
  cbn [Node.keys Node.maxkeys]. rewrite !length_app in *. cbn [length] in *.
  apply Forall_app in Hf as (Hf1 & Hf2). apply Forall_cons in Hf2 as (Hsl & Hf2).
  apply Forall_cons in Hf2 as (Hsr & Hf2).
  pose proof (shape_merged _ _ sep _ Hsl Hsr Hlk Hrk) as Hsm.
  pose proof (elements_merged _ _ sep _ Hsl Hsr) as Hem.
  assert (shape mn mx lb (S d)
            (Node.mk mx (ks1 ++ ks2) (Some (cs1 ++ merged l sep r :: cs2)))) as Hn'.
  { apply shape_S. cbn. rewrite !length_app. split_and!; try done; try lia.
    eexists. split; [done|]. rewrite !length_app. cbn. split; [lia|].
    apply Forall_app. split; [done|]. constructor; [|done].
    by eapply shape_weaken; [|done]; lia. }
  assert (shape mn mx (S mn) d (merged l sep r)) as Hm'.
  { by eapply shape_weaken; [|done]; lia. }
  split_and!.
  - apply merge_children_eq; try done.
    + by rewrite mx_half.
    + by rewrite mx_half.
    + by rewrite (shape_is_leaf _ _ _ Hsl), (shape_is_leaf _ _ _ Hsr).
  - exists (cs1 ++ l :: r :: cs2), (cs1 ++ merged l sep r :: cs2), l, (merged l sep r),
      [], (sep :: elements r).
    cbn [Node.keys Node.children]. split_and!; try done.
    + by autorewrite with mid.
    + by autorewrite with mid.
    + by rewrite !before_mid0, app_nil_r.
    + by rewrite !after_mid0.
  - exists (cs1 ++ l :: r :: cs2), (cs1 ++ merged l sep r :: cs2), r, (merged l sep r),
      (elements l ++ [sep]), [].
    cbn [Node.keys Node.children]. split_and!; try done.
    + by autorewrite with mid.
    + by autorewrite with mid.
    + by rewrite before_mid1, before_mid0.
    + by rewrite after_mid1, after_mid0.
    + rewrite Hem, app_nil_r. by rewrite <- app_assoc.
Qed.

Lemma shape_children_nonempty lb d n : shape mn mx lb d n -> Node.children n <> Some [].
Proof.
  destruct d; rewrite ?shape_0, ?shape_S.
  - by intros (_ & _ & ->).
  - intros (_ & _ & cs & -> & Hl & _). by destruct cs.
Qed.

Lemma steal_left_case lb d n cs i c l :
  shape mn mx (S lb) (S d) n -> Node.children n = Some cs -> 1 <= i ->
  cs !! i = Some c -> cs !! (i - 1) = Some l ->
  mn < length (Node.keys l) -> length (Node.keys c) = mn ->
  exists sep lk,
    Node.keys n !! (i - 1) = Some sep /\ last (Node.keys l) = Some lk /\
    Node.steal_from_left n cs i c l =
      Ok (Node.mk (Node.maxkeys n) (<[i - 1:=lk]> (Node.keys n))
            (Some (<[i:=push_front sep (last_child l) c]> (<[i - 1:=drop_last_item l]> cs))), i) /\
    widened mn mx lb d n i
      (Node.mk (Node.maxkeys n) (<[i - 1:=lk]> (Node.keys n))
         (Some (<[i:=push_front sep (last_child l) c]> (<[i - 1:=drop_last_item l]> cs)))) i.
Proof.
  intros Hs Hch Hi Hc Hl Hspare Hck.
  destruct (shape_children _ _ _ _ Hs Hch) as [Hclen Hf].
  apply lookup_lt_Some in Hc as Hilt.
  destruct (lookup_lt_is_Some_2 (Node.keys n) (i - 1)) as [sep Hsep]; [lia|].
  destruct (last (Node.keys l)) as [lk|] eqn:Hlk;
    [|apply last_None in Hlk; rewrite Hlk in Hspare; cbn in Hspare; lia].
  exists sep, lk. split; [done|]. split; [done|].
  replace i with (S (i - 1)) in Hc by lia.
  destruct (lookup_split2 _ _ _ _ Hl Hc) as (cs1 & cs2 & -> & Hl1).
  destruct (lookup_split _ _ _ Hsep) as (ks1 & ks2 & Hks & Hl2).
  apply Forall_app in Hf as (_ & Hf). apply Forall_cons in Hf as (Hsl & Hf).
  apply Forall_cons in Hf as (Hsc & _).
  split.
  - apply steal_from_left_eq; try done.
    + by rewrite (shape_is_leaf _ _ _ Hsl), (shape_is_leaf _ _ _ Hsc).
    + by eapply shape_children_nonempty.
  - eapply steal_left_widened; try done; lia.
Qed.

Lemma steal_right_case lb d n cs i c r :
  shape mn mx (S lb) (S d) n -> Node.children n = Some cs ->
  cs !! i = Some c -> cs !! (i + 1) = Some r ->
  mn < length (Node.keys r) -> length (Node.keys c) = mn ->
  exists sep rk,
    Node.keys n !! i = Some sep /\ head (Node.keys r) = Some rk /\
    Node.steal_from_right n cs i c r =
      Ok (Node.mk (Node.maxkeys n) (<[i:=rk]> (Node.keys n))
            (Some (<[i:=push_back sep (first_child r) c]> (<[i + 1:=drop_first_item r]> cs))), i) /\
    widened mn mx lb d n i
      (Node.mk (Node.maxkeys n) (<[i:=rk]> (Node.keys n))
         (Some (<[i:=push_back sep (first_child r) c]> (<[i + 1:=drop_first_item r]> cs)))) i.
Proof.
  intros Hs Hch Hc Hr Hspare Hck.
  destruct (shape_children _ _ _ _ Hs Hch) as [Hclen Hf].
  apply lookup_lt_Some in Hr as Hilt.
  destruct (lookup_lt_is_Some_2 (Node.keys n) i) as [sep Hsep]; [lia|].
  destruct (Node.keys r) as [|rk rks] eqn:Hrk; [cbn in Hspare; lia|].
  exists sep, rk. split; [done|]. split; [done|].
  replace (i + 1) with (S i) in Hr by lia.
  destruct (lookup_split2 _ _ _ _ Hc Hr) as (cs1 & cs2 & -> & Hl1).
  destruct (lookup_split _ _ _ Hsep) as (ks1 & ks2 & Hks & Hl2).
  apply Forall_app in Hf as (_ & Hf). apply Forall_cons in Hf as (Hsc & Hf).
  apply Forall_cons in Hf as (Hsr & _).
  split.
  - apply steal_from_right_eq; try done.
    + by rewrite Hrk.
    + by rewrite (shape_is_leaf _ _ _ Hsr), (shape_is_leaf _ _ _ Hsc).
    + by eapply shape_children_nonempty.
  - eapply steal_right_widened; try done; [lia|by rewrite Hrk|by rewrite Hrk].
Qed.

Lemma merge_case lb d n cs i l r :
  shape mn mx (S lb) (S d) n -> Node.children n = Some cs ->
  cs !! i = Some l -> cs !! (i + 1) = Some r ->
  length (Node.keys l) = mn -> length (Node.keys r) = mn ->
  exists sep,
    Node.keys n !! i = Some sep /\
    let n' := Node.mk (Node.maxkeys n) (delete i (Node.keys n))
                (Some (<[i:=merged l sep r]> (delete (i + 1) cs))) in
    Node.merge_children n i = Ok n' /\
    widened mn mx lb d n i n' i /\ widened mn mx lb d n (i + 1) n' i.
Proof.
  intros Hs Hch Hl Hr Hlk Hrk.
  destruct (shape_children _ _ _ _ Hs Hch) as [Hclen Hf].
  apply lookup_lt_Some in Hr as Hilt.
  destruct (lookup_lt_is_Some_2 (Node.keys n) i) as [sep Hsep]; [lia|].
  exists sep. split; [done|].
  replace (i + 1) with (S i) in * by lia.
  destruct (lookup_split2 _ _ _ _ Hl Hr) as (cs1 & cs2 & -> & Hl1).
  destruct (lookup_split _ _ _ Hsep) as (ks1 & ks2 & Hks & Hl2).
  rewrite Hks. autorewrite with mid.
  eapply merge_widened; try done; lia.
Qed.

Lemma widened_refl lb d n cs i c :
  shape mn mx (S lb) (S d) n -> Node.children n = Some cs -> cs !! i = Some c ->
  mn < length (Node.keys c) -> widened mn mx lb d n i n i.
Proof.
  intros Hs Hch Hc Hspare. destruct (shape_children _ _ _ _ Hs Hch) as [Hclen Hf].
  exists cs, cs, c, c, [], []. split_and!; try done.
  - by eapply shape_weaken; [|done]; lia.
  - eapply Forall_lookup_1 in Hf; [|done]. by eapply shape_strengthen.
  - by rewrite app_nil_r.
  - by rewrite app_nil_r.
Qed.

Lemma has_spare_true n x : mn = Node.min_keys n ->
  mn < length (Node.keys x) -> Node.has_spare n (Some x) = true.
Proof. intros Hm ?. unfold Node.has_spare. rewrite <- Hm. by apply bool_decide_eq_true. Qed.

Lemma has_spare_false n x : mn = Node.min_keys n ->
  ~ mn < length (Node.keys x) -> Node.has_spare n (Some x) = false.
Proof. intros Hm ?. unfold Node.has_spare. rewrite <- Hm. by apply bool_decide_eq_false. Qed.

Lemma ensure_child_remove_spec lb d n i :
  shape mn mx (S lb) (S d) n -> i <= length (Node.keys n) ->
  exists n' i', Node.ensure_child_remove n i = Ok (n', i') /\ widened mn mx lb d n i n' i'.
Proof.
  intros Hs Hi. pose proof (shape_min_keys _ _ _ Hs) as Hmin.
  pose proof (shape_length _ _ _ Hs) as Hlen.
  pose proof Hs as (_ & _ & cs & Hch & Hclen & Hf)%shape_S.
  destruct (lookup_lt_is_Some_2 cs i) as [c Hc]; [lia|].
  pose proof (Forall_lookup_1 _ _ _ _ Hf Hc) as Hsc.
  pose proof (shape_length _ _ _ Hsc) as Hclb.
  destruct (decide (mn < length (Node.keys c))) as [Hspare|Hspare].
  { exists n, i. split; [|by eapply widened_refl].
    unfold Node.ensure_child_remove, py_get. rewrite Hch, Hc, Hmin. run.
    by rewrite decide_True. }
  assert (length (Node.keys c) = mn) as Hck by lia.
  rewrite (ensure_child_remove_eq n cs i c); try done; try lia.
  2:{ eapply Forall_impl; [done|]. intros x Hx. cbn.
      by rewrite (shape_is_leaf _ _ _ Hx), (shape_is_leaf _ _ _ Hsc). }
  unfold Node.rebalance, left_sibling, right_sibling.
  destruct (decide (1 <= i)) as [Hi1|Hi1].
  - destruct (lookup_lt_is_Some_2 cs (i - 1)) as [l Hl]; [lia|]. rewrite Hl.
    pose proof (Forall_lookup_1 _ _ _ _ Hf Hl) as Hsl.
    pose proof (shape_length _ _ _ Hsl) as Hllb.
    destruct (decide (mn < length (Node.keys l))) as [Hls|Hls].
    { rewrite has_spare_true by done.
      destruct (steal_left_case _ _ _ _ _ _ _ Hs Hch Hi1 Hc Hl Hls Hck)
        as (sep & lk & _ & _ & -> & Hw). eauto. }
    rewrite has_spare_false by done.
    assert (exists n', Node.merge_children n (i - 1) = Ok n' /\ widened mn mx lb d n i n' (i - 1))
      as (n' & Hmerge & Hw).
    { replace i with (i - 1 + 1) in Hc by lia.
      destruct (merge_case _ _ _ _ _ _ _ Hs Hch Hl Hc) as (sep & _ & Hm & _ & Hw);
        [lia|lia|].
      cbv zeta in Hm, Hw.
      replace (i - 1 + 1) with i in * by lia. eauto. }
    destruct (cs !! (i + 1)) as [r|] eqn:Hr.
    + pose proof (Forall_lookup_1 _ _ _ _ Hf Hr) as Hsr.
      destruct (decide (mn < length (Node.keys r))) as [Hrs|Hrs].
      { rewrite has_spare_true by done.
        destruct (steal_right_case _ _ _ _ _ _ _ Hs Hch Hc Hr Hrs Hck)
          as (sep & rk & _ & _ & -> & Hw'). eauto. }
      rewrite has_spare_false by done. rewrite Hmerge. run. eauto.
    + cbn [Node.has_spare]. rewrite Hmerge. run. eauto.
  - destruct (lookup_lt_is_Some_2 cs (i + 1)) as [r Hr]; [lia|]. rewrite Hr.
    pose proof (Forall_lookup_1 _ _ _ _ Hf Hr) as Hsr.
    pose proof (shape_length _ _ _ Hsr) as Hrlb.
    destruct (decide (mn < length (Node.keys r))) as [Hrs|Hrs].
    { rewrite has_spare_true by done.
      destruct (steal_right_case _ _ _ _ _ _ _ Hs Hch Hc Hr Hrs Hck)
        as (sep & rk & _ & _ & -> & Hw'). eauto. }
    rewrite has_spare_false by done.
    destruct (merge_case _ _ _ _ _ _ _ Hs Hch Hc Hr) as (sep & _ & -> & Hw & _); [lia|lia|].
    cbv zeta in Hw.
    run. eauto.
Qed.

Lemma ensure_child_remove_keys lb d n i n' i' :
  shape mn mx (S lb) (S d) n -> Node.ensure_child_remove n i = Ok (n', i') ->
  length (Node.keys n) <= S (length (Node.keys n')).
Proof.
  intros Hs He. pose proof (shape_length _ _ _ Hs) as Hl.
  destruct (decide (i <= length (Node.keys n))) as [Hi|Hi].
  - destruct (ensure_child_remove_spec (length (Node.keys n) - 1) d n i)
      as (n2 & i2 & He2 & Hw); [|done|].
    { eapply shape_strengthen; [|done]. lia. }
    rewrite He in He2. injection He2 as <- <-.
    destruct Hw as (? & ? & ? & ? & ? & ? & _ & _ & _ & _ & Hs' & _).
    apply shape_length in Hs'. lia.
  - apply shape_S in Hs as (_ & _ & cs & Hch & Hclen & _).
    unfold Node.ensure_child_remove, py_get in He. rewrite Hch in He.
    rewrite lookup_ge_None_2 in He by lia. done.
Qed.

Lemma widened_elements lb d n i n' i' :
  shape mn mx (S lb) (S d) n -> widened mn mx lb d n i n' i' -> elements n' = elements n.
Proof.
  intros Hs (cs & cs' & c & c' & X & Y & Hch & Hc & Hch' & Hc' & Hs' & _ & Hb & Ha & He).
  destruct (shape_children _ _ _ _ Hs Hch) as [Hclen _].
  destruct (shape_children _ _ _ _ Hs' Hch') as [Hclen' _].
  destruct n as [m ks ch], n' as [m' ks' ch']. cbn in *. subst ch ch'. cbn.
  rewrite (inter_at _ _ _ _ Hclen Hc), (inter_at _ _ _ _ Hclen' Hc').
  rewrite Hb, Ha, He. by rewrite <- !app_assoc.
Qed.

(** *** Replacing a child *)

Lemma elements_child lb d n cs i c :
  shape mn mx lb (S d) n -> Node.children n = Some cs -> cs !! i = Some c ->
  elements n = before (Node.keys n) cs i ++ elements c ++ after (Node.keys n) cs i.
Proof.
  intros Hs Hch Hc. destruct (shape_children _ _ _ _ Hs Hch) as [Hclen _].
  destruct n as [m ks ch]. cbn in *. subst ch. cbn. by apply inter_at.
Qed.

Lemma elements_set_child lb d n cs i c c' :
  shape mn mx lb (S d) n -> Node.children n = Some cs -> cs !! i = Some c ->
  elements (Node.set_children n (<[i:=c']> cs)) =
  before (Node.keys n) cs i ++ elements c' ++ after (Node.keys n) cs i.
Proof.
  intros Hs Hch Hc. destruct (shape_children _ _ _ _ Hs Hch) as [Hclen _].
  destruct n as [m ks ch]. cbn in *. subst ch. by eapply inter_insert.
Qed.

Lemma shape_set_child lb d n cs i c' :
  shape mn mx lb (S d) n -> Node.children n = Some cs -> shape mn mx mn d c' ->
  shape mn mx lb (S d) (Node.set_children n (<[i:=c']> cs)).
Proof.
  intros Hs Hch Hc'. destruct (shape_children _ _ _ _ Hs Hch) as [Hclen Hf].
  apply shape_S in Hs as (Hm & Hl & _). apply shape_S. cbn. split_and!; try done; try lia.
  eexists. split; [done|]. rewrite length_insert. split; [done|].
  by apply Forall_insert.
Qed.

(** *** remove_min and remove_max *)

Lemma remove_max_loop_spec fuel d n :
  shape mn mx (S mn) d n -> d < fuel ->
  exists k n', Node.remove_max_loop fuel mn n = Ok (k, n') /\
    shape mn mx mn d n' /\ elements n = elements n' ++ [k].
Proof.
  revert d n. induction fuel as [|fuel IH]; intros d n Hs Hfuel; [lia|].
  pose proof (shape_length _ _ _ Hs) as Hlen. cbn [Node.remove_max_loop].
  destruct d as [|d].
  - pose proof Hs as (Hm & _ & Hch)%shape_0. rewrite Hch. run.
    unfold Node.remove_key, py_get. run. rewrite last_lookup'.
    destruct (last (Node.keys n)) as [k|] eqn:Hk;
      [|apply last_None in Hk; rewrite Hk in Hlen; cbn in Hlen; lia].
    run. exists k. eexists. split; [done|]. rewrite delete_last.
    apply last_Some in Hk as [ks Hks]. destruct n as [m ks' ch]. cbn in *. subst. 
    rewrite take_snoc. rewrite length_app in Hlen. cbn in Hlen.
    split; [|done]. apply shape_0. cbn. split_and!; try done; lia.
  - pose proof Hs as (Hm & _ & cs & Hch & Hclen & Hf)%shape_S. rewrite Hch. run.
    destruct (ensure_child_remove_spec mn d n (length cs - 1)) as (n' & i' & -> & Hw);
      [done|lia|].
    pose proof (widened_elements _ _ _ _ _ _ Hs Hw) as Hel.
    destruct Hw as (cs0 & cs' & c & c' & X & Y & Hch0 & Hc & Hch' & Hc' & Hs' & Hsc' & Hb & Ha & He).
    run. rewrite Hch'. unfold py_get. rewrite Hc'. run.
    destruct (IH d c' Hsc') as (k & c'' & -> & Hsc'' & Hec); [lia|].
    run. exists k. eexists. split; [done|]. split.
    + by eapply shape_set_child.
    + rewrite <- Hel. erewrite elements_child, elements_set_child by done.
      rewrite Hec. rewrite Hch in Hch0. simplify_eq.
      assert (after (Node.keys n') cs' i' = []) as ->.
      { unfold after in Ha. rewrite drop_ge in Ha by lia. cbn in Ha.
        symmetry in Ha. by apply app_eq_nil in Ha as [_ ?]. }
      by rewrite !app_nil_r, <- !app_assoc.
Qed.

Lemma remove_min_loop_spec fuel d n :
  shape mn mx (S mn) d n -> d < fuel ->
  exists k n', Node.remove_min_loop fuel mn n = Ok (k, n') /\
    shape mn mx mn d n' /\ elements n = k :: elements n'.
Proof.
  revert d n. induction fuel as [|fuel IH]; intros d n Hs Hfuel; [lia|].
  pose proof (shape_length _ _ _ Hs) as Hlen. cbn [Node.remove_min_loop].
  destruct d as [|d].
  - pose proof Hs as (Hm & _ & Hch)%shape_0. rewrite Hch. run.
    unfold Node.remove_key, py_get. run.
    destruct n as [m ks ch]. cbn in *. subst. destruct ks as [|k ks]; [cbn in Hlen; lia|].
    cbn. exists k. eexists. split; [done|]. cbn in Hlen.
    split; [|done]. apply shape_0. cbn. split_and!; try done; lia.
  - pose proof Hs as (Hm & _ & cs & Hch & Hclen & Hf)%shape_S. rewrite Hch. run.
    destruct (ensure_child_remove_spec mn d n 0) as (n' & i' & -> & Hw);
      [done|lia|].
    pose proof (widened_elements _ _ _ _ _ _ Hs Hw) as Hel.
    destruct Hw as (cs0 & cs' & c & c' & X & Y & Hch0 & Hc & Hch' & Hc' & Hs' & Hsc' & Hb & Ha & He).
    run. rewrite Hch'. unfold py_get. rewrite Hc'. run.
    destruct (IH d c' Hsc') as (k & c'' & -> & Hsc'' & Hec); [lia|].
    run. exists k. eexists. split; [done|]. split.
    + by eapply shape_set_child.
    + rewrite <- Hel. erewrite elements_child, elements_set_child by done.
      rewrite Hec.
      assert (before (Node.keys n') cs' i' = []) as ->.
      { unfold before in Hb at 1. cbn in Hb. symmetry in Hb. by apply app_eq_nil in Hb as [? _]. }
      done.
Qed.

Lemma remove_max_spec d n :
  shape mn mx (S mn) d n ->
  exists k n', Node.remove_max n = Ok (k, n') /\
    shape mn mx mn d n' /\ elements n = elements n' ++ [k].
Proof.
  intros Hs. unfold Node.remove_max.
  rewrite (shape_min_keys _ _ _ Hs), (shape_levels _ _ _ Hs).
  apply remove_max_loop_spec; [done|lia].
Qed.

Lemma remove_min_spec d n :
  shape mn mx (S mn) d n ->
  exists k n', Node.remove_min n = Ok (k, n') /\
    shape mn mx mn d n' /\ elements n = k :: elements n'.
Proof.
  intros Hs. unfold Node.remove_min.
  rewrite (shape_min_keys _ _ _ Hs), (shape_levels _ _ _ Hs).
  apply remove_min_loop_spec; [done|lia].
Qed.

(** *** Descending towards a key *)

Lemma pre_bound obj ks es R :
  length ks = length es -> sorted (pre ks es ++ R) ->
  Forall (fun x => (x < obj)%Z) ks -> Forall (fun x => (x < obj)%Z) (pre ks es).
Proof.
  revert es; induction ks as [|k ks IH]; intros [|e es] Hl Hs Hks; simplify_eq/=;
    try by constructor.
  apply Forall_cons in Hks as [Hk Hks].
  rewrite <- app_assoc in Hs. cbn in Hs.
  pose proof (sorted_middle _ _ _ Hs) as [He _].
  apply sorted_app in Hs as (_ & _ & Hs). apply sorted_cons in Hs as [_ Hs].
  apply Forall_app. split.
  - eapply Forall_impl; [done|]. cbn. lia.
  - constructor; [done|]. by eapply IH.
Qed.

Lemma post_bound obj ks es :
  sorted (post ks es) -> match ks with [] => True | k :: _ => (obj < k)%Z end ->
  Forall (fun x => (obj < x)%Z) (post ks es).
Proof.
  intros Hs Hk. apply sorted_head_gt; [done|].
  destruct ks as [|k ks], es as [|e es]; done.
Qed.

Lemma sorted_app_l l1 l2 : sorted (l1 ++ l2) -> sorted l1.
Proof. rewrite sorted_app. tauto. Qed.

Lemma sorted_app_r l1 l2 : sorted (l1 ++ l2) -> sorted l2.
Proof. rewrite sorted_app. tauto. Qed.

Lemma descend_bounds lb d n cs obj i :
  shape mn mx lb (S d) n -> Node.children n = Some cs -> sorted (elements n) ->
  Node.search n obj = (false, i) ->
  exists c, cs !! i = Some c /\ shape mn mx mn d c /\ sorted (elements c) /\
    Forall (fun x => (x < obj)%Z) (before (Node.keys n) cs i) /\
    Forall (fun x => (obj < x)%Z) (after (Node.keys n) cs i).
Proof.
  intros Hs Hch Hsort Hsearch. destruct (shape_children _ _ _ _ Hs Hch) as [Hclen Hf].
  apply search_from_not_found in Hsearch as (Hi & Hlt & Hgt). rewrite Nat.sub_0_r in *.
  destruct (lookup_lt_is_Some_2 cs i) as [c Hc]; [lia|].
  exists c. split; [done|]. split; [by eapply Forall_lookup_1|].
  rewrite (elements_child _ _ _ _ _ _ Hs Hch Hc) in Hsort.
  split; [by apply sorted_app_r, sorted_app_l in Hsort|]. split.
  - eapply pre_bound; [|done..]. rewrite length_fmap, !length_take. lia.
  - apply sorted_app_r, sorted_app_r in Hsort. by apply post_bound.
Qed.

Lemma mem_context obj A e B :
  Forall (fun x => (x < obj)%Z) A -> Forall (fun x => (obj < x)%Z) B ->
  mem obj (A ++ e ++ B) = mem obj e.
Proof.
  intros HA HB. unfold mem. apply bool_decide_ext. rewrite !elem_of_app.
  split; [|tauto]. intros [Hin|[?|Hin]]; [|done|].
  - eapply Forall_forall in HA; [|done]. cbn in HA. lia.
  - eapply Forall_forall in HB; [|done]. cbn in HB. lia.
Qed.

Lemma elem_of_post k ks es : k ∈ ks -> length ks <= length es -> k ∈ post ks es.
Proof.
  revert es; induction ks as [|k' ks IH]; intros [|e es] Hk Hl; simplify_eq/=;
    try by (apply elem_of_nil in Hk). { lia. }
  apply elem_of_cons in Hk as [->|Hk]; [by left|]. right.
  apply elem_of_app. right. apply IH; [done|lia].
Qed.

Lemma keys_elements lb d n k : shape mn mx lb d n -> k ∈ Node.keys n -> k ∈ elements n.
Proof.
  destruct n as [m ks ch], d as [|d]; rewrite ?shape_0, ?shape_S; cbn.
  - by intros (_ & _ & ->).
  - intros (_ & _ & cs & -> & Hl & _) Hk. cbn. destruct cs as [|c cs]; [done|]. cbn.
    apply elem_of_app. right. apply elem_of_post; [done|]. rewrite length_fmap. cbn in Hl. lia.
Qed.

Lemma contains_loop_spec obj fuel lb d n :
  shape mn mx lb d n -> sorted (elements n) -> d < fuel ->
  contains_loop fuel n obj = Ok (mem obj (elements n)).
Proof.
  revert lb d n. induction fuel as [|fuel IH]; intros lb d n Hs Hsort Hfuel; [lia|].
  cbn [contains_loop]. destruct (Node.search n obj) as [found i] eqn:Hsearch.
  destruct found.
  - apply search_found in Hsearch. apply list_elem_of_lookup_2 in Hsearch.
    eapply keys_elements in Hsearch; [|done]. apply mem_true in Hsearch. by rewrite Hsearch.
  - destruct d as [|d].
    + pose proof Hs as (_ & _ & Hch)%shape_0. rewrite Hch.
      destruct n as [m ks ch]. cbn in *. subst ch. cbn in *.
      apply search_not_found_absent in Hsearch; [|done]. apply mem_false in Hsearch.
      by rewrite Hsearch.
    + pose proof Hs as (_ & _ & cs & Hch & _)%shape_S. rewrite Hch.
      destruct (descend_bounds _ _ _ _ _ _ Hs Hch Hsort Hsearch)
        as (c & Hc & Hsc & Hsortc & Hb & Ha).
      unfold py_get. rewrite Hc. run. rewrite (IH mn d c) by (done || lia).
      rewrite (elements_child _ _ _ _ _ _ Hs Hch Hc). by rewrite mem_context.
Qed.

(** *** add *)

Lemma split_child_spec lb d n cs i c :
  shape mn mx lb (S d) n -> length (Node.keys n) < mx ->
  Node.children n = Some cs -> cs !! i = Some c -> length (Node.keys c) = mx ->
  exists mid r l,
    Node.split c = Ok (mid, r, l) /\ elements c = elements l ++ mid :: elements r /\
    shape mn mx mn d l /\ shape mn mx mn d r /\
    length (Node.keys l) < mx /\ length (Node.keys r) < mx /\
    let ks1 := py_insert i mid (Node.keys n) in
    let cs1 := py_insert (i + 1) r (<[i:=l]> cs) in
    shape mn mx lb (S d) (Node.mk (Node.maxkeys n) ks1 (Some cs1)) /\
    cs1 !! i = Some l /\ cs1 !! (i + 1) = Some r /\
    before ks1 cs1 i = before (Node.keys n) cs i /\
    after ks1 cs1 i = mid :: elements r ++ after (Node.keys n) cs i /\
    before ks1 cs1 (i + 1) = before (Node.keys n) cs i ++ elements l ++ [mid] /\
    after ks1 cs1 (i + 1) = after (Node.keys n) cs i.
Proof.
  intros Hs Hroom Hch Hc Hfull. destruct (shape_children _ _ _ _ Hs Hch) as [Hclen Hf].
  pose proof (Forall_lookup_1 _ _ _ _ Hf Hc) as Hsc.
  destruct (split_spec _ _ _ Hsc Hfull) as (mid & r & l & Hsplit & _ & Hll & Hlr & Hsl & Hsr & He).
  exists mid, r, l. split_and!; try done; try lia.
  apply lookup_lt_Some in Hc as Hi.
  destruct (lookup_split _ _ _ Hc) as (cs1 & cs2 & -> & Hl1).
  pose proof (take_drop i (Node.keys n)) as Hks.
  assert (length (take i (Node.keys n)) = length cs1) as Hl2 by (rewrite length_take; lia).
  apply shape_S in Hs as (Hm & Hlen & _).
  revert Hks Hl2 Hlen Hclen Hroom. generalize (take i (Node.keys n)) (drop i (Node.keys n)).
  intros ks1 ks2 <- Hl2 Hlen Hclen Hroom. rewrite !length_app in *. cbn [length] in *.
  replace (i + 1) with (S i) by lia. unfold py_insert. autorewrite with mid.
  rewrite <- !app_assoc. cbn [app].
  apply Forall_app in Hf as (Hf1 & Hf2). apply Forall_cons in Hf2 as (_ & Hf2).
  split_and!.
  - apply shape_S. cbn. rewrite !length_app. cbn. split_and!; try done; try lia.
    eexists. split; [done|]. rewrite !length_app. cbn. split; [lia|].
    apply Forall_app. split; [done|]. by repeat constructor.
  - by autorewrite with mid.
  - by autorewrite with mid.
  - by rewrite !before_mid0.
  - rewrite !after_mid0 by done. by rewrite fmap_cons.
  - by rewrite before_mid1, before_mid0 by lia.
  - by rewrite after_mid1, after_mid0 by lia.
Qed.

Lemma Forall_lt_le a b l :
  Forall (fun x => (x < a)%Z) l -> (a <= b)%Z -> Forall (fun x => (x < b)%Z) l.
Proof. intros H ?. eapply Forall_impl; [done|]. cbn. lia. Qed.

Lemma Forall_gt_le a b l :
  Forall (fun x => (a < x)%Z) l -> (b <= a)%Z -> Forall (fun x => (b < x)%Z) l.
Proof. intros H ?. eapply Forall_impl; [done|]. cbn. lia. Qed.

Lemma add_loop_spec obj fuel lb d isroot n :
  shape mn mx lb d n -> length (Node.keys n) < mx ->
  isroot = true \/ mn <= length (Node.keys n) ->
  sorted (elements n) -> d < fuel ->
  exists n', add_loop fuel mn mx isroot n obj = Ok (n', negb (mem obj (elements n))) /\
    shape mn mx lb d n' /\ elements n' = ins obj (elements n).
Proof.
  revert lb d isroot n.
  induction fuel as [|fuel IH]; intros lb d isroot n Hs Hroom Hroot Hsort Hfuel; [lia|].
  cbn [add_loop]. run. destruct (Node.search n obj) as [found i] eqn:Hsearch.
  destruct found.
  { apply search_found in Hsearch. apply list_elem_of_lookup_2 in Hsearch.
    eapply keys_elements in Hsearch; [|done].
    exists n. rewrite ins_present by done. apply mem_true in Hsearch. by rewrite Hsearch. }
  destruct d as [|d].
  { pose proof Hs as (Hm & Hlen & Hch)%shape_0. rewrite Hch.
    destruct n as [m ks ch]. cbn in *. subst ch. cbn in *.
    eexists. split_and!.
    - apply search_not_found_absent in Hsearch as Hab; [|done]. apply mem_false in Hab.
      by rewrite Hab.
    - apply shape_0. unfold py_insert. cbn. rewrite length_app. cbn.
      rewrite length_take, length_drop. split_and!; try done; lia.
    - cbn. by apply leaf_insert. }
  pose proof Hs as (Hm & Hlen & cs & Hch & Hclen & Hf)%shape_S. rewrite Hch.
  destruct (descend_bounds _ _ _ _ _ _ Hs Hch Hsort Hsearch)
    as (c & Hc & Hsc & Hsortc & Hb & Ha).
  pose proof (elements_child _ _ _ _ _ _ Hs Hch Hc) as Hel.
  pose proof (shape_length _ _ _ Hsc) as Hclb.
  unfold py_get. rewrite Hc. run.
  destruct (decide (length (Node.keys c) = mx)) as [Hfull|Hfull].
  - destruct (split_child_spec _ _ _ _ _ _ Hs Hroom Hch Hc Hfull)
      as (mid & r & l & -> & Hec & Hsl & Hsr & Hll & Hlr & Hs1 & Hl1 & Hr1 & Hb0 & Ha0 & Hb1 & Ha1).
    run. rewrite Hec in Hsortc. pose proof (sorted_middle _ _ _ Hsortc) as [Hlt Hgt].
    pose proof (sorted_app_l _ _ Hsortc) as Hsortl.
    apply sorted_app_r, sorted_cons in Hsortc as [_ Hsortr].
    set (ks1 := py_insert i mid (Node.keys n)) in *.
    set (cs1 := py_insert (i + 1) r (<[i:=l]> cs)) in *.
    set (n1 := Node.mk (Node.maxkeys n) ks1 (Some cs1)) in *.
    assert (elements n1 = elements n) as Hel1.
    { rewrite (elements_child _ _ n1 cs1 i l Hs1 eq_refl Hl1). cbn [Node.keys n1].
      rewrite Hb0, Ha0, Hel, Hec. by rewrite <- !app_assoc. }
    destruct (decide (obj = mid)) as [->|Hne].
    { exists n1. split_and!; [|done|].
      - assert (mem mid (elements n) = true) as ->; [|done].
        apply mem_true. rewrite Hel, Hec. rewrite !elem_of_app, elem_of_cons. tauto.
      - rewrite Hel1. symmetry. apply ins_present; [done|].
        rewrite Hel, Hec. rewrite !elem_of_app, elem_of_cons. tauto. }
    destruct (decide (mid < obj)%Z) as [Hlt'|Hge].
    + destruct (IH mn d false r) as (r' & -> & Hsr' & Her'); [done|lia|right|done|lia|].
      { apply shape_length in Hsr. lia. }
      run. exists (Node.set_children n1 (<[i + 1:=r']> cs1)).
      assert (Forall (fun x => (x < obj)%Z) (before (Node.keys n) cs i ++ elements l ++ [mid])).
      { rewrite !Forall_app, Forall_singleton. split_and!; [done| |done].
        eapply Forall_lt_le; [done|lia]. }
      split_and!.
      * rewrite Hel, Hec. replace (before (Node.keys n) cs i ++ (elements l ++ mid :: elements r)
          ++ after (Node.keys n) cs i) with ((before (Node.keys n) cs i ++ elements l ++ [mid])
          ++ elements r ++ after (Node.keys n) cs i) by (by rewrite <- !app_assoc).
        by rewrite mem_context.
      * by eapply shape_set_child.
      * rewrite (elements_set_child _ _ n1 cs1 (i + 1) r r' Hs1 eq_refl Hr1).
        cbn [Node.keys n1]. rewrite Hb1, Ha1, Her', Hel, Hec.
        rewrite <- ins_context by done. by rewrite <- !app_assoc.
    + destruct (IH mn d false l) as (l' & -> & Hsl' & Hel'); [done|lia|right|done|lia|].
      { apply shape_length in Hsl. lia. }
      run. exists (Node.set_children n1 (<[i:=l']> cs1)).
      assert (Forall (fun x => (obj < x)%Z) (mid :: elements r ++ after (Node.keys n) cs i)).
      { rewrite Forall_cons, Forall_app. split_and!; [lia| |done].
        eapply Forall_gt_le; [done|lia]. }
      split_and!.
      * rewrite Hel, Hec. rewrite <- !app_assoc. cbn [app]. by rewrite mem_context.
      * by eapply shape_set_child.
      * rewrite (elements_set_child _ _ n1 cs1 i l l' Hs1 eq_refl Hl1).
        cbn [Node.keys n1]. rewrite Hb0, Ha0, Hel', Hel, Hec.
        rewrite <- ins_context by done. by rewrite <- !app_assoc.
  - destruct (IH mn d false c) as (c' & -> & Hsc' & Hec'); [done|lia|right; lia|done|lia|].
    run. eexists. split_and!.
    + by rewrite Hel, mem_context.
    + by eapply shape_set_child.
    + erewrite elements_set_child by done. by rewrite Hec', Hel, ins_context.
Qed.

(** *** remove *)

Lemma py_slice2_eq {A} (cs : list A) i l r :
  cs !! i = Some l -> cs !! (i + 1) = Some r -> py_slice2 cs i = Ok (l, r).
Proof.
  intros Hl Hr. replace (i + 1) with (S i) in Hr by lia.
  destruct (lookup_split2 _ _ _ _ Hl Hr) as (cs1 & cs2 & -> & Hi).
  unfold py_slice2. autorewrite with mid. cbn. by rewrite take_0.
Qed.

Lemma elements_mk2 m ks1 k ks2 cs1 l r cs2 :
  length ks1 = length cs1 ->
  elements (Node.mk m (ks1 ++ k :: ks2) (Some (cs1 ++ l :: r :: cs2))) =
  pre ks1 (elements <$> cs1) ++ elements l ++ k :: elements r ++ post ks2 (elements <$> cs2).
Proof.
  intros Hl. cbn. rewrite fmap_app, !fmap_cons. rewrite inter_app by (by rewrite length_fmap).
  done.
Qed.

Lemma replace_key_left lb d n ks1 obj ks2 cs1 l r cs2 l' k i :
  shape mn mx lb (S d) n ->
  Node.keys n = ks1 ++ obj :: ks2 -> Node.children n = Some (cs1 ++ l :: r :: cs2) ->
  length ks1 = length cs1 -> i = length cs1 -> sorted (elements n) ->
  shape mn mx mn d l' -> elements l = elements l' ++ [k] ->
  shape mn mx lb (S d)
    (Node.mk (Node.maxkeys n) (<[i:=k]> (Node.keys n)) (Some (<[i:=l']> (cs1 ++ l :: r :: cs2))))
  /\ elements
       (Node.mk (Node.maxkeys n) (<[i:=k]> (Node.keys n)) (Some (<[i:=l']> (cs1 ++ l :: r :: cs2))))
     = del obj (elements n).
Proof.
  intros Hs Hks Hcs Hl -> Hsort Hsl' Hel.
  pose proof (shape_maxkeys _ _ _ Hs) as Hm. pose proof (shape_length _ _ _ Hs) as Hlen.
  destruct (shape_children _ _ _ _ Hs Hcs) as [Hclen Hf].
  destruct n as [m ks ch]. cbn in Hks, Hcs, Hm, Hlen, Hclen. subst m ks ch. clear Hs.
  rewrite elements_mk2 in Hsort |- * by done.
  cbn [Node.keys Node.maxkeys]. rewrite !length_app in *. cbn [length] in *.
  apply Forall_app in Hf as (Hf1 & Hf2). apply Forall_cons in Hf2 as (_ & Hf2).
  autorewrite with mid. split.
  - apply shape_S. cbn. rewrite !length_app. cbn. split_and!; try done; try lia.
    eexists. split; [done|]. rewrite !length_app. cbn. split; [lia|].
    apply Forall_app. split; [done|]. by constructor.
  - rewrite elements_mk2 by done. rewrite Hel in Hsort |- *.
    set (A := pre ks1 (elements <$> cs1) ++ elements l' ++ [k]).
    set (B := elements r ++ post ks2 (elements <$> cs2)) in *.
    assert (pre ks1 (elements <$> cs1) ++ (elements l' ++ [k]) ++ obj :: B = A ++ obj :: B) as E
      by (subst A; by rewrite <- !app_assoc).
    rewrite E in Hsort |- *. rewrite del_present by done.
    subst A B. by rewrite <- !app_assoc.
Qed.

Lemma replace_key_right lb d n ks1 obj ks2 cs1 l r cs2 r' k i :
  shape mn mx lb (S d) n ->
  Node.keys n = ks1 ++ obj :: ks2 -> Node.children n = Some (cs1 ++ l :: r :: cs2) ->
  length ks1 = length cs1 -> i = length cs1 -> sorted (elements n) ->
  shape mn mx mn d r' -> elements r = k :: elements r' ->
  shape mn mx lb (S d)
    (Node.mk (Node.maxkeys n) (<[i:=k]> (Node.keys n))
       (Some (<[i + 1:=r']> (cs1 ++ l :: r :: cs2))))
  /\ elements
       (Node.mk (Node.maxkeys n) (<[i:=k]> (Node.keys n))
          (Some (<[i + 1:=r']> (cs1 ++ l :: r :: cs2))))
     = del obj (elements n).
Proof.
  intros Hs Hks Hcs Hl -> Hsort Hsr' Her.
  pose proof (shape_maxkeys _ _ _ Hs) as Hm. pose proof (shape_length _ _ _ Hs) as Hlen.
  destruct (shape_children _ _ _ _ Hs Hcs) as [Hclen Hf].
  destruct n as [m ks ch]. cbn in Hks, Hcs, Hm, Hlen, Hclen. subst m ks ch. clear Hs.
  rewrite elements_mk2 in Hsort |- * by done.
  cbn [Node.keys Node.maxkeys]. rewrite !length_app in *. cbn [length] in *.
  apply Forall_app in Hf as (Hf1 & Hf2). apply Forall_cons in Hf2 as (Hsl & Hf2).
  apply Forall_cons in Hf2 as (_ & Hf2).
  replace (length cs1 + 1) with (S (length cs1)) by lia.
  autorewrite with mid. split.
  - apply shape_S. cbn. rewrite !length_app. cbn. split_and!; try done; try lia.
    eexists. split; [done|]. rewrite !length_app. cbn. split; [lia|].
    apply Forall_app. split; [done|]. by repeat constructor.
  - rewrite elements_mk2 by done.
    set (A := pre ks1 (elements <$> cs1) ++ elements l).
    set (B := elements r ++ post ks2 (elements <$> cs2)) in *.
    assert (pre ks1 (elements <$> cs1) ++ elements l ++ obj :: B = A ++ obj :: B) as E
      by (subst A; by rewrite <- !app_assoc).
    rewrite E in Hsort |- *. rewrite del_present by done.
    subst A B. rewrite Her. by rewrite <- !app_assoc.
Qed.

Lemma sorted_around obj A e B :
  sorted (A ++ e ++ B) -> obj ∈ e ->
  Forall (fun x => (x < obj)%Z) A /\ Forall (fun x => (obj < x)%Z) B.
Proof.
  intros Hs (e1 & e2 & ->)%list_elem_of_split.
  replace (A ++ (e1 ++ obj :: e2) ++ B) with ((A ++ e1) ++ obj :: (e2 ++ B)) in Hs
    by (by rewrite <- !app_assoc).
  apply sorted_middle in Hs as [H1 H2].
  apply Forall_app in H1 as [? _]. apply Forall_app in H2 as [_ ?]. done.
Qed.

Lemma before_nil cs i : before [] cs i = [].
Proof. unfold before. by rewrite take_nil. Qed.

Lemma after_nil cs i : after [] cs i = [].
Proof. unfold after. by rewrite drop_nil. Qed.

Lemma merged_key l k r : length (Node.keys l) = mn -> Node.keys (merged l k r) !! mn = Some k.
Proof. intros Hl. cbn. by apply lookup_mid0. Qed.

Lemma remove_loop_leaf obj fuel (isroot : bool) n (found : bool) index :
  (if isroot then root_ok mn mx 0 n else shape mn mx (S mn) 0 n) ->
  sorted (elements n) ->
  (if found then Node.keys n !! index = Some obj else Node.search n obj = (false, index)) ->
  exists n',
    remove_loop (S fuel) mn mx isroot n found index obj = Ok (n', mem obj (elements n)) /\
    elements n' = del obj (elements n) /\
    (if isroot then root_ok mn mx 0 n' else shape mn mx mn 0 n').
Proof.
  intros Hpre Hsort Hfound.
  assert (shape mn mx 0 0 n) as Hs.
  { destruct isroot; [by destruct Hpre|]. by eapply shape_weaken; [|done]; lia. }
  pose proof Hs as (Hm & Hlen & Hch)%shape_0.
  assert (isroot = true \/ mn < length (Node.keys n)) as Hroot.
  { destruct isroot; [by left|]. right. apply shape_length in Hpre. lia. }
  cbn [remove_loop]. run. rewrite Hch.
  destruct n as [m ks ch]. cbn in Hch, Hm. subst ch m. cbn in Hsort.
  cbn [elements Node.children Node.keys] in *.
  destruct found.
  - apply lookup_lt_Some in Hfound as Hi. unfold Node.remove_key, py_get. run.
    rewrite Hfound. run. eexists. split_and!.
    + apply list_elem_of_lookup_2 in Hfound. apply mem_true in Hfound. by rewrite Hfound.
    + by apply leaf_delete.
    + cbn. destruct isroot.
      * split; [|done]. apply shape_0. cbn. rewrite length_delete by eauto.
        split_and!; try done; lia.
      * apply shape_0. cbn. rewrite length_delete by eauto.
        destruct Hroot as [?|?]; [done|]. split_and!; try done; lia.
  - unfold Node.search in Hfound. cbn [Node.keys] in Hfound.
    apply search_not_found_absent in Hfound; [|done]. exists (Node.mk mx ks None). split_and!.
    + apply mem_false in Hfound. by rewrite Hfound.
    + cbn. by rewrite del_absent.
    + destruct isroot; [done|]. eapply shape_weaken; [|exact Hpre]. lia.
Qed.

Lemma remove_loop_spec obj fuel d (isroot : bool) n (found : bool) index :
  (if isroot then root_ok mn mx d n else shape mn mx (S mn) d n) ->
  sorted (elements n) -> d < fuel ->
  (if found then Node.keys n !! index = Some obj else Node.search n obj = (false, index)) ->
  exists n',
    remove_loop fuel mn mx isroot n found index obj = Ok (n', mem obj (elements n)) /\
    elements n' = del obj (elements n) /\
    (if isroot then
       exists d', d' <= d <= S d' /\ (d' < d -> length (Node.keys n) = 1) /\ root_ok mn mx d' n'
     else shape mn mx mn d n').
Proof.
  revert d isroot n found index.
  induction fuel as [|fuel IH]; intros d isroot n found index Hpre Hsort Hfuel Hfound; [lia|].
  destruct d as [|d].
  { destruct (remove_loop_leaf obj fuel isroot n found index Hpre Hsort Hfound)
      as (n' & ? & ? & ?).
    exists n'. split_and!; [done..|]. destruct isroot; [|done].
    exists 0. split_and!; [lia|lia|lia|done]. }
  set (lb := if isroot then 0 else mn).
  assert (shape mn mx (S lb) (S d) n) as Hs.
  { subst lb. destruct isroot; [|done]. destruct Hpre as [Hs Hk].
    eapply shape_strengthen; [|done]. apply Hk. done. }
  assert (forall n1, shape mn mx lb (S d) n1 -> 1 <= length (Node.keys n1) ->
            if isroot then
              exists d', d' <= S d <= S d' /\ (d' < S d -> length (Node.keys n) = 1) /\
                root_ok mn mx d' n1
            else shape mn mx mn (S d) n1) as Hpost.
  { intros n1 Hs1 Hk1. subst lb. destruct isroot; [|done]. exists (S d).
    split_and!; [lia|lia|lia|by split]. }
  assert (isroot = true \/ mn < length (Node.keys n)) as Hroot.
  { subst lb. destruct isroot; [by left|]. right. apply shape_length in Hs. lia. }
  pose proof Hs as (Hm & Hlen & cs & Hch & Hclen & Hf)%shape_S.
  cbn [remove_loop]. run. rewrite Hch.
  destruct found.
  - (* the key is stored at this node *)
    apply lookup_lt_Some in Hfound as Hi.
    destruct (lookup_lt_is_Some_2 cs index) as [l Hl]; [lia|].
    destruct (lookup_lt_is_Some_2 cs (index + 1)) as [r Hr]; [lia|].
    rewrite (py_slice2_eq _ _ _ _ Hl Hr). run.
    pose proof (Forall_lookup_1 _ _ _ _ Hf Hl) as Hsl.
    pose proof (Forall_lookup_1 _ _ _ _ Hf Hr) as Hsr.
    assert (mem obj (elements n) = true) as Hmem.
    { apply mem_true. eapply keys_elements; [done|]. by eapply list_elem_of_lookup_2. }
    rewrite Hmem.
    destruct (decide (mn < length (Node.keys l))) as [Hls|Hls];
      [|destruct (decide (mn < length (Node.keys r))) as [Hrs|Hrs]].
    + destruct (remove_max_spec d l) as (k & l' & -> & Hsl' & Hel);
        [by eapply shape_strengthen|].
      run. unfold py_set. rewrite decide_True by done. run.
      replace (index + 1) with (S index) in Hr by lia.
      destruct (lookup_split2 _ _ _ _ Hl Hr) as (cs1 & cs2 & -> & Hl1).
      destruct (lookup_split _ _ _ Hfound) as (ks1 & ks2 & Hks & Hl2).
      destruct (replace_key_left lb d n ks1 obj ks2 cs1 l r cs2 l' k index) as [Hs' He'];
        try done; try lia. { by eapply shape_weaken; [|done]; lia. }
      eexists. split; [done|]. split; [done|].
      apply Hpost; [done|]. cbn. rewrite length_insert. lia.
    + destruct (remove_min_spec d r) as (k & r' & -> & Hsr' & Her);
        [by eapply shape_strengthen|].
      run. unfold py_set. rewrite decide_True by done. run.
      replace (index + 1) with (S index) in Hr by lia.
      destruct (lookup_split2 _ _ _ _ Hl Hr) as (cs1 & cs2 & -> & Hl1).
      destruct (lookup_split _ _ _ Hfound) as (ks1 & ks2 & Hks & Hl2).
      destruct (replace_key_right lb d n ks1 obj ks2 cs1 l r cs2 r' k index) as [Hs' He'];
        try done; try lia. { by eapply shape_weaken; [|done]; lia. }
      eexists. split; [done|]. split; [done|].
      apply Hpost; [done|]. cbn. rewrite length_insert. lia.
    + pose proof (shape_length _ _ _ Hsl) as Hllen. pose proof (shape_length _ _ _ Hsr) as Hrlen.
      destruct (merge_case lb d n cs index l r Hs Hch Hl Hr) as (sep & Hsep & Hmerge & Hw & _);
        [lia|lia|].
      rewrite Hfound in Hsep. injection Hsep as <-. cbv zeta in Hmerge, Hw.
      rewrite Hmerge. run.
      pose proof (widened_elements _ _ _ _ _ _ Hs Hw) as Hel1.
      destruct Hw as (cs0 & cs'0 & c0 & c' & X & Y & _ & _ & Hch' & Hc' & Hs1 & Hsc' & _ & _ & _).
      cbn in Hch'. injection Hch' as <-.
      rewrite list_lookup_insert_eq in Hc' by (rewrite length_delete by eauto; lia).
      injection Hc' as <-. unfold py_get.
      rewrite list_lookup_insert_eq by (rewrite length_delete by eauto; lia). run.
      set (cs' := <[index:=merged l obj r]> (delete (index + 1) cs)) in *.
      set (n1 := Node.mk (Node.maxkeys n) (delete index (Node.keys n)) (Some cs')) in *.
      assert (cs' !! index = Some (merged l obj r)) as Hc'.
      { subst cs'. apply list_lookup_insert_eq. rewrite length_delete by eauto. lia. }
      pose proof (elements_child _ _ n1 cs' index _ Hs1 eq_refl Hc') as Hel2.
      pose proof (elements_merged d l obj r Hsl Hsr) as Hem.
      assert (obj ∈ elements (merged l obj r)) as Hin.
      { rewrite Hem, elem_of_app, elem_of_cons. tauto. }
      assert (mem obj (elements (merged l obj r)) = true) as Hmem' by by apply mem_true.
      rewrite <- Hel1, Hel2 in Hsort |- *.
      pose proof (sorted_around _ _ _ _ Hsort Hin) as [Hb Ha].
      assert (sorted (elements (merged l obj r))) as Hsortm
        by by apply sorted_app_r, sorted_app_l in Hsort.
      case_decide as Hnr; [destruct Hnr as [-> Hk0]|].
      * destruct (IH d true (merged l obj r) true mn)
          as (n' & -> & He' & d' & Hd' & Hone & Hr');
          [|done|lia|by apply merged_key; lia|].
        { split; [by eapply shape_weaken; [|done]; lia|]. intros _.
          apply shape_length in Hsc'. lia. }
        exists n'. rewrite Hmem'. split; [done|].
        assert (length (Node.keys n) = 1) as Hn1.
        { cbn [Node.keys n1] in Hk0. rewrite length_delete in Hk0 by eauto. lia. }
        assert (d' = d) as ->.
        { destruct (decide (d' < d)) as [Hlt|]; [|lia]. apply Hone in Hlt.
          apply shape_length in Hsc'. lia. }
        apply nil_length_inv in Hk0. cbn [Node.keys n1] in *. rewrite Hk0.
        rewrite before_nil, after_nil, app_nil_r. cbn [app].
        split; [done|]. exists d. split_and!; [lia|lia|done|done].
      * destruct (IH d false (merged l obj r) true mn) as (m' & -> & He' & Hsm');
          [done|done|lia|by apply merged_key; lia|].
        run. rewrite Hmem'. eexists. split; [done|]. split.
        -- erewrite elements_set_child by done. rewrite He'. by rewrite del_context.
        -- apply Hpost; [by eapply shape_set_child|]. cbn.
           destruct isroot; [|apply shape_length in Hs1; subst lb; cbn in Hs1; lia].
           destruct (length (delete index (Node.keys n))); [|lia].
           destruct Hnr. done.
  - (* the key might be in some child *)
    destruct (descend_bounds _ _ _ _ _ _ Hs Hch Hsort Hfound) as (c & Hc & Hsc & Hsortc & Hb & Ha).
    destruct (ensure_child_remove_spec lb d n index) as (n1 & i1 & Hens & Hw); [done| |].
    { apply lookup_lt_Some in Hc. lia. }
    pose proof (ensure_child_remove_keys _ _ _ _ _ _ Hs Hens) as Hkeys1.
    rewrite Hens.
    pose proof (widened_elements _ _ _ _ _ _ Hs Hw) as Hel1.
    destruct Hw as (cs0 & cs' & c0 & c' & X & Y & Hch0 & Hc0 & Hch' & Hc' & Hs1 & Hsc' & HX & HY & He).
    rewrite Hch in Hch0. injection Hch0 as <-. rewrite Hc in Hc0. injection Hc0 as <-.
    run. rewrite Hch'. unfold py_get. rewrite Hc'. run.
    rewrite HX in Hb. rewrite HY in Ha.
    apply Forall_app in Hb as [Hb _]. apply Forall_app in Ha as [_ Ha].
    pose proof (elements_child _ _ n1 cs' i1 _ Hs1 Hch' Hc') as Hel2.
    rewrite <- Hel1, Hel2 in Hsort |- *.
    assert (sorted (elements c')) as Hsortc' by by apply sorted_app_r, sorted_app_l in Hsort.
    rewrite mem_context, del_context by done.
    destruct (Node.search c' obj) as [found' index'] eqn:Hsearch.
    assert (if found' then Node.keys c' !! index' = Some obj
            else Node.search c' obj = (false, index')) as Hfound'.
    { destruct found'; [|done]. by apply search_found. }
    destruct (decide (isroot = true /\ length (Node.keys n1) = 0)) as [[-> Hk0]|Hnr].
    + destruct (shape_children _ _ _ _ Hs1 Hch') as [Hclen' _].
      assert (i1 = 0) as -> by (apply lookup_lt_Some in Hc'; lia).
      rewrite Hc'. run.
      destruct (IH d true c' found' index') as (n' & -> & He' & d' & Hd' & Hone & Hr');
        [|done|lia|done|].
      { split; [by eapply shape_weaken; [|done]; lia|]. intros _.
        apply shape_length in Hsc'. lia. }
      exists n'. split; [done|].
      assert (length (Node.keys n) = 1) as Hn1 by (apply shape_length in Hs; lia).
      assert (d' = d) as ->.
      { destruct (decide (d' < d)) as [Hlt|]; [|lia]. apply Hone in Hlt.
        apply shape_length in Hsc'. lia. }
      apply nil_length_inv in Hk0. rewrite Hk0.
      rewrite before_nil, after_nil, app_nil_r. cbn [app].
      split; [done|]. exists d. split_and!; [lia|lia|done|done].
    + destruct (IH d false c' found' index') as (m' & -> & He' & Hsm');
        [done|done|lia|done|].
      run. eexists. split; [done|]. split.
      * erewrite elements_set_child by done. by rewrite He'.
      * apply Hpost; [by eapply shape_set_child|]. cbn.
        destruct isroot; [|apply shape_length in Hs1; subst lb; lia].
        destruct (length (Node.keys n1)); [|lia]. destruct Hnr. done.
Qed.

(** *** Iteration *)

Lemma after_cons ks cs i k c :
  ks !! i = Some k -> cs !! S i = Some c ->
  after ks cs i = k :: elements c ++ after ks cs (S i).
Proof.
  intros Hk Hc. unfold after.
  rewrite (drop_S ks k i Hk), (drop_S cs c (S i) Hc). by rewrite fmap_cons.
Qed.

Lemma after_end ks cs i : length ks <= i -> after ks cs i = [].
Proof. intros Hi. unfold after. by rewrite drop_ge. Qed.

Lemma push_left_path_spec d lb n stack :
  shape mn mx lb d n -> d = 0 \/ 1 <= length (Node.keys n) ->
  Forall (frame_ok mn mx) stack ->
  exists stack', push_left_path n stack = Ok stack' /\
    Forall (frame_ok mn mx) stack' /\
    stack_elements stack' = elements n ++ stack_elements stack /\
    stack_rounds stack' = rounds n + stack_rounds stack.
Proof.
  revert lb n stack. induction d as [|d IH]; intros lb n stack Hs Hk Hst.
  - pose proof Hs as (_ & _ & Hch)%shape_0.
    destruct n as [m ks ch]. cbn in Hch. subst ch. cbn.
    eexists. split; [done|]. split; [|done].
    constructor; [|done]. exists lb, 0. by split.
  - pose proof Hs as (_ & _ & cs & Hch & Hclen & Hf)%shape_S.
    destruct n as [m ks ch]. cbn in Hch, Hclen. subst ch. cbn [push_left_path Node.children].
    destruct cs as [|c cs]; [done|]. apply Forall_cons in Hf as [Hsc Hf].
    destruct Hk as [?|Hk]; [done|]. cbn in Hk.
    edestruct (IH mn c) as (stack' & -> & Hok & He & Hr); [done| |..].
    { right. apply shape_length in Hsc. lia. }
    { constructor; [|done]. exists lb, (S d). split; [done|]. cbn. lia. }
    exists stack'. split; [done|]. split; [done|]. rewrite He, Hr. split.
    + unfold stack_elements. cbn. unfold frame_elements, after. cbn.
      by rewrite drop_0, <- app_assoc.
    + unfold stack_rounds. cbn. unfold frame_rounds. cbn. rewrite !drop_0. lia.
Qed.

Lemma iter_loop_spec fuel stack :
  Forall (frame_ok mn mx) stack -> stack_rounds stack < fuel ->
  iter_loop fuel stack = Ok (stack_elements stack).
Proof.
  revert stack. induction fuel as [|fuel IH]; intros stack Hst Hfuel; [lia|].
  cbn [iter_loop]. destruct stack as [|[n i] stack]; [done|].
  apply Forall_cons in Hst as [(lb & d & Hs & Hi) Hst]. cbn [fst snd] in *.
  change (stack_rounds ((n, i) :: stack)) with (frame_rounds (n, i) + stack_rounds stack) in Hfuel.
  change (stack_elements ((n, i) :: stack))
    with (frame_elements (n, i) ++ stack_elements stack).
  unfold frame_rounds in Hfuel. unfold frame_elements. cbn [fst snd] in *.
  destruct (Node.children n) as [cs|] eqn:Hch.
  - destruct d as [|d]; [by apply shape_0 in Hs as (_ & _ & ?); congruence|].
    destruct (shape_children _ _ _ _ Hs Hch) as [Hclen Hf].
    destruct (lookup_lt_is_Some_2 (Node.keys n) i) as [k Hk]; [done|].
    destruct (lookup_lt_is_Some_2 cs (i + 1)) as [c Hc]; [lia|].
    pose proof (Forall_lookup_1 _ _ _ _ Hf Hc) as Hsc.
    unfold py_get. rewrite Hk, Hc. run.
    replace (i + 1) with (S i) in * by lia.
    rewrite (after_cons _ _ _ _ _ Hk Hc).
    rewrite (drop_S _ _ _ Hk), (drop_S _ _ _ Hc) in Hfuel. cbn in Hfuel.
    set (stack2 := if decide (S i < length (Node.keys n)) then (n, S i) :: stack else stack).
    assert (Forall (frame_ok mn mx) stack2 /\
            stack_elements stack2 = after (Node.keys n) cs (S i) ++ stack_elements stack /\
            stack_rounds stack2 = length (drop (S i) (Node.keys n))
              + sum_list (rounds <$> drop (S (S i)) cs) + stack_rounds stack)
      as (Hok2 & He2 & Hr2).
    { subst stack2. case_decide.
      - split; [|split].
        + constructor; [|done]. exists lb, (S d). split; [done|]. cbn. by rewrite Hch.
        + unfold stack_elements. cbn. unfold frame_elements. cbn. by rewrite Hch.
        + unfold stack_rounds. cbn. unfold frame_rounds. cbn. rewrite Hch. lia.
      - split; [done|]. rewrite after_end by lia. split; [done|].
        rewrite !drop_ge by lia. done. }
    destruct (push_left_path_spec d mn c stack2) as (stack3 & -> & Hok3 & He3 & Hr3);
      [done| |done|].
    { right. apply shape_length in Hsc. lia. }
    run. rewrite IH by (done || lia). run. rewrite He3, He2. f_equal. cbn [app]. by rewrite <- app_assoc.
  - run. rewrite IH by (done || lia). done.
Qed.

(** *** check_structure *)

Lemma check_children_eq tk leafdepth cs i count :
  (fix go (cs0 : list Node.t) (i count : nat) {struct cs0} : result nat :=
     match cs0 with
     | [] => Ok count
     | child :: cs' =>
         lo0 <- py_get tk i ;
         hi0 <- py_get tk (i + 1) ;
         c <- Node.check_structure child false (leafdepth - 1)%Z lo0 hi0 ;
         go cs' (S i) (count + c)
     end) cs i count = check_children tk leafdepth cs i count.
Proof.
  revert i count. induction cs as [|c cs IH]; intros i count; [done|].
  cbn [check_children]. destruct (py_get tk i) as [lo0| |]; [|done..].
  destruct (py_get tk (i + 1)) as [hi0| |]; [|done..]. cbn [bind].
  destruct (Node.check_structure c false (leafdepth - 1)%Z lo0 hi0) as [x| |]; [|done..].
  cbn [bind]. apply IH.
Qed.

Lemma check_structure_unfold n isroot leafdepth lo hi :
  Node.check_structure n isroot leafdepth lo hi =
  (let numkeys := length (Node.keys n) in
   _ <- assert (Node.is_leaf n = bool_decide (leafdepth = 0%Z)) ;
   _ <- assert (numkeys <= Node.maxkeys n) ;
   _ <- assert (~ (isroot = true /\ Node.is_leaf n = false /\ numkeys = 0)) ;
   _ <- assert (~ (isroot = false /\ numkeys < Node.min_keys n)) ;
   let tempkeys := [lo] ++ map Some (Node.keys n) ++ [hi] in
   _ <- assert (Node.check_order tempkeys = true) ;
   match Node.children n with
   | None => Ok numkeys
   | Some cs =>
       _ <- assert (length cs = numkeys + 1) ;
       check_children tempkeys leafdepth cs 0 numkeys
   end).
Proof.
  destruct n as [m ks [cs|]]; [|done].
  cbn [Node.check_structure Node.children Node.keys]. cbv zeta.
  repeat (match goal with |- context [assert ?c] => destruct (assert c) as [[]| |] end;
          cbn [bind]; [|done..]).
  apply check_children_eq.
Qed.

Lemma check_order_sorted a ks hi :
  sorted (a :: ks) ->
  (forall b, hi = Some b -> Forall (fun x => (x < b)%Z) (a :: ks)) ->
  Node.check_order (Some a :: map Some ks ++ [hi]) = true.
Proof.
  revert a. induction ks as [|k ks IH]; intros a Hs Hhi.
  - cbn. destruct hi as [b|]; [|done]. specialize (Hhi b eq_refl).
    apply Forall_cons in Hhi as [? _]. by rewrite decide_False by lia.
  - apply sorted_cons in Hs as [Hak Hs]. pose proof Hak as [? _]%Forall_cons.
    cbn [map app Node.check_order]. rewrite decide_False by lia. apply IH; [done|].
    intros b Hb. specialize (Hhi b Hb). by apply Forall_cons in Hhi as [_ ?].
Qed.

Lemma bounded_lo a hi l : bounded (Some a) hi l -> Forall (fun x => (a < x)%Z) l.
Proof. unfold bounded. intros H. eapply Forall_impl; [done|]. cbn. tauto. Qed.

Lemma bounded_hi lo b l : bounded lo (Some b) l -> Forall (fun x => (x < b)%Z) l.
Proof. unfold bounded. intros H. eapply Forall_impl; [done|]. cbn. tauto. Qed.

Lemma bounded_intro lo hi l :
  (forall a, lo = Some a -> Forall (fun x => (a < x)%Z) l) ->
  (forall b, hi = Some b -> Forall (fun x => (x < b)%Z) l) -> bounded lo hi l.
Proof.
  intros Hlo Hhi. apply Forall_forall. intros x Hx. split.
  - destruct lo as [a|]; [|done]. specialize (Hlo a eq_refl).
    by eapply Forall_forall in Hlo.
  - destruct hi as [b|]; [|done]. specialize (Hhi b eq_refl).
    by eapply Forall_forall in Hhi.
Qed.

Lemma bounded_app lo hi l1 l2 : bounded lo hi (l1 ++ l2) <-> bounded lo hi l1 /\ bounded lo hi l2.
Proof. apply Forall_app. Qed.

Lemma check_order_ok lo hi ks :
  sorted ks -> bounded lo hi ks -> ks <> [] \/ lo = None \/ hi = None ->
  Node.check_order ([lo] ++ map Some ks ++ [hi]) = true.
Proof.
  intros Hs Hb Hne. destruct ks as [|k ks].
  - cbn. destruct Hne as [?|[->| ->]]; [done|done|]. by destruct lo.
  - assert (Node.check_order (Some k :: map Some ks ++ [hi]) = true) as Hrest.
    { apply check_order_sorted; [done|]. intros b ->. by eapply bounded_hi. }
    cbn [map app Node.check_order] in *. destruct lo as [a|]; [|done].
    apply bounded_lo, Forall_cons in Hb as [? _]. by rewrite decide_False by lia.
Qed.

Lemma inter_cons k ks e e1 es :
  inter (k :: ks) (e :: e1 :: es) = e ++ k :: inter ks (e1 :: es).
Proof. done. Qed.

Lemma length_inter ks es :
  length es = S (length ks) -> length (inter ks es) = length ks + sum_list (length <$> es).
Proof.
  revert es. induction ks as [|k ks IH]; intros [|e [|e1 es]] Hl; cbn [length] in Hl; try lia.
  - cbn. rewrite length_app. cbn. lia.
  - rewrite inter_cons, length_app. cbn [length]. rewrite IH by (cbn; lia). cbn. lia.
Qed.

Lemma elements_length lb d n :
  shape mn mx lb (S d) n ->
  forall cs, Node.children n = Some cs ->
  length (elements n) = length (Node.keys n) + sum_list (length <$> (elements <$> cs)).
Proof.
  intros Hs cs Hch. destruct (shape_children _ _ _ _ Hs Hch) as [Hclen _].
  destruct n as [m ks ch]. cbn in *. subst ch. cbn. apply length_inter.
  by rewrite length_fmap.
Qed.

Lemma check_children_spec d hi :
  (forall c lo hi, shape mn mx mn d c -> sorted (elements c) -> bounded lo hi (elements c) ->
     Node.check_structure c false (Z.of_nat d) lo hi = Ok (length (elements c))) ->
  forall cs ks tk j count lo_j,
    tk !! j = Some lo_j -> drop (S j) tk = map Some ks ++ [hi] ->
    length cs = S (length ks) -> Forall (shape mn mx mn d) cs ->
    sorted (inter ks (elements <$> cs)) -> bounded lo_j hi (inter ks (elements <$> cs)) ->
    check_children tk (Z.of_nat (S d)) cs j count =
    Ok (count + sum_list (length <$> (elements <$> cs))).
Proof.
  intros IHd. induction cs as [|c cs IH]; intros ks tk j count lo_j Hj Hdrop Hl Hf Hs Hb;
    [done|].
  apply Forall_cons in Hf as [Hsc Hf]. cbn [check_children]. unfold py_get. rewrite Hj.
  replace (j + 1) with (S j) by lia.
  replace (Z.of_nat (S d) - 1)%Z with (Z.of_nat d) by lia.
  destruct ks as [|k ks].
  - destruct cs; [|done]. cbn in Hs, Hb. rewrite app_nil_r in Hs, Hb.
    assert (tk !! S j = Some hi) as ->.
    { rewrite <- (Nat.add_0_r (S j)), <- lookup_drop, Hdrop. done. }
    run. rewrite IHd by done. run. cbn. f_equal. lia.
  - destruct cs as [|c1 cs]; [done|]. rewrite !fmap_cons, inter_cons in Hs, Hb.
    assert (tk !! S j = Some (Some k)) as ->.
    { rewrite <- (Nat.add_0_r (S j)), <- lookup_drop, Hdrop. done. }
    pose proof (sorted_middle _ _ _ Hs) as [Hlt Hgt].
    apply bounded_app in Hb as [Hb1 Hb2].
    run. rewrite IHd; [|done|by apply sorted_app_l in Hs|].
    2:{ apply bounded_intro; [|by intros ? [= <-]].
        intros a ->. by eapply bounded_lo. }
    run. rewrite (IH ks tk (S j) _ (Some k)); try done.
    + cbn. f_equal. lia.
    + rewrite <- (Nat.add_0_r (S j)), <- lookup_drop, Hdrop. done.
    + replace (S (S j)) with (S j + 1) by lia. by rewrite <- drop_drop, Hdrop.
    + cbn in Hl. cbn. lia.
    + by apply sorted_app_r, sorted_cons in Hs as [_ ?].
    + apply Forall_cons in Hb2 as [_ Hb2]. apply bounded_intro.
      * by intros ? [= <-].
      * intros b ->. by eapply bounded_hi.
Qed.

Lemma sorted_post_keys ks es : length ks <= length es -> sorted (post ks es) -> sorted ks.
Proof.
  revert es. induction ks as [|k ks IH]; intros [|e es] Hl Hs; cbn in Hl; try lia;
    try apply sorted_nil.
  change (post (k :: ks) (e :: es)) with (k :: e ++ post ks es) in Hs.
  apply sorted_cons in Hs as [Hk Hs]. apply sorted_cons. split.
  - apply Forall_forall. intros x Hx. eapply Forall_forall in Hk; [done|].
    apply elem_of_app. right. apply elem_of_post; [done|lia].
  - apply (IH es); [lia|]. by apply sorted_app_r in Hs.
Qed.

Lemma sorted_keys lb d n : shape mn mx lb d n -> sorted (elements n) -> sorted (Node.keys n).
Proof.
  destruct n as [m ks ch], d as [|d]; rewrite ?shape_0, ?shape_S; cbn.
  - by intros (_ & _ & ->).
  - intros (_ & _ & cs & -> & Hl & _). cbn. destruct cs as [|c cs]; [done|]. cbn.
    intros Hs%sorted_app_r. eapply sorted_post_keys; [|done]. rewrite length_fmap.
    cbn in Hl. lia.
Qed.

Lemma bounded_keys lb d n lo hi :
  shape mn mx lb d n -> bounded lo hi (elements n) -> bounded lo hi (Node.keys n).
Proof.
  intros Hs Hb. apply Forall_forall. intros x Hx.
  eapply Forall_forall in Hb; [done|]. by eapply keys_elements.
Qed.

Lemma node_check_structure_spec d lb n (isroot : bool) lo hi :
  shape mn mx lb d n ->
  (if isroot then (d <> 0 -> 1 <= length (Node.keys n)) /\ lo = None
   else mn <= length (Node.keys n)) ->
  sorted (elements n) -> bounded lo hi (elements n) ->
  Node.check_structure n isroot (Z.of_nat d) lo hi = Ok (length (elements n)).
Proof.
  revert lb n isroot lo hi. induction d as [|d IH]; intros lb n isroot lo hi Hs Hroot Hsort Hb.
  - rewrite check_structure_unfold. cbv zeta.
    pose proof (shape_is_leaf _ _ _ Hs) as Hleaf.
    pose proof (shape_min_keys _ _ _ Hs) as Hmin.
    pose proof Hs as (Hm & Hlen & Hch)%shape_0.
    rewrite Hleaf, Hmin, Hm, Hch.
    assert (Node.check_order ([lo] ++ map Some (Node.keys n) ++ [hi]) = true) as Hord.
    { apply check_order_ok; [by eapply sorted_keys|by eapply bounded_keys|].
      destruct isroot; [right; left; tauto|]. left. intros Hnil. rewrite Hnil in Hroot.
      cbn in Hroot. lia. }
    run. unfold assert, guard. rewrite decide_True.
    2:{ by intros (_ & ? & _). }
    cbn [bind]. rewrite decide_True.
    2:{ intros (-> & ?). lia. }
    cbn [bind]. rewrite decide_True by done. cbn [bind].
    destruct n as [m ks ch]. cbn in Hch. by subst ch.
  - rewrite check_structure_unfold. cbv zeta.
    pose proof (shape_is_leaf _ _ _ Hs) as Hleaf.
    pose proof (shape_min_keys _ _ _ Hs) as Hmin.
    pose proof Hs as (Hm & Hlen & cs & Hch & Hclen & Hf)%shape_S.
    rewrite Hleaf, Hmin, Hm, Hch.
    assert (Node.check_order ([lo] ++ map Some (Node.keys n) ++ [hi]) = true) as Hord.
    { apply check_order_ok; [by eapply sorted_keys|by eapply bounded_keys|].
      destruct isroot; [right; left; tauto|]. left. intros Hnil. rewrite Hnil in Hroot.
      cbn in Hroot. lia. }
    unfold assert, guard. rewrite decide_True.
    2:{ symmetry. apply bool_decide_ext. lia. }
    cbn [bind]. rewrite decide_True by lia. cbn [bind]. rewrite decide_True.
    2:{ intros (-> & _ & Hk). destruct Hroot as [Hroot _]. specialize (Hroot ltac:(done)). lia. }
    cbn [bind]. rewrite decide_True.
    2:{ intros (-> & ?). lia. }
    cbn [bind]. rewrite decide_True by done. cbn [bind]. rewrite decide_True by lia.
    cbn [bind]. rewrite (elements_length _ _ _ Hs cs Hch).
    destruct n as [m ks ch]. cbn in Hch. subst ch. cbn in Hsort, Hb. cbn [Node.keys] in *.
    eapply (check_children_spec d hi) with (ks := ks) (lo_j := lo); try done.
    intros c lo' hi' Hsc Hsortc Hbc. apply (IH mn c false); try done.
    apply shape_length in Hsc. lia.
Qed.

(** *** Height and size *)

Lemma height_spec lb d n : shape mn mx lb d n -> height n = Ok d.
Proof.
  revert lb n. induction d as [|d IH]; intros lb n Hs.
  - apply shape_0 in Hs as (_ & _ & Hch). destruct n as [m ks ch]. cbn in *. by subst.
  - apply shape_S in Hs as (_ & _ & cs & Hch & Hl & Hf).
    destruct n as [m ks ch]. cbn in *. subst ch. destruct cs as [|c cs]; [done|].
    apply Forall_cons in Hf as [Hc _]. cbn. rewrite (IH _ _ Hc). cbn. f_equal. lia.
Qed.

Lemma elements_ge_keys lb d n :
  shape mn mx lb d n -> length (Node.keys n) <= length (elements n).
Proof.
  destruct d as [|d]; intros Hs.
  - apply shape_0 in Hs as (_ & _ & Hch). destruct n as [m ks ch]. cbn in *. by subst.
  - pose proof Hs as (_ & _ & cs & Hch & _)%shape_S.
    rewrite (elements_length _ _ _ Hs cs Hch). lia.
Qed.

Lemma internal_size lb d n :
  shape mn mx lb (S d) n -> 1 <= length (Node.keys n) -> 2 * mn + 1 <= length (elements n).
Proof.
  intros Hs Hk. pose proof Hs as (_ & _ & cs & Hch & Hl & Hf)%shape_S.
  rewrite (elements_length _ _ _ Hs cs Hch).
  destruct cs as [|c1 [|c2 cs]]; cbn in Hl; try lia.
  apply Forall_cons in Hf as [Hc1 Hf]. apply Forall_cons in Hf as [Hc2 _].
  pose proof (elements_ge_keys _ _ _ Hc1). pose proof (elements_ge_keys _ _ _ Hc2).
  apply shape_length in Hc1, Hc2. cbn. lia.
Qed.

Lemma leaf_size lb n : shape mn mx lb 0 n -> elements n = Node.keys n.
Proof.
  intros (_ & _ & Hch)%shape_0. destruct n as [m ks ch]. cbn in *. by subst.
Qed.

(** *** Ordering of the keys, node by node *)

Lemma elem_of_before ks cs j a :
  ks !! j = Some a -> S j <= length cs -> a ∈ before ks cs (S j).
Proof.
  intros Ha Hj. destruct (lookup_lt_is_Some_2 cs j) as [c0 Hc0]; [lia|].
  apply lookup_split in Ha as (ks1 & ks2 & -> & Hk).
  apply lookup_split in Hc0 as (cs1 & cs2 & -> & Hc).
  rewrite before_mid1 by lia. rewrite !elem_of_app, list_elem_of_singleton. tauto.
Qed.

Lemma elem_of_after ks cs i b :
  ks !! i = Some b -> S i < length cs -> b ∈ after ks cs i.
Proof.
  intros Hb Hi. destruct (lookup_lt_is_Some_2 cs (S i)) as [c1 Hc1]; [lia|].
  unfold after. rewrite (drop_S ks b i Hb), (drop_S cs c1 (S i) Hc1).
  rewrite fmap_cons. cbn. by left.
Qed.

Lemma ordered_intro d lb n lo hi :
  shape mn mx lb d n -> sorted (elements n) -> bounded lo hi (elements n) ->
  ordered d lo hi n.
Proof.
  revert lb n lo hi. induction d as [|d IH]; intros lb n lo hi Hs Hsort Hb.
  - cbn. split_and!; [by eapply sorted_keys|by eapply bounded_keys|done].
  - cbn [ordered]. split; [by eapply sorted_keys|]. split; [by eapply bounded_keys|].
    pose proof Hs as (_ & _ & cs & Hch & Hclen & Hf)%shape_S. rewrite Hch.
    intros i c lo' hi' Hc Hlo Hhi.
    pose proof (elements_child _ _ _ _ _ _ Hs Hch Hc) as He. rewrite He in Hsort, Hb.
    apply lookup_lt_Some in Hc as Hi.
    apply bounded_app in Hb as [_ [Hbc _]%bounded_app].
    apply (IH mn); [by eapply Forall_lookup_1|by apply sorted_app_r, sorted_app_l in Hsort|].
    apply bounded_intro.
    + intros a ->. destruct i as [|j].
      * change (Some lo = Some (Some a)) in Hlo. injection Hlo as ->. by eapply bounded_lo.
      * change (((Some <$> Node.keys n) ++ [hi]) !! j = Some (Some a)) in Hlo.
        rewrite lookup_app_l in Hlo by (rewrite length_fmap; lia).
        rewrite list_lookup_fmap in Hlo.
        destruct (Node.keys n !! j) as [a'|] eqn:Ha; [|done]. cbn in Hlo. injection Hlo as ->.
        apply sorted_app in Hsort as (Hlt & _ & _).
        apply Forall_forall. intros x Hx. apply Hlt.
        -- apply elem_of_before; [done|lia].
        -- apply elem_of_app. by left.
    + intros b ->. replace (i + 1) with (S i) in Hhi by lia.
      change (((Some <$> Node.keys n) ++ [hi]) !! i = Some (Some b)) in Hhi.
      destruct (decide (i < length (Node.keys n))) as [Hlt|Hge].
      * rewrite lookup_app_l in Hhi by (rewrite length_fmap; lia).
        rewrite list_lookup_fmap in Hhi.
        destruct (Node.keys n !! i) as [b'|] eqn:Hb'; [|done]. cbn in Hhi. injection Hhi as ->.
        apply sorted_app_r, sorted_app in Hsort as (Hlt' & _ & _).
        apply Forall_forall. intros x Hx. apply Hlt'; [done|].
        apply elem_of_after; [done|lia].
      * rewrite lookup_app_r in Hhi by (rewrite length_fmap; lia).
        rewrite length_fmap in Hhi. replace (i - length (Node.keys n)) with 0 in Hhi by lia.
        cbn in Hhi. injection Hhi as ->. by eapply bounded_hi.
Qed.

End Nodes.


(** ** Sets of degree [t] *)


Section Sets.
Local Arguments Nat.mul : simpl never.
Variable t : nat.
Hypothesis Ht : 2 <= t.

Lemma deg_mn : 1 <= t - 1.
Proof. lia. Qed.

Lemma deg_mx : 2 * t - 1 <= 2 * (t - 1) + 1 <= 2 * t - 1.
Proof. lia. Qed.

Ltac deg := try exact deg_mn; try exact deg_mx.

Lemma Inv_size_nat s : Inv t s -> size s = Z.of_nat (length (contents s)).
Proof. by intros []. Qed.

Lemma empty_set_Inv :
  exists s, empty_set (t - 1) (2 * t - 1) = Ok s /\ Inv t s /\ contents s = [].
Proof.
  unfold empty_set, Node.init. pose proof (mx_odd _ _ deg_mn deg_mx) as Hodd.
  run. eexists. split; [done|]. split; [|done].
  split; cbn; try done.
  - exists 0. split; [|done]. apply shape_0; deg. cbn. split_and!; try done; lia.
  - apply sorted_nil.
Qed.

Lemma clear_spec s : Inv t s -> exists s', clear s = Ok s' /\ Inv t s' /\ contents s' = [].
Proof.
  intros [Hmin Hmax _ _ _]. unfold clear. rewrite Hmin, Hmax. apply empty_set_Inv.
Qed.

Lemma contains_spec s k : Inv t s -> contains s k = Ok (mem k (contents s)).
Proof.
  intros [_ _ (d & Hs & _) Hsort _]. unfold contains.
  erewrite shape_levels by (deg; done). eapply contains_loop_spec; deg; try done. lia.
Qed.

Lemma iter_spec s : Inv t s -> iter s = Ok (contents s).
Proof.
  intros [_ _ (d & Hs & Hk) _ _]. unfold iter.
  edestruct (push_left_path_spec (t - 1) (2 * t - 1)) as (st & -> & Hok & He & Hr);
    deg; [exact Hs| |constructor|].
  { destruct d; [by left|right; by apply Hk]. }
  run. unfold stack_elements, stack_rounds in He, Hr. cbn in He, Hr.
  rewrite app_nil_r in He. unfold contents. rewrite <- He.
  eapply iter_loop_spec; deg; [done|]. unfold stack_rounds. lia.
Qed.

Lemma add_spec s k :
  Inv t s ->
  exists s', add s k = Ok s' /\ Inv t s' /\ contents s' = ins k (contents s) /\
    Node.levels (root s') =
      if decide (length (Node.keys (root s)) = maxkeys s) then S (Node.levels (root s))
      else Node.levels (root s).
Proof.
  intros [Hmin Hmax (d & Hs & Hk) Hsort Hsize]. unfold add, contents in *.
  rewrite Hmin, Hmax.
  assert (exists d0 root0,
    (if decide (length (Node.keys (root s)) = 2 * t - 1) then
       '(middlekey, rgt, lft) <- Node.split (root s) ;
       r <- Node.init (2 * t - 1) false ;
       match Node.children r with
       | Some cs => Ok (Node.mk (Node.maxkeys r) (Node.keys r ++ [middlekey])
                          (Some ((cs ++ [lft]) ++ [rgt])))
       | None => Raise AttributeError
       end
     else Ok (root s)) = Ok root0 /\
    root_ok (t - 1) (2 * t - 1) d0 root0 /\ length (Node.keys root0) < 2 * t - 1 /\
    elements root0 = elements (root s) /\
    d0 = if decide (length (Node.keys (root s)) = 2 * t - 1) then S d else d)
    as (d0 & root0 & -> & [Hs0 Hk0] & Hroom & Hel & Hd0).
  { case_decide as Hfull.
    - edestruct (split_spec (t - 1) (2 * t - 1)) as (mid & r & l & -> & _ & Hll & Hlr & Hsl & Hsr & He);
        deg; [exact Hs|done|].
      pose proof (mx_odd _ _ deg_mn deg_mx) as Hodd.
      unfold Node.init. run. exists (S d). eexists. split; [done|]. cbn.
      split; [split|split].
      + apply shape_S; deg. cbn. split_and!; try done; try lia.
        eexists. split; [done|]. split; [done|]. by repeat constructor.
      + cbn. lia.
      + lia.
      + split; [|done]. rewrite He. by rewrite app_nil_r.
    - exists d, (root s). split; [done|]. split; [done|]. split; [|done].
      apply shape_length in Hs; deg. lia. }
  run.
  edestruct (add_loop_spec (t - 1) (2 * t - 1)) with (isroot := true) (lb := length (Node.keys root0))
    as (n' & -> & Hs' & He'); deg.
  { eapply shape_strengthen; deg; [|exact Hs0]. lia. }
  { done. } { by left. } { by rewrite Hel. }
  { erewrite shape_levels by (deg; done). lia. }
  run. eexists. split; [done|]. rewrite Hel in He'. cbn [root]. split; [|split; [done|]].
  2:{ assert (Node.levels n' = d0) as -> by (eapply shape_levels; deg; exact Hs').
      assert (Node.levels (root s) = d) as -> by (eapply shape_levels; deg; exact Hs).
      done. }
  split; cbn; try done.
  - exists d0. split.
    + eapply shape_weaken; deg; [|exact Hs']. lia.
    + intros Hd. apply shape_length in Hs'; deg. specialize (Hk0 Hd). lia.
  - rewrite He'. by apply sorted_ins.
  - rewrite He', length_ins by done. rewrite Hel.
    destruct (mem k (elements (root s))); cbn; lia.
Qed.

Lemma _remove_spec s k :
  Inv t s ->
  exists s', _remove s k = Ok (s', mem k (contents s)) /\ Inv t s' /\
    contents s' = del k (contents s) /\ minkeys s' = minkeys s /\ maxkeys s' = maxkeys s /\
    Node.levels (root s') <= Node.levels (root s) <= S (Node.levels (root s')) /\
    (Node.levels (root s') < Node.levels (root s) -> length (Node.keys (root s)) = 1).
Proof.
  intros [Hmin Hmax (d & Hr) Hsort Hsize]. unfold _remove, contents in *.
  rewrite Hmin, Hmax. destruct (Node.search (root s) k) as [found index] eqn:Hsearch.
  edestruct (remove_loop_spec (t - 1) (2 * t - 1)) with (isroot := true)
    as (n' & -> & He' & d' & Hd' & Hone & Hr'); deg.
  { exact Hr. } { done. }
  { destruct Hr as [Hs _]. erewrite shape_levels by (deg; done). lia. }
  { destruct found; [by apply search_found|done]. }
  run. eexists. split; [done|]. cbn [root minkeys maxkeys].
  assert (Node.levels n' = d') as El' by (destruct Hr'; eapply shape_levels; deg; done).
  assert (Node.levels (root s) = d) as El by (destruct Hr; eapply shape_levels; deg; done).
  rewrite El, El'.
  split; [|split_and!; try done; lia].
  split; cbn; try done.
  - by exists d'.
  - rewrite He'. by apply sorted_del.
  - rewrite He'. pose proof (length_del k _ Hsort) as Hl.
    destruct (mem k (elements (root s))); lia.
Qed.

Lemma remove_spec s k :
  Inv t s ->
  exists s', remove s k = Ok (s', if mem k (contents s) then None else Some KeyError) /\
    Inv t s' /\ contents s' = del k (contents s).
Proof.
  intros Hi. destruct (_remove_spec s k Hi) as (s' & Hr & Hi' & Hc & _).
  exists s'. unfold remove. rewrite Hr. by run.
Qed.

Lemma discard_spec s k :
  Inv t s -> exists s', discard s k = Ok s' /\ Inv t s' /\ contents s' = del k (contents s).
Proof.
  intros Hi. destruct (_remove_spec s k Hi) as (s' & Hr & Hi' & Hc & _).
  exists s'. unfold discard. rewrite Hr. by run.
Qed.

Lemma bounded_None l : bounded None None l.
Proof. apply Forall_forall. done. Qed.

Lemma check_structure_spec s : Inv t s -> check_structure s = Ok tt.
Proof.
  intros [Hmin Hmax (d & Hs & Hk) Hsort Hsize]. unfold check_structure.
  rewrite Hmin, Hmax, Hsize. cbv zeta.
  erewrite shape_is_leaf by (deg; done).
  unfold assert, guard. rewrite decide_True.
  2:{ intros [?|[[H1 H2]|[H1 H2]]]; [lia| |].
      - apply bool_decide_eq_true in H2. subst d. erewrite leaf_size in H1 by (deg; done).
        apply shape_length in Hs; deg. lia.
      - destruct d as [|d].
        + destruct H2 as [?|H2]; [done|]. erewrite leaf_size in H2 by (deg; done). done.
        + pose proof (internal_size _ _ deg_mn deg_mx _ _ _ Hs (Hk ltac:(done))). lia. }
  cbn [bind]. erewrite height_spec by (deg; done). cbn [bind].
  erewrite node_check_structure_spec; deg; try done.
  - cbn [bind]. by rewrite decide_True.
  - by apply bounded_None.
Qed.

Lemma mem_ins k j l : mem k (ins j l) = if decide (j = k) then true else mem k l.
Proof.
  unfold mem. case_decide as Hjk.
  - apply bool_decide_eq_true. apply elem_of_ins. by left.
  - apply bool_decide_ext. rewrite elem_of_ins. naive_solver.
Qed.

Lemma mem_del k j l : mem k (del j l) = if decide (j = k) then false else mem k l.
Proof.
  unfold mem. case_decide as Hjk.
  - apply bool_decide_eq_false. rewrite elem_of_del. naive_solver.
  - apply bool_decide_ext. rewrite elem_of_del. naive_solver.
Qed.

(** What a call does to the contents of the set. *)
Lemma step_spec s op :
  Inv t s ->
  exists s', step s op = Ok s' /\ Inv t s' /\
    contents s' = match op with
                  | Add k => ins k (contents s)
                  | Remove k | Discard k => del k (contents s)
                  | Clear => []
                  end /\
    succeeds s op = match op with
                    | Remove k | Discard k => mem k (contents s)
                    | _ => false
                    end.
Proof.
  intros Hi. destruct op as [k|k|k|]; cbn [step succeeds].
  - destruct (add_spec s k Hi) as (s' & -> & ? & ? & _). eauto.
  - destruct (_remove_spec s k Hi) as (s' & Hr & ? & ? & _).
    unfold remove. rewrite Hr. run. eauto.
  - destruct (_remove_spec s k Hi) as (s' & Hr & ? & ? & _).
    unfold discard. rewrite Hr. run. eauto.
  - destruct (clear_spec s Hi) as (s' & -> & ? & ?). eauto.
Qed.

Lemma run_spec s ops : Inv t s -> exists s', run s ops = Ok s' /\ Inv t s'.
Proof.
  revert s. induction ops as [|op ops IH]; intros s Hi; [by exists s|].
  destruct (step_spec s op Hi) as (s1 & Hstep & Hi1 & _). cbn [run]. rewrite Hstep. run.
  by apply IH.
Qed.

Lemma run_balance k s ops c :
  Inv t s -> (0 <= c <= 1)%Z -> mem k (contents s) = bool_decide (0 < c)%Z ->
  exists s', run s ops = Ok s' /\ Inv t s' /\
    mem k (contents s') = bool_decide (0 < balance k c (trace s ops))%Z.
Proof.
  revert s c. induction ops as [|op ops IH]; intros s c Hi Hc Hm; [by exists s|].
  destruct (step_spec s op Hi) as (s1 & Hstep & Hi1 & Hc1 & Hsucc).
  cbn [run trace]. rewrite Hstep, Hsucc. run.
  assert (forall j, j = k -> mem j (contents s) = true -> c = 1%Z) as Hpos.
  { intros j -> Hj. rewrite Hj in Hm. symmetry in Hm. apply bool_decide_eq_true in Hm. lia. }
  assert (forall j, j = k -> mem j (contents s) = false -> c = 0%Z) as Hzero.
  { intros j -> Hj. rewrite Hj in Hm. symmetry in Hm. apply bool_decide_eq_false in Hm. lia. }
  destruct op as [j|j|j|]; cbn [balance]; apply IH; try done; rewrite ?Hc1, ?mem_ins, ?mem_del.
  - destruct (decide (j = k)); [destruct (decide (0 < c)%Z)|]; lia.
  - destruct (decide (j = k)); [destruct (decide (0 < c)%Z)|]; try done;
      symmetry; apply bool_decide_eq_true; lia.
  - destruct (decide (j = k)); [|lia]. destruct (mem j (contents s)) eqn:Hj; [|lia].
    rewrite (Hpos j) by done. lia.
  - destruct (decide (j = k)); [|done]. symmetry. apply bool_decide_eq_false.
    destruct (mem j (contents s)) eqn:Hj.
    + rewrite (Hpos j) by done. lia.
    + rewrite (Hzero j) by done. lia.
  - destruct (decide (j = k)); [|lia]. destruct (mem j (contents s)) eqn:Hj; [|lia].
    rewrite (Hpos j) by done. lia.
  - destruct (decide (j = k)); [|done]. symmetry. apply bool_decide_eq_false.
    destruct (mem j (contents s)) eqn:Hj.
    + rewrite (Hpos j) by done. lia.
    + rewrite (Hzero j) by done. lia.
  - transitivity false; [apply mem_false, not_elem_of_nil|].
    symmetry. apply bool_decide_eq_false. lia.
Qed.

End Sets.

Lemma init_spec degree :
  (2 <= degree)%Z ->
  exists s0, init degree None = Ok s0 /\ Inv (Z.to_nat degree) s0 /\ contents s0 = [].
Proof.
  intros Hd. unfold init. run.
  replace (Z.to_nat (degree - 1)) with (Z.to_nat degree - 1) by lia.
  replace (Z.to_nat (degree * 2 - 1)) with (2 * Z.to_nat degree - 1) by lia.
  destruct (empty_set_Inv (Z.to_nat degree)) as (s0 & -> & ? & ?); [lia|].
  run. eauto.
Qed.

Lemma reachable_Inv degree s :
  (2 <= degree)%Z -> reachable degree s -> Inv (Z.to_nat degree) s.
Proof.
  intros Hd (s0 & ops & Hinit & Hrun).
  destruct (init_spec degree Hd) as (s0' & Hinit' & Hi & _).
  rewrite Hinit in Hinit'. injection Hinit' as <-.
  destruct (run_spec (Z.to_nat degree) ltac:(lia) s0 ops Hi) as (s' & Hrun' & ?).
  rewrite Hrun in Hrun'. by injection Hrun' as <-.
Qed.

(** ** The theorems, claim by claim *)

Lemma sorted_NoDup l : sorted l -> NoDup l.
Proof.
  induction l as [|k l IH]; [constructor|]. rewrite sorted_cons. intros [Hk Hl].
  constructor; [|by apply IH]. intros Hin. eapply Forall_forall in Hk; [|done]. lia.
Qed.

Lemma degree_nat degree : (2 <= degree)%Z -> 2 <= Z.to_nat degree.
Proof. lia. Qed.

(** The count of the calls and the set, call by call. *)
Lemma run_net t (Ht : 2 <= t) k s ops c :
  Inv t s -> (0 <= c <= 1)%Z -> mem k (contents s) = bool_decide (0 < c)%Z ->
  exists s', run s ops = Ok s' /\ Inv t s' /\
    mem k (contents s') = bool_decide (0 < net k c ops)%Z /\
    balance k c (trace s ops) = net k c ops.
Proof.
  revert s c. induction ops as [|op ops IH]; intros s c Hi Hc Hm; [by exists s|].
  destruct (step_spec t Ht s op Hi) as (s1 & Hstep & Hi1 & Hc1 & Hsucc).
  cbn [run trace]. rewrite Hstep, Hsucc. cbn [bind].
  assert (mem k (contents s) = true -> c = 1%Z) as Hpos.
  { intros Hj. rewrite Hj in Hm. symmetry in Hm. apply bool_decide_eq_true in Hm. lia. }
  assert (mem k (contents s) = false -> c = 0%Z) as Hzero.
  { intros Hj. rewrite Hj in Hm. symmetry in Hm. apply bool_decide_eq_false in Hm. lia. }
  assert (forall j : Z, j = k ->
            (if mem j (contents s) then c - 1 else c)%Z
            = (if decide (0 < c)%Z then c - 1 else c)%Z) as Hrem.
  { intros j ->. destruct (mem k (contents s)) eqn:Hj.
    - rewrite Hpos by done. done.
    - rewrite Hzero by done. done. }
  destruct op as [j|j|j|]; cbn [balance net].
  - apply IH; [done| |].
    + destruct (decide (j = k)); [destruct (decide (0 < c)%Z)|]; lia.
    + rewrite Hc1, mem_ins. destruct (decide (j = k)); [|done].
      symmetry. apply bool_decide_eq_true. destruct (decide (0 < c)%Z); lia.
  - destruct (decide (j = k)) as [Hjk|Hjk].
    + rewrite (Hrem j Hjk). apply IH; [done| |].
      * destruct (decide (0 < c)%Z); lia.
      * rewrite Hc1, mem_del, decide_True by done.
        symmetry. apply bool_decide_eq_false. destruct (decide (0 < c)%Z); lia.
    + apply IH; [done..|]. by rewrite Hc1, mem_del, decide_False.
  - destruct (decide (j = k)) as [Hjk|Hjk].
    + rewrite (Hrem j Hjk). apply IH; [done| |].
      * destruct (decide (0 < c)%Z); lia.
      * rewrite Hc1, mem_del, decide_True by done.
        symmetry. apply bool_decide_eq_false. destruct (decide (0 < c)%Z); lia.
    + apply IH; [done..|]. by rewrite Hc1, mem_del, decide_False.
  - apply IH; [done|lia|]. rewrite Hc1. done.
Qed.

(** C1. Membership correctness: for every finite sequence of
    add/remove/discard/clear calls on a freshly constructed set of degree at
    least 2 and every key [k], the sequence runs to the end without an
    internal error, and [k in set] afterwards is true exactly when the number
    of [add(k)] calls minus the number of successful removals of [k] since the
    last [clear], counted with duplicates collapsed, is greater than zero.
    The number is [net], a function of the calls alone, in which a removal of
    [k] is successful exactly when [k] is counted; the same number comes out
    when the removals are counted as [_remove] reports them ([balance] over
    [trace]). *)
Theorem membership_correct (degree : Z) (ops : list Op) (k : Z) :
  (2 <= degree)%Z ->
  exists s0 s, init degree None = Ok s0 /\ run s0 ops = Ok s /\
    contains s k = Ok (bool_decide (0 < net k 0 ops)%Z) /\
    balance k 0 (trace s0 ops) = net k 0 ops.
Proof.
  intros Hd. destruct (init_spec degree Hd) as (s0 & Hinit & Hi & Hc).
  pose proof (degree_nat degree Hd) as Ht.
  destruct (run_net (Z.to_nat degree) Ht k s0 ops 0%Z Hi) as (s & Hrun & Hi' & Hm & Hb); [lia| |].
  { rewrite Hc. done. }
  exists s0, s. split; [done|]. split; [done|]. split; [|done].
  rewrite (contains_spec _ Ht s k Hi'). by rewrite Hm.
Qed.

Lemma membership_correct_witness :
  let ops := [Add 5; Add 5; Remove 5; Discard 7; Add 7; Add 5; Clear; Add 9; Remove 5]%Z in
  exists s0 s, init 2 None = Ok s0 /\ run s0 ops = Ok s /\
    contains s 5%Z = Ok (bool_decide (0 < net 5 0 ops)%Z) /\
    balance 5 0 (trace s0 ops) = net 5 0 ops.
Proof. intros ops. apply (membership_correct 2); lia. Defined.

(** C2. Invariant preservation: in every state reachable from a freshly
    constructed set by add/remove/discard/clear calls, [check_structure()]
    raises no error, and: all leaves are at the same depth [d], every node
    below the root has between [minkeys] and [maxkeys] keys, an internal root
    has at least one key, every internal node has one child more than keys
    ([root_ok], [shape]); the keys of every node are strictly increasing and
    lie strictly between the bounds inherited from its ancestors ([ordered]);
    the keys listed in symmetric order are strictly increasing; and the
    stored size is the number of keys in the tree. *)
Theorem invariant_preserved (degree : Z) (s : BTreeSet) :
  (2 <= degree)%Z -> reachable degree s ->
  check_structure s = Ok tt /\
  minkeys s = Z.to_nat degree - 1 /\ maxkeys s = 2 * Z.to_nat degree - 1 /\
  (exists d, root_ok (minkeys s) (maxkeys s) d (root s) /\ ordered d None None (root s)) /\
  sorted (contents s) /\
  size s = Z.of_nat (length (contents s)).
Proof.
  intros Hd Hr. pose proof (reachable_Inv degree s Hd Hr) as Hi.
  split; [by eapply check_structure_spec; [apply degree_nat|]|].
  pose proof (degree_nat degree Hd) as Ht.
  destruct Hi as [Hmin Hmax (d & Hs) Hsort Hsize]. rewrite Hmin, Hmax.
  split_and!; try done. exists d. split; [done|]. destruct Hs as [Hs _].
  eapply (ordered_intro _ _ (deg_mn _ Ht) (deg_mx _ Ht)); [done..|apply bounded_None].
Qed.

(** Reachability of a concrete state, by running the calls. *)
Ltac reach ops :=
  exists {| minkeys := 1; maxkeys := 3; root := Node.mk 3 [] None; size := 0 |}, ops;
  split; vm_compute; reflexivity.

Lemma invariant_preserved_witness :
  let s := example_set in
  check_structure s = Ok tt /\
  minkeys s = Z.to_nat 2 - 1 /\ maxkeys s = 2 * Z.to_nat 2 - 1 /\
  (exists d, root_ok (minkeys s) (maxkeys s) d (root s) /\ ordered d None None (root s)) /\
  sorted (contents s) /\
  size s = Z.of_nat (length (contents s)).
Proof. apply (invariant_preserved 2); [lia|reach [Add 1; Add 2; Add 3; Add 4]%Z]. Defined.

(** C3. Iteration order and count: in every reachable state, iterating the
    set yields a finite sequence of keys that is strictly increasing, hence
    without duplicates, and whose length is [len(set)]. *)
Theorem iteration_sorted (degree : Z) (s : BTreeSet) :
  (2 <= degree)%Z -> reachable degree s ->
  exists l, iter s = Ok l /\ sorted l /\ NoDup l /\ Z.of_nat (length l) = len s.
Proof.
  intros Hd Hr. pose proof (reachable_Inv degree s Hd Hr) as Hi.
  exists (contents s). split; [by eapply iter_spec; [apply degree_nat|]|].
  destruct Hi as [_ _ _ Hsort Hsize]. split; [done|]. split; [by apply sorted_NoDup|].
  unfold len. by rewrite Hsize.
Qed.

Lemma iteration_sorted_witness :
  let s := example_set in
  exists l, iter s = Ok l /\ sorted l /\ NoDup l /\ Z.of_nat (length l) = len s.
Proof. apply (iteration_sorted 2); [lia|reach [Add 1; Add 2; Add 3; Add 4]%Z]. Defined.

(** C4. Removal error contract: in every reachable state and for every key
    [k], [remove(k)] ends by raising [KeyError] exactly when [k] is not in
    the set, [discard(k)] never raises; after either call [k] is not in the
    set and the structure is valid; when [k] was present the size has gone
    down by one, when it was absent the size, the membership of every key and
    the iteration sequence are what they were. *)
Theorem removal_contract (degree : Z) (s : BTreeSet) (k : Z) :
  (2 <= degree)%Z -> reachable degree s ->
  exists present s1 e s2,
    contains s k = Ok present /\ remove s k = Ok (s1, e) /\ discard s k = Ok s2 /\
    (e = Some KeyError <-> present = false) /\ (e = None <-> present = true) /\
    contains s1 k = Ok false /\ contains s2 k = Ok false /\
    check_structure s1 = Ok tt /\ check_structure s2 = Ok tt /\
    (present = true -> len s1 = (len s - 1)%Z /\ len s2 = (len s - 1)%Z) /\
    (present = false ->
       len s1 = len s /\ len s2 = len s /\ iter s1 = iter s /\ iter s2 = iter s /\
       forall j, contains s1 j = contains s j /\ contains s2 j = contains s j).
Proof.
  intros Hd Hr. pose proof (reachable_Inv degree s Hd Hr) as Hi.
  pose proof (degree_nat degree Hd) as Ht.
  destruct (remove_spec _ Ht s k Hi) as (s1 & Hrem & Hi1 & Hc1).
  destruct (discard_spec _ Ht s k Hi) as (s2 & Hdis & Hi2 & Hc2).
  exists (mem k (contents s)), s1, (if mem k (contents s) then None else Some KeyError), s2.
  rewrite !(contains_spec _ Ht) by done. rewrite !(check_structure_spec _ Ht) by done.
  rewrite Hc1, Hc2, mem_del, decide_True by done.
  split_and!; try done.
  - by destruct (mem k (contents s)).
  - by destruct (mem k (contents s)).
  - intros Hm. unfold len. rewrite (Inv_size_nat _ s1), (Inv_size_nat _ s2), (Inv_size_nat _ s)
      by done.
    rewrite Hc1, Hc2. destruct Hi as [_ _ _ Hsort _].
    pose proof (length_del k (contents s) Hsort) as Hl. rewrite Hm in Hl. lia.
  - intros Hm. apply mem_false in Hm. 
    assert (contents s1 = contents s) as E1 by (by rewrite Hc1, del_absent).
    assert (contents s2 = contents s) as E2 by (by rewrite Hc2, del_absent).
    unfold len. rewrite (Inv_size_nat _ s1), (Inv_size_nat _ s2), (Inv_size_nat _ s) by done.
    rewrite !(iter_spec _ Ht) by done. rewrite E1, E2. split_and!; try done.
    intros j. rewrite !(contains_spec _ Ht) by done. by rewrite E1, E2.
Qed.

Lemma removal_contract_witness :
  exists present s1 e s2,
    contains example_set 3%Z = Ok present /\ remove example_set 3%Z = Ok (s1, e) /\
    discard example_set 3%Z = Ok s2 /\
    (e = Some KeyError <-> present = false) /\ (e = None <-> present = true) /\
    contains s1 3%Z = Ok false /\ contains s2 3%Z = Ok false /\
    check_structure s1 = Ok tt /\ check_structure s2 = Ok tt /\
    (present = true -> len s1 = (len example_set - 1)%Z /\ len s2 = (len example_set - 1)%Z) /\
    (present = false ->
       len s1 = len example_set /\ len s2 = len example_set /\
       iter s1 = iter example_set /\ iter s2 = iter example_set /\
       forall j, contains s1 j = contains example_set j /\ contains s2 j = contains example_set j).
Proof. apply (removal_contract 2); [lia|reach [Add 1; Add 2; Add 3; Add 4]%Z]. Defined.

(** C9. Idempotence at the public interface: in every reachable state,
    [add(k)] twice in a row leaves the same size, the same membership of
    every key and the same iteration sequence as [add(k)] once; and
    [discard(k)] of a key that is not in the set changes none of the three. *)
Theorem add_discard_idempotent (degree : Z) (s : BTreeSet) (k : Z) :
  (2 <= degree)%Z -> reachable degree s ->
  (exists s1 s2, add s k = Ok s1 /\ add s1 k = Ok s2 /\
     len s2 = len s1 /\ (forall j, contains s2 j = contains s1 j) /\ iter s2 = iter s1) /\
  (contains s k = Ok false ->
   exists s3, discard s k = Ok s3 /\
     len s3 = len s /\ (forall j, contains s3 j = contains s j) /\ iter s3 = iter s).
Proof.
  intros Hd Hr. pose proof (reachable_Inv degree s Hd Hr) as Hi.
  pose proof (degree_nat degree Hd) as Ht. split.
  - destruct (add_spec _ Ht s k Hi) as (s1 & Ha1 & Hi1 & Hc1 & _).
    destruct (add_spec _ Ht s1 k Hi1) as (s2 & Ha2 & Hi2 & Hc2 & _).
    assert (contents s2 = contents s1) as E.
    { rewrite Hc2, Hc1. apply ins_ins. by destruct Hi. }
    exists s1, s2. split_and!; try done.
    + unfold len. rewrite (Inv_size_nat _ s1), (Inv_size_nat _ s2) by done. by rewrite E.
    + intros j. rewrite !(contains_spec _ Ht) by done. by rewrite E.
    + rewrite !(iter_spec _ Ht) by done. by rewrite E.
  - rewrite (contains_spec _ Ht) by done. intros [= Hm]. apply mem_false in Hm.
    destruct (discard_spec _ Ht s k Hi) as (s3 & Hdis & Hi3 & Hc3).
    assert (contents s3 = contents s) as E by (by rewrite Hc3, del_absent).
    exists s3. split_and!; try done.
    + unfold len. rewrite (Inv_size_nat _ s3), (Inv_size_nat _ s) by done. by rewrite E.
    + intros j. rewrite !(contains_spec _ Ht) by done. by rewrite E.
    + rewrite !(iter_spec _ Ht) by done. by rewrite E.
Qed.

Lemma add_discard_idempotent_witness :
  (exists s1 s2, add example_set 3%Z = Ok s1 /\ add s1 3%Z = Ok s2 /\
     len s2 = len s1 /\ (forall j, contains s2 j = contains s1 j) /\ iter s2 = iter s1) /\
  (contains example_set 3%Z = Ok false ->
   exists s3, discard example_set 3%Z = Ok s3 /\
     len s3 = len example_set /\ (forall j, contains s3 j = contains example_set j) /\
     iter s3 = iter example_set).
Proof. apply (add_discard_idempotent 2); [lia|reach [Add 1; Add 2; Add 3; Add 4]%Z]. Defined.

(** C8. [Node.search] postcondition: on a node whose keys are strictly
    increasing, [search(obj)] returns [(True, i)] when [keys[i]] is [obj],
    and otherwise [(False, i)] where [i] is the index of the first key
    greater than [obj], the number of keys if there is none: the keys from
    [i] on are exactly those greater than [obj].  The function reads the
    node and returns the pair only, so the node is as it was. *)
Theorem search_post (n : Node.t) (obj : Z) :
  sorted (Node.keys n) ->
  (forall i, Node.keys n !! i = Some obj -> Node.search n obj = (true, i)) /\
  (obj ∉ Node.keys n ->
   exists i, Node.search n obj = (false, i) /\ i <= length (Node.keys n) /\
     forall j k, Node.keys n !! j = Some k -> (obj < k)%Z <-> i <= j).
Proof.
  intros Hs. unfold Node.search.
  destruct (Node.search_from 0 (Node.keys n) obj) as [found i] eqn:E. split.
  - intros i0 Hi0. destruct found.
    + apply search_found in E. f_equal.
      eapply NoDup_lookup; [by apply sorted_NoDup|done..].
    + apply search_not_found in E as (_ & Hlt & Hgt); [|done].
      apply list_elem_of_lookup_2 in Hi0.
      rewrite <- (take_drop i (Node.keys n)) in Hi0. apply elem_of_app in Hi0 as [Hin|Hin].
      * eapply Forall_forall in Hlt; [|done]. lia.
      * eapply Forall_forall in Hgt; [|done]. lia.
  - intros Hn. destruct found.
    + apply search_found in E. apply list_elem_of_lookup_2 in E. done.
    + exists i. split; [done|].
      apply search_not_found in E as (Hi & Hlt & Hgt); [|done]. split; [done|].
      intros j k Hj. destruct (decide (i <= j)) as [Hij|Hij].
      * split; [done|]. intros _.
        assert (drop i (Node.keys n) !! (j - i) = Some k) as Hd.
        { rewrite lookup_drop. by replace (i + (j - i)) with j by lia. }
        apply list_elem_of_lookup_2 in Hd. by eapply Forall_forall in Hgt.
      * split; [|lia]. intros Hk.
        assert (take i (Node.keys n) !! j = Some k) as Ht
          by (rewrite lookup_take_lt by lia; done).
        apply list_elem_of_lookup_2 in Ht. eapply Forall_forall in Hlt; [|done]. lia.
Qed.

Lemma search_post_witness :
  let n := Node.mk 3 [2; 5; 8]%Z None in
  (forall i, Node.keys n !! i = Some 6%Z -> Node.search n 6 = (true, i)) /\
  (6%Z ∉ Node.keys n ->
   exists i, Node.search n 6 = (false, i) /\ i <= length (Node.keys n) /\
     forall j k, Node.keys n !! j = Some k -> (6 < k)%Z <-> i <= j).
Proof.
  apply (search_post (Node.mk 3 [2; 5; 8]%Z None) 6).
  unfold sorted. cbn. repeat constructor; lia.
Defined.

(** C6. [split] postcondition: on a node of a valid tree of degree [t] that
    holds [maxkeys] keys, [split()] returns the key at index [min_keys] and a
    new right node of the same kind; the right node has the [min_keys] keys
    after that key and, if internal, the [min_keys + 1] children after the
    first [min_keys + 1]; the node itself keeps its first [min_keys] keys
    and, if internal, its first [min_keys + 1] children; both are nodes of a
    valid tree of the same depth, and the keys of the node were those it
    keeps, then the returned key, then those of the right node. *)
Theorem split_post (t lb d : nat) (n : Node.t) :
  2 <= t -> shape (t - 1) (2 * t - 1) lb d n -> length (Node.keys n) = Node.maxkeys n ->
  exists mid r l,
    Node.split n = Ok (mid, r, l) /\
    Node.min_keys n = t - 1 /\
    Node.keys n !! Node.min_keys n = Some mid /\
    Node.is_leaf r = Node.is_leaf n /\ Node.is_leaf l = Node.is_leaf n /\
    Node.maxkeys r = Node.maxkeys n /\ Node.maxkeys l = Node.maxkeys n /\
    Node.keys r = drop (Node.min_keys n + 1) (Node.keys n) /\
    Node.keys l = take (Node.min_keys n) (Node.keys n) /\
    length (Node.keys r) = Node.min_keys n /\ length (Node.keys l) = Node.min_keys n /\
    (forall cs, Node.children n = Some cs ->
       Node.children r = Some (drop (Node.min_keys n + 1) cs) /\
       Node.children l = Some (take (Node.min_keys n + 1) cs) /\
       length (drop (Node.min_keys n + 1) cs) = Node.min_keys n + 1 /\
       length (take (Node.min_keys n + 1) cs) = Node.min_keys n + 1) /\
    Node.keys n = Node.keys l ++ [mid] ++ Node.keys r /\
    shape (t - 1) (2 * t - 1) (t - 1) d l /\ shape (t - 1) (2 * t - 1) (t - 1) d r.
Proof.
  intros Ht Hs Hfull.
  pose proof (deg_mn t Ht) as Hmn. pose proof (deg_mx t Ht) as Hmx.
  pose proof (shape_maxkeys _ _ Hmx _ _ _ Hs) as Hm. rewrite Hm in Hfull.
  pose proof (shape_min_keys _ _ Hmn Hmx _ _ _ Hs) as Hmin.
  destruct (split_eq _ _ Hmn Hmx _ _ _ Hs Hfull) as (mid & Hmid & Heq).
  destruct (split_spec _ _ Hmn Hmx _ _ _ Hs Hfull)
    as (mid' & r & l & Heq' & Hks & Hl & Hr & Hsl & Hsr & _).
  rewrite Heq in Heq'. injection Heq' as <- <- <-.
  eexists _, _, _. split; [exact Heq|]. rewrite Hmin, Hm.
  replace (t - 1 + 1) with (S (t - 1)) by lia.
  cbn [Node.keys Node.children Node.maxkeys] in *.
  split_and!; try done.
  - unfold Node.is_leaf. cbn. by destruct (Node.children n).
  - unfold Node.is_leaf. cbn. by destruct (Node.children n).
  - intros cs Hch. rewrite Hch. cbn.
    destruct d as [|d]; [apply shape_0 in Hs as (_ & _ & ?); [congruence|done]|].
    destruct (shape_children _ _ Hmx _ _ _ _ Hs Hch) as [Hclen _].
    rewrite length_drop, length_take. split_and!; try done; lia.
Qed.

Lemma split_post_witness :
  let n := Node.mk 3 [2; 5; 8]%Z None in
  exists mid r l,
    Node.split n = Ok (mid, r, l) /\
    Node.min_keys n = 2 - 1 /\
    Node.keys n !! Node.min_keys n = Some mid /\
    Node.is_leaf r = Node.is_leaf n /\ Node.is_leaf l = Node.is_leaf n /\
    Node.maxkeys r = Node.maxkeys n /\ Node.maxkeys l = Node.maxkeys n /\
    Node.keys r = drop (Node.min_keys n + 1) (Node.keys n) /\
    Node.keys l = take (Node.min_keys n) (Node.keys n) /\
    length (Node.keys r) = Node.min_keys n /\ length (Node.keys l) = Node.min_keys n /\
    (forall cs, Node.children n = Some cs ->
       Node.children r = Some (drop (Node.min_keys n + 1) cs) /\
       Node.children l = Some (take (Node.min_keys n + 1) cs) /\
       length (drop (Node.min_keys n + 1) cs) = Node.min_keys n + 1 /\
       length (take (Node.min_keys n + 1) cs) = Node.min_keys n + 1) /\
    Node.keys n = Node.keys l ++ [mid] ++ Node.keys r /\
    shape (2 - 1) (2 * 2 - 1) (2 - 1) 0 l /\ shape (2 - 1) (2 * 2 - 1) (2 - 1) 0 r.
Proof.
  apply (split_post 2 0 0 (Node.mk 3 [2; 5; 8]%Z None)); [lia| |reflexivity].
  vm_compute. repeat split; lia.
Defined.

(** C7. [merge_children] postcondition: on an internal node of a valid tree
    with at least one key, whose children at [index] and [index + 1] both
    have [min_keys] keys, [merge_children(index)] takes the key at [index]
    and the child at [index + 1] out of the node, and the child at [index]
    ends with its own keys, then that key, then the keys of the right child
    and, if internal, with its own children followed by those of the right
    child: [2 * min_keys + 1 = maxkeys] keys.  On any node,
    [merge_children] raises [RuntimeError] when the node is a leaf, when it
    has no key, and when one of the two children has not [min_keys] keys. *)
Theorem merge_children_post (t lb d : nat) (n : Node.t) (cs : list Node.t) (index : nat)
    (l r : Node.t) :
  2 <= t -> shape (t - 1) (2 * t - 1) (S lb) (S d) n ->
  Node.children n = Some cs -> cs !! index = Some l -> cs !! (index + 1) = Some r ->
  length (Node.keys l) = Node.min_keys n -> length (Node.keys r) = Node.min_keys n ->
  (exists sep n' l',
     Node.merge_children n index = Ok n' /\
     Node.keys n !! index = Some sep /\
     Node.maxkeys n' = Node.maxkeys n /\
     Node.keys n' = delete index (Node.keys n) /\
     Node.children n' = Some (<[index:=l']> (delete (index + 1) cs)) /\
     <[index:=l']> (delete (index + 1) cs) !! index = Some l' /\
     Node.maxkeys l' = Node.maxkeys l /\
     Node.keys l' = Node.keys l ++ [sep] ++ Node.keys r /\
     Node.children l' = match Node.children l, Node.children r with
                        | Some lcs, Some rcs => Some (lcs ++ rcs)
                        | _, _ => None
                        end /\
     Node.is_leaf l' = Node.is_leaf l /\
     length (Node.keys l') = 2 * Node.min_keys n + 1 /\
     length (Node.keys l') = Node.maxkeys n /\
     elements n' = elements n /\
     shape (t - 1) (2 * t - 1) lb (S d) n') /\
  (forall (m : Node.t) (j : nat),
     Node.is_leaf m = true \/ Node.keys m = [] ->
     Node.merge_children m j = Raise RuntimeError) /\
  (forall (m : Node.t) (mcs : list Node.t) (j : nat) (a b : Node.t),
     Node.children m = Some mcs -> Node.keys m <> [] ->
     mcs !! j = Some a -> mcs !! (j + 1) = Some b ->
     length (Node.keys a) <> Node.min_keys m \/ length (Node.keys b) <> Node.min_keys m ->
     Node.merge_children m j = Raise RuntimeError).
Proof.
  intros Ht Hs Hch Hl Hr Hlk Hrk.
  pose proof (deg_mn t Ht) as Hmn. pose proof (deg_mx t Ht) as Hmx.
  pose proof (shape_maxkeys _ _ Hmx _ _ _ Hs) as Hm.
  pose proof (shape_min_keys _ _ Hmn Hmx _ _ _ Hs) as Hmin.
  rewrite Hmin in Hlk, Hrk.
  destruct (shape_children _ _ Hmx _ _ _ _ Hs Hch) as [Hclen Hf].
  pose proof (Forall_lookup_1 _ _ _ _ Hf Hl) as Hsl.
  pose proof (Forall_lookup_1 _ _ _ _ Hf Hr) as Hsr.
  split_and!.
  - destruct (merge_case _ _ Hmn Hmx _ _ _ _ _ _ _ Hs Hch Hl Hr Hlk Hrk)
      as (sep & Hsep & Hmerge & Hw & _).
    cbv zeta in Hmerge, Hw.
    pose proof (widened_elements _ _ Hmx _ _ _ _ _ _ Hs Hw) as Hel.
    destruct Hw as (? & ? & ? & ? & ? & ? & _ & _ & _ & _ & Hs' & _).
    apply lookup_lt_Some in Hr as Hlt.
    eexists sep, _, (merged l sep r). split; [exact Hmerge|].
    cbn [Node.keys Node.children Node.maxkeys merged].
    split_and!; try done.
    + apply list_lookup_insert_eq. rewrite length_delete by eauto. lia.
    + rewrite (shape_is_leaf _ _ Hmx _ _ _ Hsl) in *.
      pose proof (shape_is_leaf _ _ Hmx _ _ _ Hsl) as Hll.
      pose proof (shape_is_leaf _ _ Hmx _ _ _ Hsr) as Hrl.
      unfold Node.is_leaf in *. cbn.
      destruct (Node.children l), (Node.children r); try done; congruence.
    + rewrite length_app. cbn. rewrite Hmin. lia.
    + rewrite length_app. cbn. lia.
  - intros m j [Hleaf|Hk]; unfold Node.merge_children, Node.is_leaf in *.
    + by destruct (Node.children m).
    + destruct (Node.children m); [|done]. rewrite Hk. done.
  - intros m mcs j a b Hmch Hmk Ha Hb Hne. unfold Node.merge_children.
    rewrite Hmch. unfold guard. rewrite decide_True by (by destruct (Node.keys m)).
    cbn [bind]. rewrite (py_slice2_eq _ _ Hmn Hmx _ _ _ _ Ha Hb). cbn [bind fst snd].
    rewrite decide_False by lia. done.
Qed.

Lemma merge_children_post_witness :
  let l := Node.mk 3 [1]%Z None in
  let r := Node.mk 3 [3]%Z None in
  let cs := [l; r; Node.mk 3 [5; 6]%Z None] in
  let n := Node.mk 3 [2; 4]%Z (Some cs) in
  (exists sep n' l',
     Node.merge_children n 0 = Ok n' /\
     Node.keys n !! 0 = Some sep /\
     Node.maxkeys n' = Node.maxkeys n /\
     Node.keys n' = delete 0 (Node.keys n) /\
     Node.children n' = Some (<[0:=l']> (delete (0 + 1) cs)) /\
     <[0:=l']> (delete (0 + 1) cs) !! 0 = Some l' /\
     Node.maxkeys l' = Node.maxkeys l /\
     Node.keys l' = Node.keys l ++ [sep] ++ Node.keys r /\
     Node.children l' = match Node.children l, Node.children r with
                        | Some lcs, Some rcs => Some (lcs ++ rcs)
                        | _, _ => None
                        end /\
     Node.is_leaf l' = Node.is_leaf l /\
     length (Node.keys l') = 2 * Node.min_keys n + 1 /\
     length (Node.keys l') = Node.maxkeys n /\
     elements n' = elements n /\
     shape (2 - 1) (2 * 2 - 1) 1 (S 0) n') /\
  (forall (m : Node.t) (j : nat),
     Node.is_leaf m = true \/ Node.keys m = [] ->
     Node.merge_children m j = Raise RuntimeError) /\
  (forall (m : Node.t) (mcs : list Node.t) (j : nat) (a b : Node.t),
     Node.children m = Some mcs -> Node.keys m <> [] ->
     mcs !! j = Some a -> mcs !! (j + 1) = Some b ->
     length (Node.keys a) <> Node.min_keys m \/ length (Node.keys b) <> Node.min_keys m ->
     Node.merge_children m j = Raise RuntimeError).
Proof.
  apply (merge_children_post 2 1 0
           (Node.mk 3 [2; 4]%Z
              (Some [Node.mk 3 [1]%Z None; Node.mk 3 [3]%Z None; Node.mk 3 [5; 6]%Z None]))
           [Node.mk 3 [1]%Z None; Node.mk 3 [3]%Z None; Node.mk 3 [5; 6]%Z None] 0
           (Node.mk 3 [1]%Z None) (Node.mk 3 [3]%Z None));
    [lia| |reflexivity..].
  vm_compute. repeat split; repeat constructor; lia.
Defined.

(** C5. [ensure_child_remove] policy and postcondition: on an internal node
    [n] of a valid tree and a child [c = children[index]]:
    - if [c] has more than [min_keys] keys, nothing changes and [c] is
      returned;
    and if [c] has [min_keys] keys,
    - (1) if the left sibling exists and has more than [min_keys] keys, its
      last key goes up to replace the separating key, which goes in front of
      the keys of [c], and for internal children the last child of the
      sibling goes in front of the children of [c];
    - (2) else if the right sibling exists and has more than [min_keys]
      keys, the same from the right;
    - (3) else if the left sibling exists, [c] is merged into it and the
      left sibling, at [index - 1], is returned;
    - (4) else the right sibling is merged into [c], which is returned.
    In every case the call succeeds, the returned child [c'] has more than
    [min_keys] keys and stands where [c] stood: it lists the keys of [c]
    together with a part [X] of what the node listed before [c] and a part
    [Y] of what it listed after [c]; the listing of the whole node, hence
    the multiset of its keys, is the same. *)
Theorem ensure_child_remove_policy (t lb d : nat) (n : Node.t) (cs : list Node.t)
    (index : nat) (c : Node.t) :
  2 <= t -> shape (t - 1) (2 * t - 1) (S lb) (S d) n ->
  Node.children n = Some cs -> cs !! index = Some c ->
  let mn := Node.min_keys n in
  let no_spare (sibling : option Node.t) :=
    forall x, sibling = Some x -> length (Node.keys x) <= mn in
  (mn < length (Node.keys c) -> Node.ensure_child_remove n index = Ok (n, index)) /\
  (length (Node.keys c) = mn ->
     (forall l, left_sibling cs index = Some l -> mn < length (Node.keys l) ->
        exists sep lk,
          Node.keys n !! (index - 1) = Some sep /\ last (Node.keys l) = Some lk /\
          Node.ensure_child_remove n index =
            Ok (Node.mk (Node.maxkeys n) (<[index - 1:=lk]> (Node.keys n))
                  (Some (<[index:=push_front sep (last_child l) c]>
                           (<[index - 1:=drop_last_item l]> cs))), index)) /\
     (forall r, no_spare (left_sibling cs index) ->
        right_sibling cs index = Some r -> mn < length (Node.keys r) ->
        exists sep rk,
          Node.keys n !! index = Some sep /\ head (Node.keys r) = Some rk /\
          Node.ensure_child_remove n index =
            Ok (Node.mk (Node.maxkeys n) (<[index:=rk]> (Node.keys n))
                  (Some (<[index:=push_back sep (first_child r) c]>
                           (<[index + 1:=drop_first_item r]> cs))), index)) /\
     (forall l, left_sibling cs index = Some l -> length (Node.keys l) <= mn ->
        no_spare (right_sibling cs index) ->
        exists sep,
          Node.keys n !! (index - 1) = Some sep /\
          Node.ensure_child_remove n index =
            Ok (Node.mk (Node.maxkeys n) (delete (index - 1) (Node.keys n))
                  (Some (<[index - 1:=merged l sep c]> (delete index cs))), index - 1)) /\
     (forall r, left_sibling cs index = None ->
        right_sibling cs index = Some r -> length (Node.keys r) <= mn ->
        exists sep,
          Node.keys n !! index = Some sep /\
          Node.ensure_child_remove n index =
            Ok (Node.mk (Node.maxkeys n) (delete index (Node.keys n))
                  (Some (<[index:=merged c sep r]> (delete (index + 1) cs))), index))) /\
  (exists n' index' cs' c' X Y,
     Node.ensure_child_remove n index = Ok (n', index') /\
     Node.children n' = Some cs' /\ cs' !! index' = Some c' /\
     mn < length (Node.keys c') /\
     before (Node.keys n) cs index = before (Node.keys n') cs' index' ++ X /\
     after (Node.keys n) cs index = Y ++ after (Node.keys n') cs' index' /\
     elements c' = X ++ elements c ++ Y /\
     elements n' = elements n /\ elements n' ≡ₚ elements n /\
     shape (t - 1) (2 * t - 1) lb (S d) n' /\ shape (t - 1) (2 * t - 1) (t - 1) d c').
Proof.
  intros Ht Hs Hch Hc mn no_spare.
  pose proof (deg_mn t Ht) as Hmn. pose proof (deg_mx t Ht) as Hmx.
  pose proof (shape_min_keys _ _ Hmn Hmx _ _ _ Hs) as Hmin.
  pose proof (shape_length _ _ Hmx _ _ _ Hs) as Hlen.
  destruct (shape_children _ _ Hmx _ _ _ _ Hs Hch) as [Hclen Hf].
  pose proof (Forall_lookup_1 _ _ _ _ Hf Hc) as Hsc.
  apply lookup_lt_Some in Hc as Hi.
  subst mn no_spare. cbv beta. rewrite Hmin. split_and!.
  - intros Hspare. unfold Node.ensure_child_remove, py_get. rewrite Hch, Hc, Hmin.
    cbn [bind]. by rewrite decide_True.
  - intros Hck.
    assert (Node.ensure_child_remove n index =
            Node.rebalance n cs index c (left_sibling cs index) (right_sibling cs index))
      as Heq.
    { apply (ensure_child_remove_eq _ _ Hmn Hmx); try done; try lia.
      eapply Forall_impl; [done|]. intros x Hx. cbn.
      by rewrite (shape_is_leaf _ _ Hmx _ _ _ Hx), (shape_is_leaf _ _ Hmx _ _ _ Hsc). }
    rewrite Heq. unfold Node.rebalance. split_and!.
    + intros l Hl Hls. rewrite Hl. rewrite (has_spare_true (t - 1)) by done.
      unfold left_sibling in Hl. case_decide as Hi1; [|done].
      destruct (steal_left_case _ _ Hmn Hmx _ _ _ _ _ _ _ Hs Hch Hi1 Hc Hl Hls Hck)
        as (sep & lk & ? & ? & ? & _). eauto.
    + intros r Hno Hr Hrs.
      assert (Node.has_spare n (left_sibling cs index) = false) as Hnl.
      { destruct (left_sibling cs index) as [l|] eqn:Hl; [|done].
        apply (has_spare_false (t - 1)); [done|]. specialize (Hno l eq_refl). lia. }
      unfold right_sibling in Hr.
      destruct (steal_right_case _ _ Hmn Hmx _ _ _ _ _ _ _ Hs Hch Hc Hr Hrs Hck)
        as (sep & rk & ? & ? & Hst & _).
      exists sep, rk. split; [done|]. split; [done|].
      rewrite Hnl. unfold right_sibling. rewrite Hr.
      rewrite (has_spare_true (t - 1)) by done.
      by destruct (left_sibling cs index).
    + intros l Hl Hls Hno. rewrite Hl.
      rewrite (has_spare_false (t - 1)) by (done || lia).
      assert (Node.has_spare n (right_sibling cs index) = false) as ->.
      { destruct (right_sibling cs index) as [r|] eqn:Hr; [|done].
        apply (has_spare_false (t - 1)); [done|]. specialize (Hno r eq_refl). lia. }
      unfold left_sibling in Hl. case_decide as Hi1; [|done].
      pose proof (Forall_lookup_1 _ _ _ _ Hf Hl) as Hsl.
      pose proof (shape_length _ _ Hmx _ _ _ Hsl) as Hllen.
      replace index with (index - 1 + 1) in Hc by lia.
      destruct (merge_case _ _ Hmn Hmx _ _ _ _ _ _ _ Hs Hch Hl Hc) as (sep & Hsep & Hm & _);
        [lia|lia|].
      cbv zeta in Hm. rewrite Hm. cbn [bind].
      replace (index - 1 + 1) with index by lia. eauto.
    + intros r Hl Hr Hrs. rewrite Hl, Hr.
      rewrite (has_spare_false (t - 1)) by (done || lia).
      unfold right_sibling in Hr.
      pose proof (Forall_lookup_1 _ _ _ _ Hf Hr) as Hsr.
      pose proof (shape_length _ _ Hmx _ _ _ Hsr) as Hrlen.
      destruct (merge_case _ _ Hmn Hmx _ _ _ _ _ _ _ Hs Hch Hc Hr) as (sep & Hsep & Hm & _);
        [lia|lia|].
      cbv zeta in Hm. rewrite Hm. cbn [bind]. eauto.
  - destruct (ensure_child_remove_spec _ _ Hmn Hmx lb d n index Hs) as (n' & i' & He & Hw);
      [lia|].
    pose proof (widened_elements _ _ Hmx _ _ _ _ _ _ Hs Hw) as Hel.
    destruct Hw as (cs0 & cs' & c0 & c' & X & Y & Hch0 & Hc0 & Hch' & Hc' & Hs' & Hsc' &
                    HX & HY & Hec).
    rewrite Hch in Hch0. injection Hch0 as <-. rewrite Hc in Hc0. injection Hc0 as <-.
    exists n', i', cs', c', X, Y. split_and!; try done.
    + apply (shape_length _ _ Hmx) in Hsc'. lia.
    + by rewrite Hel.
    + eapply (shape_weaken _ _ Hmn Hmx); [|done]. lia.
Qed.

Lemma ensure_child_remove_policy_witness :
  let c := Node.mk 3 [1]%Z None in
  let cs := [c; Node.mk 3 [3; 4]%Z None; Node.mk 3 [6]%Z None] in
  let n := Node.mk 3 [2; 5]%Z (Some cs) in
  let mn := Node.min_keys n in
  let no_spare (sibling : option Node.t) :=
    forall x, sibling = Some x -> length (Node.keys x) <= mn in
  (mn < length (Node.keys c) -> Node.ensure_child_remove n 0 = Ok (n, 0)) /\
  (length (Node.keys c) = mn ->
     (forall l, left_sibling cs 0 = Some l -> mn < length (Node.keys l) ->
        exists sep lk,
          Node.keys n !! (0 - 1) = Some sep /\ last (Node.keys l) = Some lk /\
          Node.ensure_child_remove n 0 =
            Ok (Node.mk (Node.maxkeys n) (<[0 - 1:=lk]> (Node.keys n))
                  (Some (<[0:=push_front sep (last_child l) c]>
                           (<[0 - 1:=drop_last_item l]> cs))), 0)) /\
     (forall r, no_spare (left_sibling cs 0) ->
        right_sibling cs 0 = Some r -> mn < length (Node.keys r) ->
        exists sep rk,
          Node.keys n !! 0 = Some sep /\ head (Node.keys r) = Some rk /\
          Node.ensure_child_remove n 0 =
            Ok (Node.mk (Node.maxkeys n) (<[0:=rk]> (Node.keys n))
                  (Some (<[0:=push_back sep (first_child r) c]>
                           (<[0 + 1:=drop_first_item r]> cs))), 0)) /\
     (forall l, left_sibling cs 0 = Some l -> length (Node.keys l) <= mn ->
        no_spare (right_sibling cs 0) ->
        exists sep,
          Node.keys n !! (0 - 1) = Some sep /\
          Node.ensure_child_remove n 0 =
            Ok (Node.mk (Node.maxkeys n) (delete (0 - 1) (Node.keys n))
                  (Some (<[0 - 1:=merged l sep c]> (delete 0 cs))), 0 - 1)) /\
     (forall r, left_sibling cs 0 = None ->
        right_sibling cs 0 = Some r -> length (Node.keys r) <= mn ->
        exists sep,
          Node.keys n !! 0 = Some sep /\
          Node.ensure_child_remove n 0 =
            Ok (Node.mk (Node.maxkeys n) (delete 0 (Node.keys n))
                  (Some (<[0:=merged c sep r]> (delete (0 + 1) cs))), 0))) /\
  (exists n' i' cs' c' X Y,
     Node.ensure_child_remove n 0 = Ok (n', i') /\
     Node.children n' = Some cs' /\ cs' !! i' = Some c' /\
     mn < length (Node.keys c') /\
     before (Node.keys n) cs 0 = before (Node.keys n') cs' i' ++ X /\
     after (Node.keys n) cs 0 = Y ++ after (Node.keys n') cs' i' /\
     elements c' = X ++ elements c ++ Y /\
     elements n' = elements n /\ elements n' ≡ₚ elements n /\
     shape (2 - 1) (2 * 2 - 1) 0 (S 0) n' /\ shape (2 - 1) (2 * 2 - 1) (2 - 1) 0 c').
Proof.
  intros c cs n. apply (ensure_child_remove_policy 2 0 0 n cs 0 c); [lia| |reflexivity..].
  vm_compute. repeat split; repeat constructor; lia.
Defined.

(** The height computed by [check_structure] is the number of levels. *)
Lemma Inv_height t s :
  2 <= t -> Inv t s ->
  exists d, root_ok (t - 1) (2 * t - 1) d (root s) /\
    height (root s) = Ok d /\ Node.levels (root s) = d.
Proof.
  intros Ht [_ _ (d & Hr) _ _]. exists d. split; [done|]. destruct Hr as [Hs _]. split.
  - by eapply (height_spec _ _ (deg_mn t Ht) (deg_mx t Ht)).
  - by eapply (shape_levels _ _ (deg_mx t Ht)).
Qed.

(** C10, as stated, fails: the set of degree 2 holding 1, 2, 3, 4 has height
    1, and [clear()] takes it to height 0 without any call of [_remove]. *)
Lemma height_decrease_not_only_by_remove :
  ~ (forall (s s' : BTreeSet) (op : Op) (h h' : nat),
       reachable 2 s -> step s op = Ok s' ->
       height (root s) = Ok h -> height (root s') = Ok h' -> h' < h ->
       exists k, op = Remove k \/ op = Discard k).
Proof.
  intros H.
  destruct (H example_set {| minkeys := 1; maxkeys := 3; root := Node.mk 3 [] None; size := 0 |}
              Clear 1 0) as (k & [?|?]); try done; try lia.
  reach [Add 1; Add 2; Add 3; Add 4]%Z.
Qed.

(** C10, amended. Root-size coupling: in every reachable state, if
    [size <= 2 * minkeys] the root is a leaf that holds [size] keys, if
    [size > maxkeys] the root is internal, and an internal root implies
    [size >= 2 * minkeys + 1]; the height is zero exactly when the root is a
    leaf.  Every call succeeds, and the height changes as follows: [add]
    adds one to it exactly when the root holds [maxkeys] keys at the call
    (the root split) and leaves it otherwise; [remove] and [discard] leave
    it or take one from it, the latter only when the root held a single key
    (the root collapse of [_remove]); [clear] sets it to zero. *)
Theorem root_size_coupling (degree : Z) (s : BTreeSet) :
  (2 <= degree)%Z -> reachable degree s ->
  ((size s <= 2 * Z.of_nat (minkeys s))%Z ->
     Node.is_leaf (root s) = true /\ Z.of_nat (length (Node.keys (root s))) = size s) /\
  ((size s > Z.of_nat (maxkeys s))%Z -> Node.is_leaf (root s) = false) /\
  (Node.is_leaf (root s) = false -> (size s >= 2 * Z.of_nat (minkeys s) + 1)%Z) /\
  exists h, height (root s) = Ok h /\
    (h = 0 <-> Node.is_leaf (root s) = true) /\
    forall op, exists s' h',
      step s op = Ok s' /\ height (root s') = Ok h' /\
      match op with
      | Add _ => h' = if decide (length (Node.keys (root s)) = maxkeys s) then S h else h
      | Remove _ | Discard _ => h' = h \/ (S h' = h /\ length (Node.keys (root s)) = 1)
      | Clear => h' = 0
      end.
Proof.
  intros Hd Hr. pose proof (reachable_Inv degree s Hd Hr) as Hi.
  pose proof (degree_nat degree Hd) as Ht.
  set (t := Z.to_nat degree) in *.
  pose proof (deg_mn t Ht) as Hmn. pose proof (deg_mx t Ht) as Hmx.
  destruct (Inv_height t s Ht Hi) as (d & [Hs Hk] & Hh & Hlev).
  pose proof (Inv_size_nat t s Hi) as Hsize.
  pose proof (inv_minkeys t s Hi) as Hmin. pose proof (inv_maxkeys t s Hi) as Hmax.
  pose proof (shape_is_leaf _ _ Hmx _ _ _ Hs) as Hleaf.
  pose proof (shape_length _ _ Hmx _ _ _ Hs) as Hlen.
  assert (d = 0 -> contents s = Node.keys (root s)) as Hd0.
  { intros ->. by eapply (leaf_size _ _ Hmx). }
  assert (d <> 0 -> 2 * (t - 1) + 1 <= length (contents s)) as HdS.
  { intros Hne. destruct d as [|d]; [done|].
    eapply (internal_size _ _ Hmn Hmx); [done|]. by apply Hk. }
  rewrite Hleaf, Hsize, Hmin, Hmax. split_and!.
  - intros Hle. destruct (decide (d = 0)) as [Hz|Hz]; [|specialize (HdS Hz); lia].
    rewrite bool_decide_eq_true. split; [done|]. by rewrite Hd0.
  - intros Hgt. rewrite bool_decide_eq_false. intros Hz. rewrite Hd0 in Hgt by done. lia.
  - rewrite bool_decide_eq_false. intros Hz. specialize (HdS Hz). lia.
  - exists d. split; [done|]. split; [by rewrite bool_decide_eq_true|].
    intros [k|k|k|]; cbn [step].
    + destruct (add_spec t Ht s k Hi) as (s' & -> & Hi' & _ & Hl').
      destruct (Inv_height t s' Ht Hi') as (d' & _ & Hh' & Hlev').
      exists s', d'. split; [done|]. split; [done|]. rewrite <- Hlev', Hl', Hlev, Hmax. done.
    + destruct (_remove_spec t Ht s k Hi) as (s' & He & Hi' & _ & _ & _ & Hl' & Hone).
      destruct (Inv_height t s' Ht Hi') as (d' & _ & Hh' & Hlev').
      unfold remove. rewrite He. cbn. destruct (mem k (contents s)); cbn;
        (exists s', d'; split; [done|]; split; [done|]; lia).
    + destruct (_remove_spec t Ht s k Hi) as (s' & He & Hi' & _ & _ & _ & Hl' & Hone).
      destruct (Inv_height t s' Ht Hi') as (d' & _ & Hh' & Hlev').
      unfold discard. rewrite He. cbn.
      exists s', d'. split; [done|]. split; [done|]. lia.
    + destruct (clear_spec t Ht s Hi) as (s' & -> & Hi' & Hc').
      destruct (Inv_height t s' Ht Hi') as (d' & [Hs' Hk'] & Hh' & Hlev').
      exists s', d'. split; [done|]. split; [done|].
      destruct d' as [|d']; [done|].
      pose proof (internal_size _ _ Hmn Hmx _ _ _ Hs' (Hk' ltac:(done))) as Hsz.
      unfold contents in Hc'. rewrite Hc' in Hsz. cbn in Hsz. lia.
Qed.

Lemma root_size_coupling_witness :
  let s := example_set in
  ((size s <= 2 * Z.of_nat (minkeys s))%Z ->
     Node.is_leaf (root s) = true /\ Z.of_nat (length (Node.keys (root s))) = size s) /\
  ((size s > Z.of_nat (maxkeys s))%Z -> Node.is_leaf (root s) = false) /\
  (Node.is_leaf (root s) = false -> (size s >= 2 * Z.of_nat (minkeys s) + 1)%Z) /\
  exists h, height (root s) = Ok h /\
    (h = 0 <-> Node.is_leaf (root s) = true) /\
    forall op, exists s' h',
      step s op = Ok s' /\ height (root s') = Ok h' /\
      match op with
      | Add _ => h' = if decide (length (Node.keys (root s)) = maxkeys s) then S h else h
      | Remove _ | Discard _ => h' = h \/ (S h' = h /\ length (Node.keys (root s)) = 1)
      | Clear => h' = 0
      end.
Proof. apply (root_size_coupling 2); [lia|reach [Add 1; Add 2; Add 3; Add 4]%Z]. Defined.

(** ** Further properties of the public interface *)

(** Two strictly increasing lists with the same items are equal. *)
Lemma sorted_ext l1 l2 :
  sorted l1 -> sorted l2 -> (forall x, x ∈ l1 <-> x ∈ l2) -> l1 = l2.
Proof.
  revert l2. induction l1 as [|x l1 IH]; intros [|y l2] H1 H2 Hext.
  - done.
  - specialize (Hext y). rewrite elem_of_nil in Hext. exfalso. apply Hext. by left.
  - specialize (Hext x). rewrite elem_of_nil in Hext. exfalso. apply Hext. by left.
  - apply sorted_cons in H1 as [Hx H1]. apply sorted_cons in H2 as [Hy H2].
    rewrite Forall_forall in Hx, Hy.
    assert (x = y) as ->.
    { pose proof (proj1 (Hext x) ltac:(by left)) as Hxy.
      pose proof (proj2 (Hext y) ltac:(by left)) as Hyx.
      apply elem_of_cons in Hxy as [?|Hxy]; [done|].
      apply elem_of_cons in Hyx as [?|Hyx]; [done|].
      apply Hy in Hxy. apply Hx in Hyx. lia. }
    f_equal. apply IH; [done..|]. intros z. split; intros Hz.
    + pose proof (proj1 (Hext z) ltac:(by right)) as Hz'.
      apply elem_of_cons in Hz' as [->|?]; [|done]. apply Hx in Hz. lia.
    + pose proof (proj2 (Hext z) ltac:(by right)) as Hz'.
      apply elem_of_cons in Hz' as [->|?]; [|done]. apply Hy in Hz. lia.
Qed.

Lemma del_ins_absent k l : sorted l -> k ∉ l -> del k (ins k l) = l.
Proof.
  intros Hs Hk. apply sorted_ext; [by apply sorted_del, sorted_ins|done|].
  intros x. rewrite elem_of_del, elem_of_ins. split; [naive_solver|].
  intros Hx. split; [by intros ->|by right].
Qed.

Lemma ins_del_present k l : sorted l -> k ∈ l -> ins k (del k l) = l.
Proof.
  intros Hs Hk. apply sorted_ext; [by apply sorted_ins, sorted_del|done|].
  intros x. rewrite elem_of_ins, elem_of_del. split; [naive_solver|].
  intros Hx. destruct (decide (x = k)); [by left|by right].
Qed.

Lemma sorted_apply_op op l : sorted l -> sorted (apply_op op l).
Proof.
  destruct op; cbn; [apply sorted_ins|apply sorted_del|apply sorted_del|intros; apply sorted_nil].
Qed.

Lemma elem_of_apply_op x op l :
  x ∈ apply_op op l <->
  match op with
  | Add k => x = k \/ x ∈ l
  | Remove k | Discard k => x <> k /\ x ∈ l
  | Clear => False
  end.
Proof. destruct op; cbn; [apply elem_of_ins|apply elem_of_del|apply elem_of_del|apply elem_of_nil]. Qed.

Lemma apply_op_comm op1 op2 j k l :
  op_key op1 = Some j -> op_key op2 = Some k -> j <> k -> sorted l ->
  apply_op op2 (apply_op op1 l) = apply_op op1 (apply_op op2 l).
Proof.
  intros H1 H2 Hjk Hs. apply sorted_ext; [by do 2 apply sorted_apply_op..|].
  intros x. rewrite !elem_of_apply_op.
  destruct op1, op2; simplify_eq/=;
    try (repeat (rewrite elem_of_ins || rewrite elem_of_del); naive_solver).
Qed.

Lemma run_contents t (Ht : 2 <= t) s ops :
  Inv t s ->
  exists s', run s ops = Ok s' /\ Inv t s' /\
    contents s' = foldl (fun l op => apply_op op l) (contents s) ops.
Proof.
  revert s. induction ops as [|op ops IH]; intros s Hi; [by exists s|].
  destruct (step_spec t Ht s op Hi) as (s1 & Hstep & Hi1 & Hc1 & _).
  destruct (IH s1 Hi1) as (s' & Hrun & Hi' & Hc').
  exists s'. cbn [run foldl]. rewrite Hstep. cbn [bind]. split; [done|]. split; [done|].
  rewrite Hc', Hc1. by destruct op.
Qed.

Lemma Inv_len t s : Inv t s -> len s = Z.of_nat (length (contents s)).
Proof. apply Inv_size_nat. Qed.

(** X1. [add(k)]: afterwards [k] is in the set, the membership of every
    other key is what it was, the size has grown by one if [k] was absent
    and is unchanged if it was present, and the structure is valid. *)
Theorem add_contains (degree : Z) (s : BTreeSet) (k : Z) :
  (2 <= degree)%Z -> reachable degree s ->
  exists present s',
    contains s k = Ok present /\ add s k = Ok s' /\
    contains s' k = Ok true /\
    (forall j, j <> k -> contains s' j = contains s j) /\
    len s' = (if present then len s else len s + 1)%Z /\
    check_structure s' = Ok tt.
Proof.
  intros Hd Hr. pose proof (reachable_Inv degree s Hd Hr) as Hi.
  pose proof (degree_nat degree Hd) as Ht.
  destruct (add_spec _ Ht s k Hi) as (s' & Ha & Hi' & Hc & _).
  exists (mem k (contents s)), s'.
  rewrite !(contains_spec _ Ht) by done. rewrite (check_structure_spec _ Ht) by done.
  rewrite !(Inv_len _ _ Hi), !(Inv_len _ _ Hi'), Hc.
  split_and!; try done.
  - by rewrite mem_ins, decide_True.
  - intros j Hj. rewrite !(contains_spec _ Ht) by done.
    by rewrite Hc, mem_ins, decide_False.
  - rewrite length_ins by (by destruct Hi). destruct (mem k (contents s)); lia.
Qed.

Lemma add_contains_witness :
  exists present s',
    contains example_set 7%Z = Ok present /\ add example_set 7%Z = Ok s' /\
    contains s' 7%Z = Ok true /\
    (forall j, j <> 7%Z -> contains s' j = contains example_set j) /\
    len s' = (if present then len example_set else len example_set + 1)%Z /\
    check_structure s' = Ok tt.
Proof. apply (add_contains 2); [lia|reach [Add 1; Add 2; Add 3; Add 4]%Z]. Defined.

(** X2. Iteration after a call: after [add(k)] the set yields the keys it
    yielded before with [k] put at its place in the order (the same keys if
    [k] was among them), after [remove(k)] and [discard(k)] the keys it
    yielded before without [k], after [clear()] nothing. *)
Theorem iter_step (degree : Z) (s : BTreeSet) (op : Op) :
  (2 <= degree)%Z -> reachable degree s ->
  exists l s',
    iter s = Ok l /\ step s op = Ok s' /\
    iter s' = Ok match op with
                 | Add k => filter (fun x => (x < k)%Z) l ++ k :: filter (fun x => (k < x)%Z) l
                 | Remove k | Discard k => filter (fun x => x <> k) l
                 | Clear => []
                 end.
Proof.
  intros Hd Hr. pose proof (reachable_Inv degree s Hd Hr) as Hi.
  pose proof (degree_nat degree Hd) as Ht.
  destruct (step_spec _ Ht s op Hi) as (s' & Hstep & Hi' & Hc & _).
  exists (contents s), s'. rewrite !(iter_spec _ Ht) by done.
  split; [done|]. split; [done|]. rewrite Hc. by destruct op.
Qed.

Lemma iter_step_witness :
  exists l s',
    iter example_set = Ok l /\ step example_set (Remove 2) = Ok s' /\
    iter s' = Ok (filter (fun x => x <> 2%Z) l).
Proof. apply (iter_step 2 example_set (Remove 2)); [lia|reach [Add 1; Add 2; Add 3; Add 4]%Z]. Defined.

(** X3. Removal of a key that is in the set: [remove(k)] raises nothing,
    and the membership of every other key is what it was. *)
Theorem remove_present (degree : Z) (s : BTreeSet) (k : Z) :
  (2 <= degree)%Z -> reachable degree s -> contains s k = Ok true ->
  exists s',
    remove s k = Ok (s', None) /\ discard s k = Ok s' /\
    forall j, j <> k -> contains s' j = contains s j.
Proof.
  intros Hd Hr Hk. pose proof (reachable_Inv degree s Hd Hr) as Hi.
  pose proof (degree_nat degree Hd) as Ht.
  rewrite (contains_spec _ Ht) in Hk by done. injection Hk as Hk.
  destruct (_remove_spec _ Ht s k Hi) as (s' & Hrem & Hi' & Hc & _).
  exists s'. unfold remove, discard. rewrite Hrem, Hk. cbn [bind].
  split; [done|]. split; [done|]. intros j Hj.
  rewrite !(contains_spec _ Ht) by done. by rewrite Hc, mem_del, decide_False.
Qed.

Lemma remove_present_witness :
  exists s',
    remove example_set 2%Z = Ok (s', None) /\ discard example_set 2%Z = Ok s' /\
    forall j, j <> 2%Z -> contains s' j = contains example_set j.
Proof.
  apply (remove_present 2); [lia|reach [Add 1; Add 2; Add 3; Add 4]%Z|reflexivity].
Defined.

(** X4. [add] then [remove]: for a key [k] that is not in the set, [add(k)]
    followed by [remove(k)] raises nothing and gives back the size, the
    iteration sequence and the membership of every key. *)
Theorem add_remove_roundtrip (degree : Z) (s : BTreeSet) (k : Z) :
  (2 <= degree)%Z -> reachable degree s -> contains s k = Ok false ->
  exists s1 s2,
    add s k = Ok s1 /\ remove s1 k = Ok (s2, None) /\
    len s2 = len s /\ iter s2 = iter s /\ forall j, contains s2 j = contains s j.
Proof.
  intros Hd Hr Hk. pose proof (reachable_Inv degree s Hd Hr) as Hi.
  pose proof (degree_nat degree Hd) as Ht.
  rewrite (contains_spec _ Ht) in Hk by done. injection Hk as Hk. apply mem_false in Hk.
  destruct (add_spec _ Ht s k Hi) as (s1 & Ha & Hi1 & Hc1 & _).
  destruct (remove_spec _ Ht s1 k Hi1) as (s2 & Hrem & Hi2 & Hc2).
  assert (contents s2 = contents s) as E.
  { rewrite Hc2, Hc1. apply del_ins_absent; [by destruct Hi|done]. }
  exists s1, s2. rewrite Hrem, Hc1, mem_ins, decide_True by done.
  rewrite !(iter_spec _ Ht) by done.
  rewrite (Inv_len _ _ Hi), (Inv_len _ _ Hi2), E. split_and!; try done.
  intros j. rewrite !(contains_spec _ Ht) by done. by rewrite E.
Qed.

Lemma add_remove_roundtrip_witness :
  exists s1 s2,
    add example_set 7%Z = Ok s1 /\ remove s1 7%Z = Ok (s2, None) /\
    len s2 = len example_set /\ iter s2 = iter example_set /\
    forall j, contains s2 j = contains example_set j.
Proof.
  apply (add_remove_roundtrip 2); [lia|reach [Add 1; Add 2; Add 3; Add 4]%Z|reflexivity].
Defined.

(** X5. [remove] then [add]: for a key [k] that is in the set, [remove(k)]
    followed by [add(k)] gives back the size, the iteration sequence and the
    membership of every key. *)
Theorem remove_add_roundtrip (degree : Z) (s : BTreeSet) (k : Z) :
  (2 <= degree)%Z -> reachable degree s -> contains s k = Ok true ->
  exists s1 s2,
    remove s k = Ok (s1, None) /\ add s1 k = Ok s2 /\
    len s2 = len s /\ iter s2 = iter s /\ forall j, contains s2 j = contains s j.
Proof.
  intros Hd Hr Hk. pose proof (reachable_Inv degree s Hd Hr) as Hi.
  pose proof (degree_nat degree Hd) as Ht.
  rewrite (contains_spec _ Ht) in Hk by done. injection Hk as Hk.
  destruct (remove_spec _ Ht s k Hi) as (s1 & Hrem & Hi1 & Hc1).
  destruct (add_spec _ Ht s1 k Hi1) as (s2 & Ha & Hi2 & Hc2 & _).
  rewrite Hk in Hrem. apply mem_true in Hk.
  assert (contents s2 = contents s) as E.
  { rewrite Hc2, Hc1. apply ins_del_present; [by destruct Hi|done]. }
  exists s1, s2. rewrite !(iter_spec _ Ht) by done.
  rewrite (Inv_len _ _ Hi), (Inv_len _ _ Hi2), E. split_and!; try done.
  intros j. rewrite !(contains_spec _ Ht) by done. by rewrite E.
Qed.

Lemma remove_add_roundtrip_witness :
  exists s1 s2,
    remove example_set 2%Z = Ok (s1, None) /\ add s1 2%Z = Ok s2 /\
    len s2 = len example_set /\ iter s2 = iter example_set /\
    forall j, contains s2 j = contains example_set j.
Proof.
  apply (remove_add_roundtrip 2); [lia|reach [Add 1; Add 2; Add 3; Add 4]%Z|reflexivity].
Defined.

(** X6. Calls about different keys commute: for two calls among [add],
    [remove] and [discard] on keys [j <> k], either order ends in a set of
    the same size, with the same iteration sequence and the same membership
    of every key, and a removal succeeds in one order exactly when it does
    in the other. *)
Theorem calls_commute (degree : Z) (s : BTreeSet) (op1 op2 : Op) (j k : Z) :
  (2 <= degree)%Z -> reachable degree s ->
  op_key op1 = Some j -> op_key op2 = Some k -> j <> k ->
  exists s12 s21,
    run s [op1; op2] = Ok s12 /\ run s [op2; op1] = Ok s21 /\
    len s12 = len s21 /\ iter s12 = iter s21 /\
    (forall x, contains s12 x = contains s21 x) /\
    (forall b1 b2 c2 c1,
       trace s [op1; op2] = [(op1, b1); (op2, b2)] ->
       trace s [op2; op1] = [(op2, c2); (op1, c1)] -> b1 = c1 /\ b2 = c2).
Proof.
  intros Hd Hr H1 H2 Hjk. pose proof (reachable_Inv degree s Hd Hr) as Hi.
  pose proof (degree_nat degree Hd) as Ht.
  destruct (step_spec _ Ht s op1 Hi) as (s1 & Hs1 & Hi1 & Hc1 & Hb1).
  destruct (step_spec _ Ht s1 op2 Hi1) as (s12 & Hs12 & Hi12 & Hc12 & Hb12).
  destruct (step_spec _ Ht s op2 Hi) as (s2 & Hs2 & Hi2 & Hc2 & Hb2).
  destruct (step_spec _ Ht s2 op1 Hi2) as (s21 & Hs21 & Hi21 & Hc21 & Hb21).
  assert (contents s12 = contents s21) as E.
  { change (contents s12 = apply_op op2 (contents s1)) in Hc12.
    change (contents s1 = apply_op op1 (contents s)) in Hc1.
    change (contents s21 = apply_op op1 (contents s2)) in Hc21.
    change (contents s2 = apply_op op2 (contents s)) in Hc2.
    rewrite Hc12, Hc1, Hc21, Hc2. eapply apply_op_comm; try done. by destruct Hi. }
  exists s12, s21. cbn [run trace]. rewrite Hs1, Hs2. cbn [bind]. rewrite Hs12, Hs21. cbn [bind].
  rewrite !(iter_spec _ Ht) by done.
  rewrite (Inv_len _ _ Hi12), (Inv_len _ _ Hi21), E. split_and!; try done.
  - intros x. rewrite !(contains_spec _ Ht) by done. by rewrite E.
  - intros b1 b2 c2 c1 [= <- <-] [= <- <-].
    rewrite Hb1, Hb12, Hb2, Hb21, Hc1, Hc2.
    destruct op1, op2; simplify_eq/=; rewrite ?mem_ins, ?mem_del, ?decide_False by done; done.
Qed.

Lemma calls_commute_witness :
  exists s12 s21,
    run example_set [Remove 2; Add 7] = Ok s12 /\ run example_set [Add 7; Remove 2] = Ok s21 /\
    len s12 = len s21 /\ iter s12 = iter s21 /\
    (forall x, contains s12 x = contains s21 x) /\
    (forall b1 b2 c2 c1,
       trace example_set [Remove 2; Add 7] = [(Remove 2, b1); (Add 7, b2)] ->
       trace example_set [Add 7; Remove 2] = [(Add 7, c2); (Remove 2, c1)] ->
       b1 = c1 /\ b2 = c2).
Proof.
  apply (calls_commute 2 example_set (Remove 2) (Add 7) 2 7);
    [lia|reach [Add 1; Add 2; Add 3; Add 4]%Z|reflexivity|reflexivity|lia].
Defined.

(** X7. Membership and iteration agree: [k in set] is true exactly when
    iterating the set yields [k]. *)
Theorem contains_iff_iter (degree : Z) (s : BTreeSet) (k : Z) :
  (2 <= degree)%Z -> reachable degree s ->
  exists b l, contains s k = Ok b /\ iter s = Ok l /\ (b = true <-> k ∈ l).
Proof.
  intros Hd Hr. pose proof (reachable_Inv degree s Hd Hr) as Hi.
  pose proof (degree_nat degree Hd) as Ht.
  exists (mem k (contents s)), (contents s).
  split; [by apply (contains_spec _ Ht)|]. split; [by apply (iter_spec _ Ht)|]. apply mem_true.
Qed.

Lemma contains_iff_iter_witness :
  exists b l, contains example_set 3%Z = Ok b /\ iter example_set = Ok l /\
    (b = true <-> 3%Z ∈ l).
Proof. apply (contains_iff_iter 2); [lia|reach [Add 1; Add 2; Add 3; Add 4]%Z]. Defined.

(** ** Construction *)

Lemma init_fold t (Ht : 2 <= t) (objs : list Z) (s : BTreeSet) :
  Inv t s ->
  exists s', foldl (fun acc obj => s' <- acc ; add s' obj) (Ok s) objs = Ok s' /\
    Inv t s' /\ contents s' = foldl (fun l k => ins k l) (contents s) objs.
Proof.
  revert s. induction objs as [|k objs IH]; intros s Hi; [by exists s|].
  destruct (add_spec t Ht s k Hi) as (s1 & Ha & Hi1 & Hc1 & _).
  destruct (IH s1 Hi1) as (s' & Hf & Hi' & Hc').
  exists s'. cbn [foldl bind]. rewrite Ha, Hf, Hc', Hc1. done.
Qed.

Lemma elem_of_fold_ins x objs l :
  x ∈ foldl (fun l k => ins k l) l objs <-> x ∈ l \/ x ∈ objs.
Proof.
  revert l. induction objs as [|k objs IH]; intros l; cbn [foldl].
  - rewrite elem_of_nil. tauto.
  - rewrite IH, elem_of_ins, elem_of_cons. tauto.
Qed.

Lemma sorted_fold_ins objs l : sorted l -> sorted (foldl (fun l k => ins k l) l objs).
Proof.
  revert l. induction objs as [|k objs IH]; intros l Hs; [done|]. cbn [foldl].
  by apply IH, sorted_ins.
Qed.

Lemma init_coll_spec degree objs :
  (2 <= degree)%Z ->
  exists s, init degree (Some objs) = Ok s /\ Inv (Z.to_nat degree) s /\
    sorted (contents s) /\ forall x, x ∈ contents s <-> x ∈ objs.
Proof.
  intros Hd. pose proof (degree_nat degree Hd) as Ht.
  destruct (init_spec degree Hd) as (s0 & Hinit & Hi0 & Hc0).
  destruct (init_fold _ Ht objs s0 Hi0) as (s & Hf & Hi & Hc).
  exists s. split.
  - unfold init in *. unfold guard in *. rewrite decide_True in * by done. cbn [bind] in *.
    destruct (empty_set _ _) as [s0'| |]; try done. cbn [bind] in *.
    injection Hinit as ->. done.
  - split; [done|]. split; [by destruct Hi|].
    intros x. rewrite Hc, elem_of_fold_ins, Hc0, elem_of_nil. tauto.
Qed.

(** X8. The errors of the constructor: [BTreeSet(degree, coll)] raises
    [TypeError] when [degree] is not an integer, [ValueError] when it is an
    integer below 2, with or without a collection; for every integer
    [degree >= 2] and every collection it returns a set, whose structure is
    valid. *)
Theorem init_degree (degree : degree_arg) (coll : option (list Z)) :
  match degree with
  | NotIntegral => __init__ degree coll = Raise TypeError
  | Integral d =>
      if decide (d < 2)%Z then __init__ degree coll = Raise ValueError
      else exists s, __init__ degree coll = Ok s /\ check_structure s = Ok tt
  end.
Proof.
  destruct degree as [d|]; [|done]. cbn [__init__]. case_decide as Hd.
  - unfold init, guard. by rewrite decide_False by lia.
  - assert (2 <= d)%Z as Hd' by lia. pose proof (degree_nat d Hd') as Ht.
    destruct coll as [objs|].
    + destruct (init_coll_spec d objs Hd') as (s & Hs & Hi & _).
      exists s. split; [done|]. by apply (check_structure_spec _ Ht).
    + destruct (init_spec d Hd') as (s & Hs & Hi & _).
      exists s. split; [done|]. by apply (check_structure_spec _ Ht).
Qed.

Lemma init_degree_witness :
  __init__ NotIntegral (Some [3]%Z) = Raise TypeError /\
  __init__ (Integral 1) (Some [3]%Z) = Raise ValueError /\
  exists s, __init__ (Integral 2) (Some [3]%Z) = Ok s /\ check_structure s = Ok tt.
Proof.
  split; [exact (init_degree NotIntegral (Some [3]%Z))|].
  split; [exact (init_degree (Integral 1) (Some [3]%Z))|].
  exact (init_degree (Integral 2) (Some [3]%Z)).
Defined.

(** X9. Construction from a collection: for a degree of at least 2,
    [BTreeSet(degree, coll)] holds exactly the items of [coll]: iterating it
    yields them in strictly increasing order, each once; its size is the
    number of distinct items; membership is membership in [coll]; the
    structure is valid; and a collection that is already strictly increasing
    is yielded back as it is. *)
Theorem init_collection (degree : Z) (objs : list Z) :
  (2 <= degree)%Z ->
  exists s l,
    init degree (Some objs) = Ok s /\ iter s = Ok l /\
    sorted l /\ (forall x, x ∈ l <-> x ∈ objs) /\
    len s = Z.of_nat (length (remove_dups objs)) /\
    (forall k, contains s k = Ok (bool_decide (k ∈ objs))) /\
    check_structure s = Ok tt /\
    (sorted objs -> l = objs).
Proof.
  intros Hd. pose proof (degree_nat degree Hd) as Ht.
  destruct (init_coll_spec degree objs Hd) as (s & Hinit & Hi & Hs & Hin).
  exists s, (contents s). rewrite (iter_spec _ Ht), (check_structure_spec _ Ht) by done.
  rewrite (Inv_len _ _ Hi). split_and!; try done.
  - f_equal. apply Permutation_length, NoDup_Permutation.
    + by apply sorted_NoDup.
    + apply NoDup_remove_dups.
    + intros x. by rewrite Hin, elem_of_remove_dups.
  - intros k. rewrite (contains_spec _ Ht) by done. f_equal. unfold mem.
    apply bool_decide_ext, Hin.
  - intros Hso. by apply sorted_ext.
Qed.

Lemma init_collection_witness :
  exists s l,
    init 2 (Some [5; 1; 4; 1; 5; 9; 2; 6]%Z) = Ok s /\ iter s = Ok l /\
    sorted l /\ (forall x, x ∈ l <-> x ∈ [5; 1; 4; 1; 5; 9; 2; 6]%Z) /\
    len s = Z.of_nat (length (remove_dups [5; 1; 4; 1; 5; 9; 2; 6]%Z)) /\
    (forall k, contains s k = Ok (bool_decide (k ∈ [5; 1; 4; 1; 5; 9; 2; 6]%Z))) /\
    check_structure s = Ok tt /\
    (sorted [5; 1; 4; 1; 5; 9; 2; 6]%Z -> l = [5; 1; 4; 1; 5; 9; 2; 6]%Z).
Proof. apply (init_collection 2); lia. Defined.

(** X10. [clear()] gives the freshly constructed set: in every reachable
    state of a set of degree [degree], [clear()] leaves exactly the state
    that [BTreeSet(degree)] returns, which has size 0, yields nothing and
    contains no key. *)
Theorem clear_fresh (degree : Z) (s : BTreeSet) :
  (2 <= degree)%Z -> reachable degree s ->
  exists s0,
    init degree None = Ok s0 /\ clear s = Ok s0 /\
    len s0 = 0%Z /\ iter s0 = Ok [] /\ forall k, contains s0 k = Ok false.
Proof.
  intros Hd Hr. pose proof (reachable_Inv degree s Hd Hr) as Hi.
  pose proof (degree_nat degree Hd) as Ht.
  destruct (init_spec degree Hd) as (s0 & Hinit & Hi0 & Hc0).
  exists s0. split; [done|]. split.
  - unfold clear. rewrite (inv_minkeys _ _ Hi), (inv_maxkeys _ _ Hi).
    unfold init, guard in Hinit. rewrite decide_True in Hinit by done. cbn [bind] in Hinit.
    replace (Z.to_nat (degree - 1)) with (Z.to_nat degree - 1) in Hinit by lia.
    replace (Z.to_nat (degree * 2 - 1)) with (2 * Z.to_nat degree - 1) in Hinit by lia.
    by destruct (empty_set _ _).
  - rewrite (Inv_len _ _ Hi0), (iter_spec _ Ht) by done. rewrite Hc0.
    split_and!; try done. intros k. rewrite (contains_spec _ Ht) by done. by rewrite Hc0.
Qed.

Lemma clear_fresh_witness :
  exists s0,
    init 2 None = Ok s0 /\ clear example_set = Ok s0 /\
    len s0 = 0%Z /\ iter s0 = Ok [] /\ forall k, contains s0 k = Ok false.
Proof. apply (clear_fresh 2); [lia|reach [Add 1; Add 2; Add 3; Add 4]%Z]. Defined.

(** X11. What a set does depends on its keys only, not on the shape of its
    tree: two reachable sets of the same degree that yield the same keys
    go through any sequence of calls alike: the same removals succeed, and
    they end with the same size, iteration sequence and membership. *)
Theorem same_keys_same_behaviour (degree : Z) (s1 s2 : BTreeSet) (ops : list Op) :
  (2 <= degree)%Z -> reachable degree s1 -> reachable degree s2 -> iter s1 = iter s2 ->
  exists s1' s2',
    run s1 ops = Ok s1' /\ run s2 ops = Ok s2' /\
    trace s1 ops = trace s2 ops /\
    len s1' = len s2' /\ iter s1' = iter s2' /\
    forall k, contains s1' k = contains s2' k.
Proof.
  intros Hd Hr1 Hr2 Hiter.
  pose proof (reachable_Inv degree s1 Hd Hr1) as Hi1.
  pose proof (reachable_Inv degree s2 Hd Hr2) as Hi2.
  pose proof (degree_nat degree Hd) as Ht.
  rewrite !(iter_spec _ Ht) in Hiter by done. injection Hiter as E.
  clear Hr1 Hr2. revert s1 s2 Hi1 Hi2 E.
  induction ops as [|op ops IH]; intros s1 s2 Hi1 Hi2 E.
  - exists s1, s2. rewrite !(iter_spec _ Ht) by done.
    rewrite (Inv_len _ _ Hi1), (Inv_len _ _ Hi2), E. split_and!; try done.
    intros k. rewrite !(contains_spec _ Ht) by done. by rewrite E.
  - destruct (step_spec _ Ht s1 op Hi1) as (t1 & Hs1 & Hj1 & Hc1 & Hb1).
    destruct (step_spec _ Ht s2 op Hi2) as (t2 & Hs2 & Hj2 & Hc2 & Hb2).
    assert (contents t1 = contents t2) as E' by (by rewrite Hc1, Hc2, E).
    destruct (IH t1 t2 Hj1 Hj2 E') as (s1' & s2' & Hr1 & Hr2 & Htr & Hrest).
    exists s1', s2'. cbn [run trace]. rewrite Hs1, Hs2. cbn [bind].
    rewrite Hb1, Hb2, E, Htr. done.
Qed.

Lemma same_keys_same_behaviour_witness :
  let s2 := {| minkeys := 1; maxkeys := 3;
               root := Node.mk 3 [3]%Z (Some [Node.mk 3 [1; 2]%Z None; Node.mk 3 [4]%Z None]);
               size := 4 |} in
  exists s1' s2',
    run example_set [Remove 2; Remove 7; Add 5] = Ok s1' /\
    run s2 [Remove 2; Remove 7; Add 5] = Ok s2' /\
    trace example_set [Remove 2; Remove 7; Add 5] = trace s2 [Remove 2; Remove 7; Add 5] /\
    len s1' = len s2' /\ iter s1' = iter s2' /\
    forall k, contains s1' k = contains s2' k.
Proof.
  apply (same_keys_same_behaviour 2);
    [lia|reach [Add 1; Add 2; Add 3; Add 4]%Z|reach [Add 4; Add 3; Add 2; Add 1]%Z|reflexivity].
Defined.

(** ** Height *)

Lemma sum_lower a cs :
  Forall (fun c => a <= S (length (elements c))) cs ->
  length cs * a <= length cs + sum_list (length <$> (elements <$> cs)).
Proof.
  induction 1 as [|c cs Hc _ IH]; cbn [length fmap list_fmap sum_list]; [lia|].
  change (sum_list_with id ?l) with (sum_list l) in *. cbn. lia.
Qed.

Lemma sum_upper a cs :
  Forall (fun c => S (length (elements c)) <= a) cs ->
  length cs + sum_list (length <$> (elements <$> cs)) <= length cs * a.
Proof.
  induction 1 as [|c cs Hc _ IH]; cbn [length fmap list_fmap sum_list]; [lia|].
  change (sum_list_with id ?l) with (sum_list l) in *. cbn. lia.
Qed.

Section Size.
Variables mn mx : nat.
Hypothesis Hmn : 1 <= mn.
Hypothesis Hmx : mx <= 2 * mn + 1 <= mx.

Lemma shape_size_lower d n :
  shape mn mx mn d n -> S mn ^ S d <= S (length (elements n)).
Proof.
  revert n. induction d as [|d IH]; intros n Hs.
  - rewrite (leaf_size _ _ Hmx _ _ Hs). apply (shape_length _ _ Hmx) in Hs.
    rewrite Nat.pow_1_r. lia.
  - pose proof (shape_length _ _ Hmx _ _ _ Hs) as Hl.
    pose proof Hs as (_ & _ & cs & Hch & Hclen & Hf)%(shape_S _ _ Hmx).
    rewrite (elements_length _ _ Hmn Hmx _ _ _ Hs cs Hch).
    assert (Forall (fun c => S mn ^ S d <= S (length (elements c))) cs) as Hlow.
    { eapply Forall_impl; [exact Hf|]. intros c Hc. by apply IH. }
    apply sum_lower in Hlow. rewrite (Nat.pow_succ_r' _ (S d)).
    assert (S mn * S mn ^ S d <= length cs * S mn ^ S d) by (apply Nat.mul_le_mono_r; lia).
    lia.
Qed.

Lemma shape_size_upper lb d n :
  shape mn mx lb d n -> S (length (elements n)) <= S mx ^ S d.
Proof.
  revert lb n. induction d as [|d IH]; intros lb n Hs.
  - rewrite (leaf_size _ _ Hmx _ _ Hs). apply (shape_length _ _ Hmx) in Hs.
    rewrite Nat.pow_1_r. lia.
  - pose proof (shape_length _ _ Hmx _ _ _ Hs) as Hl.
    pose proof Hs as (_ & _ & cs & Hch & Hclen & Hf)%(shape_S _ _ Hmx).
    rewrite (elements_length _ _ Hmn Hmx _ _ _ Hs cs Hch).
    assert (Forall (fun c => S (length (elements c)) <= S mx ^ S d) cs) as Hup.
    { eapply Forall_impl; [exact Hf|]. intros c Hc. by eapply IH. }
    apply sum_upper in Hup. rewrite (Nat.pow_succ_r' _ (S d)).
    assert (length cs * S mx ^ S d <= S mx * S mx ^ S d) by (apply Nat.mul_le_mono_r; lia).
    lia.
Qed.

Lemma root_size_lower d n :
  root_ok mn mx d n -> 1 <= length (elements n) -> 2 * S mn ^ d <= S (length (elements n)).
Proof.
  intros [Hs Hk] Hne. destruct d as [|d]; [cbn; lia|].
  pose proof Hs as (_ & _ & cs & Hch & Hclen & Hf)%(shape_S _ _ Hmx).
  specialize (Hk ltac:(done)).
  rewrite (elements_length _ _ Hmn Hmx _ _ _ Hs cs Hch).
  assert (Forall (fun c => S mn ^ S d <= S (length (elements c))) cs) as Hlow.
  { eapply Forall_impl; [exact Hf|]. intros c Hc. by apply shape_size_lower. }
  apply sum_lower in Hlow.
  assert (2 * S mn ^ S d <= length cs * S mn ^ S d) by (apply Nat.mul_le_mono_r; lia).
  lia.
Qed.

End Size.

(** X12. The height is logarithmic in the size: in every reachable state of
    a set of degree [t] with height [h] (as [check_structure] computes it)
    and [n] keys, [n + 1 <= (2 t) ^ (h + 1)], and if the set is not empty
    [2 t ^ h <= n + 1]. *)
Theorem height_bounds (degree : Z) (s : BTreeSet) :
  (2 <= degree)%Z -> reachable degree s ->
  exists h : nat,
    height (root s) = Ok h /\
    (len s + 1 <= (2 * degree) ^ (Z.of_nat h + 1))%Z /\
    ((1 <= len s)%Z -> (2 * degree ^ Z.of_nat h <= len s + 1)%Z).
Proof.
  intros Hd Hr. pose proof (reachable_Inv degree s Hd Hr) as Hi.
  pose proof (degree_nat degree Hd) as Ht.
  remember (Z.to_nat degree) as t eqn:Et.
  assert (degree = Z.of_nat t) as Hdt by lia.
  pose proof (deg_mn t Ht) as Hmn. pose proof (deg_mx t Ht) as Hmx.
  destruct (Inv_height t s Ht Hi) as (h & Hroot & Hh & _).
  exists h. split; [done|]. rewrite (Inv_len _ _ Hi).
  rewrite Hdt.
  split.
  - destruct Hroot as [Hs _].
    pose proof (shape_size_upper _ _ Hmn Hmx _ _ _ Hs) as Hup.
    replace (S (2 * t - 1)) with (2 * t) in Hup by lia.
    replace (Z.of_nat h + 1)%Z with (Z.of_nat (S h)) by lia.
    replace (2 * Z.of_nat t)%Z with (Z.of_nat (2 * t)) by lia.
    rewrite <- Nat2Z.inj_pow. unfold contents. lia.
  - intros Hne.
    pose proof (root_size_lower _ _ Hmn Hmx _ _ Hroot) as Hlow.
    replace (S (t - 1)) with t in Hlow by lia.
    rewrite <- Nat2Z.inj_pow. unfold contents in *. lia.
Qed.

Lemma height_bounds_witness :
  exists h : nat,
    height (root example_set) = Ok h /\
    (len example_set + 1 <= (2 * 2) ^ (Z.of_nat h + 1))%Z /\
    ((1 <= len example_set)%Z -> (2 * 2 ^ Z.of_nat h <= len example_set + 1)%Z).
Proof. apply (height_bounds 2); [lia|reach [Add 1; Add 2; Add 3; Add 4]%Z]. Defined.

(** ** Nodes *)

(** X13. [remove_min]: on a subtree of a valid tree whose top node has more
    than [min_keys] keys and whose keys are in increasing order,
    [remove_min()] returns the smallest key of the subtree; the subtree
    keeps all its other keys in their order and stays valid, its top node
    with at least [min_keys] keys.  On any node that has no more than
    [min_keys] keys the call fails its assertion. *)
Theorem remove_min_post (t d : nat) (n : Node.t) :
  2 <= t -> shape (t - 1) (2 * t - 1) (S (t - 1)) d n -> sorted (elements n) ->
  (exists k n',
     Node.remove_min n = Ok (k, n') /\
     elements n = k :: elements n' /\
     Forall (fun x => (k < x)%Z) (elements n') /\
     shape (t - 1) (2 * t - 1) (t - 1) d n') /\
  (forall m, length (Node.keys m) <= Node.min_keys m ->
     Node.remove_min m = Raise AssertionError).
Proof.
  intros Ht Hs Hsort. split.
  - destruct (remove_min_spec _ _ (deg_mn t Ht) (deg_mx t Ht) d n Hs) as (k & n' & Hr & Hs' & He).
    exists k, n'. split_and!; try done. rewrite He in Hsort. by apply sorted_cons in Hsort as [? _].
  - intros m Hm. unfold Node.remove_min. cbn [Node.remove_min_loop].
    unfold assert, guard. rewrite decide_False by lia. by destruct (Node.children m).
Qed.

Lemma remove_min_post_witness :
  let n := Node.mk 3 [3; 6]%Z
             (Some [Node.mk 3 [1]%Z None; Node.mk 3 [4; 5]%Z None; Node.mk 3 [7]%Z None]) in
  (exists k n',
     Node.remove_min n = Ok (k, n') /\
     elements n = k :: elements n' /\
     Forall (fun x => (k < x)%Z) (elements n') /\
     shape (2 - 1) (2 * 2 - 1) (2 - 1) 1 n') /\
  (forall m, length (Node.keys m) <= Node.min_keys m ->
     Node.remove_min m = Raise AssertionError).
Proof.
  intros n. apply (remove_min_post 2 1 n); [lia| |].
  - vm_compute. repeat split; repeat constructor; lia.
  - unfold sorted. vm_compute. repeat constructor.
Defined.

(** X14. [remove_max]: likewise, [remove_max()] returns the greatest key of
    the subtree, which keeps all its other keys in their order and stays
    valid; on a node that has no more than [min_keys] keys the call fails its
    assertion. *)
Theorem remove_max_post (t d : nat) (n : Node.t) :
  2 <= t -> shape (t - 1) (2 * t - 1) (S (t - 1)) d n -> sorted (elements n) ->
  (exists k n',
     Node.remove_max n = Ok (k, n') /\
     elements n = elements n' ++ [k] /\
     Forall (fun x => (x < k)%Z) (elements n') /\
     shape (t - 1) (2 * t - 1) (t - 1) d n') /\
  (forall m, length (Node.keys m) <= Node.min_keys m ->
     Node.remove_max m = Raise AssertionError).
Proof.
  intros Ht Hs Hsort. split.
  - destruct (remove_max_spec _ _ (deg_mn t Ht) (deg_mx t Ht) d n Hs) as (k & n' & Hr & Hs' & He).
    exists k, n'. split_and!; try done. rewrite He in Hsort.
    by apply sorted_middle in Hsort as [? _].
  - intros m Hm. unfold Node.remove_max. cbn [Node.remove_max_loop].
    unfold assert, guard. rewrite decide_False by lia. by destruct (Node.children m).
Qed.

Lemma remove_max_post_witness :
  let n := Node.mk 3 [3; 6]%Z
             (Some [Node.mk 3 [1]%Z None; Node.mk 3 [4; 5]%Z None; Node.mk 3 [7]%Z None]) in
  (exists k n',
     Node.remove_max n = Ok (k, n') /\
     elements n = elements n' ++ [k] /\
     Forall (fun x => (x < k)%Z) (elements n') /\
     shape (2 - 1) (2 * 2 - 1) (2 - 1) 1 n') /\
  (forall m, length (Node.keys m) <= Node.min_keys m ->
     Node.remove_max m = Raise AssertionError).
Proof.
  intros n. apply (remove_max_post 2 1 n); [lia| |].
  - vm_compute. repeat split; repeat constructor; lia.
  - unfold sorted. vm_compute. repeat constructor.
Defined.

(** X15. [merge_children] undoes [split]: when a full node of a valid tree
    is split and the returned key and right node are put into a parent next
    to the node, as [add] does, [merge_children] at that place gives the
    node back as it was before the split, and the parent as it was. *)
Theorem split_then_merge (t lb d : nat) (n : Node.t) :
  2 <= t -> shape (t - 1) (2 * t - 1) lb d n -> length (Node.keys n) = Node.maxkeys n ->
  exists mid r l,
    Node.split n = Ok (mid, r, l) /\
    forall (ks1 ks2 : list Z) (cs1 cs2 : list Node.t),
      length ks1 = length cs1 ->
      Node.merge_children
        (Node.mk (Node.maxkeys n) (ks1 ++ mid :: ks2) (Some (cs1 ++ l :: r :: cs2)))
        (length cs1)
      = Ok (Node.mk (Node.maxkeys n) (ks1 ++ ks2) (Some (cs1 ++ n :: cs2))).
Proof.
  intros Ht Hs Hfull.
  pose proof (deg_mn t Ht) as Hmn. pose proof (deg_mx t Ht) as Hmx.
  pose proof (shape_maxkeys _ _ Hmx _ _ _ Hs) as Hm. rewrite Hm in Hfull |- *.
  destruct (split_eq _ _ Hmn Hmx _ _ _ Hs Hfull) as (mid & Hmid & Heq).
  eexists _, _, _. split; [exact Heq|]. intros ks1 ks2 cs1 cs2 Hl.
  pose proof (mx_half _ _ Hmn Hmx) as Hhalf.
  apply lookup_lt_Some in Hmid as Hlt.
  rewrite (merge_children_eq _ _ Hmn Hmx); try done.
  - do 5 f_equal. destruct n as [m ks ch].
    cbn [Node.maxkeys Node.keys Node.children] in *. subst m.
    unfold merged. cbn [Node.maxkeys Node.keys Node.children]. f_equal.
    + by rewrite take_drop_middle.
    + destruct ch as [cs|]; [|done]. cbn [fmap option_fmap option_map]. by rewrite take_drop.
  - cbn [Node.keys]. rewrite Hhalf, length_take. lia.
  - cbn [Node.keys]. rewrite Hhalf, length_drop. lia.
  - unfold Node.is_leaf. cbn. by destruct (Node.children n).
Qed.

Lemma split_then_merge_witness :
  let n := Node.mk 3 [2; 5; 8]%Z None in
  exists mid r l,
    Node.split n = Ok (mid, r, l) /\
    forall (ks1 ks2 : list Z) (cs1 cs2 : list Node.t),
      length ks1 = length cs1 ->
      Node.merge_children
        (Node.mk (Node.maxkeys n) (ks1 ++ mid :: ks2) (Some (cs1 ++ l :: r :: cs2)))
        (length cs1)
      = Ok (Node.mk (Node.maxkeys n) (ks1 ++ ks2) (Some (cs1 ++ n :: cs2))).
Proof.
  intros n. apply (split_then_merge 2 0 0 n); [lia| |reflexivity].
  vm_compute. repeat split; lia.
Defined.

(** X16. [split] undoes [merge_children]: after [merge_children(index)] on
    an internal node of a valid tree whose children at [index] and
    [index + 1] have [min_keys] keys each, splitting the merged child
    returns the key that separated the two and the right child, and leaves
    the left child, all three as they were. *)
Theorem merge_then_split (t lb d : nat) (n : Node.t) (cs : list Node.t) (index : nat)
    (l r : Node.t) :
  2 <= t -> shape (t - 1) (2 * t - 1) (S lb) (S d) n ->
  Node.children n = Some cs -> cs !! index = Some l -> cs !! (index + 1) = Some r ->
  length (Node.keys l) = Node.min_keys n -> length (Node.keys r) = Node.min_keys n ->
  exists sep n' cs' c,
    Node.keys n !! index = Some sep /\
    Node.merge_children n index = Ok n' /\
    Node.children n' = Some cs' /\ cs' !! index = Some c /\
    Node.split c = Ok (sep, r, l).
Proof.
  intros Ht Hs Hch Hl Hr Hlk Hrk.
  pose proof (deg_mn t Ht) as Hmn. pose proof (deg_mx t Ht) as Hmx.
  pose proof (shape_min_keys _ _ Hmn Hmx _ _ _ Hs) as Hmin. rewrite Hmin in Hlk, Hrk.
  destruct (shape_children _ _ Hmx _ _ _ _ Hs Hch) as [Hclen Hf].
  pose proof (Forall_lookup_1 _ _ _ _ Hf Hl) as Hsl.
  pose proof (Forall_lookup_1 _ _ _ _ Hf Hr) as Hsr.
  destruct (merge_case _ _ Hmn Hmx _ _ _ _ _ _ _ Hs Hch Hl Hr Hlk Hrk)
    as (sep & Hsep & Hmerge & _).
  cbv zeta in Hmerge. apply lookup_lt_Some in Hr as Hlt.
  eexists sep, _, _, (merged l sep r). split; [done|]. split; [exact Hmerge|].
  split; [done|]. split.
  { apply list_lookup_insert_eq. rewrite length_delete by eauto. lia. }
  pose proof (shape_merged _ _ Hmn Hmx _ _ sep _ Hsl Hsr Hlk Hrk) as Hsm.
  destruct (split_eq _ _ Hmn Hmx _ _ _ Hsm) as (mid & Hmid & ->).
  { apply (shape_length _ _ Hmx) in Hsm. lia. }
  unfold merged in Hmid. cbn [Node.keys] in Hmid.
  rewrite lookup_mid0 in Hmid by lia. injection Hmid as <-.
  pose proof (shape_maxkeys _ _ Hmx _ _ _ Hsl) as Hml.
  pose proof (shape_maxkeys _ _ Hmx _ _ _ Hsr) as Hmr.
  destruct l as [ml lks lch], r as [mr rks rch].
  cbn [Node.maxkeys Node.keys Node.children] in *. subst ml mr.
  unfold merged. cbn [Node.maxkeys Node.keys Node.children].
  rewrite take_mid0, drop_mid1 by lia.
  destruct d as [|d].
  - apply (shape_0 _ _ Hmx) in Hsl as (_ & _ & Hlch), Hsr as (_ & _ & Hrch).
    cbn [Node.children] in *. by subst lch rch.
  - apply (shape_S _ _ Hmx) in Hsl as (_ & _ & lcs & Hlch & Hlcl & _).
    apply (shape_S _ _ Hmx) in Hsr as (_ & _ & rcs & Hrch & Hrcl & _).
    cbn [Node.maxkeys Node.keys Node.children] in *. subst lch rch.
    cbn [fmap option_fmap option_map].
    rewrite take_mid0, drop_mid0 by lia. done.
Qed.

Lemma merge_then_split_witness :
  let l := Node.mk 3 [1]%Z None in
  let r := Node.mk 3 [3]%Z None in
  let cs := [l; r; Node.mk 3 [5; 6]%Z None] in
  let n := Node.mk 3 [2; 4]%Z (Some cs) in
  exists sep n' cs' c,
    Node.keys n !! 0 = Some sep /\
    Node.merge_children n 0 = Ok n' /\
    Node.children n' = Some cs' /\ cs' !! 0 = Some c /\
    Node.split c = Ok (sep, r, l).
Proof.
  intros l r cs n. apply (merge_then_split 2 1 0 n cs 0 l r); [lia| |reflexivity..].
  vm_compute. repeat split; repeat constructor; lia.
Defined.

(** ** What a successful [check_structure] guarantees *)

Lemma node_induction (P : Node.t -> Prop) :
  (forall m ks, P (Node.mk m ks None)) ->
  (forall m ks cs, Forall P cs -> P (Node.mk m ks (Some cs))) ->
  forall n, P n.
Proof.
  intros Hleaf Hint. fix IH 1. intros [m ks [cs|]]; [|apply Hleaf].
  apply Hint. induction cs as [|c cs IHcs]; constructor; [apply IH|apply IHcs].
Qed.

Lemma assert_Ok (c : Prop) `{Decision c} {A} (k : unit -> result A) (a : A) :
  bind (assert c) k = Ok a -> c /\ k tt = Ok a.
Proof. unfold assert, guard. by destruct (decide c). Qed.

Lemma bind_Ok {A B} (m : result A) (k : A -> result B) (b : B) :
  bind m k = Ok b -> exists a, m = Ok a /\ k a = Ok b.
Proof. destruct m; [eauto|done..]. Qed.

Lemma bounded_above a hi l : bounded (Some a) hi l -> Forall (fun x => (a < x)%Z) l.
Proof. intros H. eapply Forall_impl; [exact H|]. cbn. tauto. Qed.

Lemma bounded_below lo b l : bounded lo (Some b) l -> Forall (fun x => (x < b)%Z) l.
Proof. intros H. eapply Forall_impl; [exact H|]. cbn. tauto. Qed.

Lemma check_order_inv lo hi ks :
  Node.check_order ([lo] ++ map Some ks ++ [hi]) = true -> sorted ks /\ bounded lo hi ks.
Proof.
  revert lo. induction ks as [|k ks IH]; intros lo Hc.
  - split; [apply sorted_nil|by apply Forall_nil_2].
  - assert ((forall a, lo = Some a -> (a < k)%Z) /\
            Node.check_order ([Some k] ++ map Some ks ++ [hi]) = true) as [Hlo Hc'].
    { cbn [map app Node.check_order] in *. destruct lo as [a|]; [|by split].
      destruct (decide (k <= a)%Z); [done|]. split; [|done]. intros ? [= <-]. lia. }
    destruct (IH (Some k) Hc') as [Hs Hb].
    assert (forall b, hi = Some b -> (k < b)%Z) as Hhi.
    { intros b ->. destruct ks as [|k' ks].
      - cbn in Hc'. by destruct (decide (b <= k)%Z); [|lia].
      - apply Forall_cons in Hb as [[? ?] _]. lia. }
    split.
    + apply sorted_cons. split; [by eapply bounded_above|done].
    + apply Forall_cons. split.
      * split; [destruct lo; [by apply Hlo|done]|destruct hi; [by apply Hhi|done]].
      * eapply Forall_impl; [exact Hb|]. intros x [Hx ?]. split; [|done].
        destruct lo as [a|]; [|done]. specialize (Hlo a eq_refl). lia.
Qed.

Lemma bounded_weaken_lo a lo hi l :
  (forall a', lo = Some a' -> (a' < a)%Z) -> bounded (Some a) hi l -> bounded lo hi l.
Proof.
  intros Hlo Hb. eapply Forall_impl; [exact Hb|]. intros x [? ?]. split; [|done].
  destruct lo as [a'|]; [|done]. specialize (Hlo a' eq_refl). lia.
Qed.

Lemma bounded_weaken_hi b lo hi l :
  (forall b', hi = Some b' -> (b < b')%Z) -> bounded lo (Some b) l -> bounded lo hi l.
Proof.
  intros Hhi Hb. eapply Forall_impl; [exact Hb|]. intros x [? ?]. split; [done|].
  destruct hi as [b'|]; [|done]. specialize (Hhi b' eq_refl). lia.
Qed.

Lemma check_children_inv leafdepth hi cs :
  Forall checked cs ->
  forall ks tk j count lo_j c,
    tk !! j = Some lo_j -> drop (S j) tk = map Some ks ++ [hi] ->
    length cs = S (length ks) -> sorted ks -> bounded lo_j hi ks ->
    check_children tk leafdepth cs j count = Ok c ->
    exists d', (leafdepth - 1)%Z = Z.of_nat d' /\
      Forall (well_formed false d') cs /\
      c = count + sum_list (length <$> (elements <$> cs)) /\
      sorted (inter ks (elements <$> cs)) /\
      bounded lo_j hi (inter ks (elements <$> cs)).
Proof.
  induction 1 as [|ch cs Hch _ IH]; intros ks tk j count lo_j c Hj Hdrop Hl Hs Hb Hc;
    [done|].
  cbn [check_children] in Hc. unfold py_get in Hc. rewrite Hj in Hc. cbn [bind] in Hc.
  replace (j + 1) with (S j) in Hc by lia.
  destruct ks as [|k ks].
  - destruct cs; [|done].
    assert (tk !! S j = Some hi) as Hhi.
    { rewrite <- (Nat.add_0_r (S j)), <- lookup_drop, Hdrop. done. }
    rewrite Hhi in Hc. cbn [bind] in Hc.
    apply bind_Ok in Hc as (c0 & Hc0 & Hc). cbn [check_children] in Hc. injection Hc as <-.
    apply Hch in Hc0 as (d' & Hd' & Hwf & Hsort & Hbd & ->).
    exists d'. cbn. rewrite app_nil_r. split_and!; try done.
    + by constructor.
    + lia.
  - destruct cs as [|ch1 cs]; [done|].
    assert (tk !! S j = Some (Some k)) as Hk.
    { rewrite <- (Nat.add_0_r (S j)), <- lookup_drop, Hdrop. done. }
    rewrite Hk in Hc. cbn [bind] in Hc.
    apply bind_Ok in Hc as (c0 & Hc0 & Hc).
    apply Hch in Hc0 as (d' & Hd' & Hwf & Hsort & Hbd & ->).
    apply sorted_cons in Hs as [Hkks Hs]. apply Forall_cons in Hb as [[Hlok Hkhi] Hb].
    apply (IH ks tk (S j) _ (Some k)) in Hc as (d'' & Hd'' & Hwfs & -> & Hsorts & Hbds);
      try done.
    2:{ replace (S (S j)) with (S j + 1) by lia. by rewrite <- drop_drop, Hdrop. }
    2:{ cbn in Hl. cbn. lia. }
    2:{ apply Forall_forall. intros x Hx. split.
        - by eapply Forall_forall in Hkks.
        - by eapply Forall_forall in Hb as [_ ?]. }
    assert (d'' = d') as -> by lia.
    exists d'. rewrite !fmap_cons, inter_cons. rewrite fmap_cons in Hsorts, Hbds.
    split_and!; try done.
    + by constructor.
    + cbn. lia.
    + apply sorted_app. split_and!; [|done|].
      * intros x1 x2 Hx1 Hx2. eapply Forall_forall in Hbd as [_ Hx1k]; [|exact Hx1].
        apply elem_of_cons in Hx2 as [->|Hx2]; [done|].
        eapply Forall_forall in Hbds as [Hkx2 _]; [|exact Hx2]. lia.
      * apply sorted_cons. split; [|done]. by eapply bounded_above.
    + apply bounded_app. split.
      * eapply bounded_weaken_hi; [|exact Hbd]. intros b' ->. done.
      * apply Forall_cons. split; [done|].
        eapply bounded_weaken_lo; [|exact Hbds]. intros a' ->. done.
Qed.

Lemma node_check_structure_inv n : checked n.
Proof.
  induction n as [m ks|m ks cs IH] using node_induction;
    intros isroot leafdepth lo hi c Hc; rewrite check_structure_unfold in Hc; cbv zeta in Hc;
    apply assert_Ok in Hc as [Hleaf Hc]; apply assert_Ok in Hc as [Hmax Hc];
    apply assert_Ok in Hc as [Hroot Hc]; apply assert_Ok in Hc as [Hmin Hc];
    apply assert_Ok in Hc as [Hord Hc]; apply check_order_inv in Hord as [Hsort Hbd];
    cbn [Node.keys Node.children Node.maxkeys] in *.
  - injection Hc as <-. symmetry in Hleaf. apply bool_decide_eq_true in Hleaf.
    exists 0. cbn [well_formed elements Node.keys Node.children Node.maxkeys].
    split_and!; try done. intros ->. apply Nat.nlt_ge. intros ?. by apply Hmin.
  - apply assert_Ok in Hc as [Hlen Hc]. symmetry in Hleaf. apply bool_decide_eq_false in Hleaf.
    apply (check_children_inv _ hi _ IH ks _ 0 _ lo) in Hc as (d' & Hd' & Hwf & -> & Hs & Hb);
      try done; [|lia].
    exists (S d'). cbn [well_formed Node.keys Node.children Node.maxkeys].
    rewrite elements_internal. split_and!; try done.
    + lia.
    + intros ->. apply Nat.nlt_ge. intros ?. by apply Hmin.
    + intros ->. destruct ks; [|cbn; lia]. exfalso. by apply Hroot.
    + lia.
    + rewrite (length_inter 1 3 ltac:(lia) ltac:(lia)); [done|].
      rewrite length_fmap. lia.
Qed.

(** X17. [check_structure] is a sound test: whenever it returns without an
    error, on any state whatever, all leaves are at the depth [h] it has
    computed, every node has at most its [maxkeys] keys, every node but the
    root at least its [min_keys], an internal root at least one key, every
    internal node one child more than keys ([well_formed]); the keys of the
    tree in symmetric order are strictly increasing; the stored size is
    their number; and a size of at most [2 * minkeys] goes with a leaf root
    holding that many keys, a size above [maxkeys] with an internal root. *)
Theorem check_structure_sound (s : BTreeSet) :
  check_structure s = Ok tt ->
  exists h,
    height (root s) = Ok h /\
    well_formed true h (root s) /\
    sorted (contents s) /\
    size s = Z.of_nat (length (contents s)) /\
    ((size s <= Z.of_nat (minkeys s * 2))%Z ->
       Node.is_leaf (root s) = true /\ Z.of_nat (length (Node.keys (root s))) = size s) /\
    ((size s > Z.of_nat (maxkeys s))%Z -> Node.is_leaf (root s) = false).
Proof.
  unfold check_structure. cbv zeta. intros Hc.
  apply assert_Ok in Hc as [Hsize Hc].
  apply bind_Ok in Hc as (h & Hh & Hc). apply bind_Ok in Hc as (count & Hn & Hc).
  assert (Z.of_nat count = size s) as Hcount.
  { unfold assert, guard in Hc. by destruct (decide (Z.of_nat count = size s)). }
  apply node_check_structure_inv in Hn as (d & Hd & Hwf & Hsort & _ & ->).
  apply Nat2Z.inj in Hd as <-.
  exists h. split_and!; try done.
  - intros Hle. destruct (Node.is_leaf (root s)) eqn:Hleaf.
    + split; [done|]. destruct (decide (Z.of_nat (length (Node.keys (root s))) = size s));
        [done|]. exfalso. apply Hsize. right. right. split; [done|]. by right.
    + exfalso. apply Hsize. right. right. split; [done|]. by left.
  - intros Hgt. destruct (Node.is_leaf (root s)) eqn:Hleaf; [|done].
    exfalso. apply Hsize. right. left. done.
Qed.

Lemma check_structure_sound_witness :
  exists h,
    height (root example_set) = Ok h /\
    well_formed true h (root example_set) /\
    sorted (contents example_set) /\
    size example_set = Z.of_nat (length (contents example_set)) /\
    ((size example_set <= Z.of_nat (minkeys example_set * 2))%Z ->
       Node.is_leaf (root example_set) = true /\
       Z.of_nat (length (Node.keys (root example_set))) = size example_set) /\
    ((size example_set > Z.of_nat (maxkeys example_set))%Z ->
       Node.is_leaf (root example_set) = false).
Proof. apply (check_structure_sound example_set). reflexivity. Defined.

(** ** The parameters of the nodes *)

Lemma shape_subtrees mn mx (Hmn : 1 <= mn) (Hmx : mx <= 2 * mn + 1 <= mx) lb d n m :
  shape mn mx lb d n -> m ∈ subtrees n ->
  Node.maxkeys m = mx /\ Node.min_keys m = mn /\ length (Node.keys m) <= mx.
Proof.
  revert lb n. induction d as [|d IH]; intros lb n Hs Hm.
  - pose proof Hs as (_ & _ & Hch)%(shape_0 _ _ Hmx).
    destruct n as [m' ks ch]. cbn [Node.children] in Hch. subst ch.
    cbn [subtrees Node.children] in Hm. apply list_elem_of_singleton in Hm as ->.
    split; [by eapply (shape_maxkeys _ _ Hmx)|]. split; [by eapply (shape_min_keys _ _ Hmn Hmx)|].
    apply (shape_length _ _ Hmx) in Hs. lia.
  - pose proof Hs as (_ & _ & cs & Hch & _ & Hf)%(shape_S _ _ Hmx).
    destruct n as [m' ks ch]. cbn [Node.children] in Hch. subst ch.
    cbn [subtrees Node.children] in Hm. apply elem_of_cons in Hm as [->|Hm].
    + split; [by eapply (shape_maxkeys _ _ Hmx)|].
      split; [by eapply (shape_min_keys _ _ Hmn Hmx)|].
      apply (shape_length _ _ Hmx) in Hs. lia.
    + apply list_elem_of_join in Hm as (l & Hm & Hl).
      apply list_elem_of_fmap in Hl as (c & -> & Hc).
      eapply Forall_forall in Hf; [|exact Hc]. by eapply IH.
Qed.

(** X18. The parameters of the nodes agree with those of the set: in every
    reachable state of a set of degree [degree], the set has
    [minkeys = degree - 1] and [maxkeys = 2 * degree - 1], and every node of
    the tree has the [maxkeys] of the set, computes the [minkeys] of the set
    as its [min_keys()], and holds no more than [maxkeys] keys. *)
Theorem node_parameters (degree : Z) (s : BTreeSet) (m : Node.t) :
  (2 <= degree)%Z -> reachable degree s -> m ∈ subtrees (root s) ->
  Z.of_nat (minkeys s) = (degree - 1)%Z /\ Z.of_nat (maxkeys s) = (2 * degree - 1)%Z /\
  Node.maxkeys m = maxkeys s /\ Node.min_keys m = minkeys s /\
  length (Node.keys m) <= maxkeys s.
Proof.
  intros Hd Hr Hm. pose proof (reachable_Inv degree s Hd Hr) as Hi.
  pose proof (degree_nat degree Hd) as Ht.
  destruct Hi as [Hmin Hmax (d & Hs & _) _ _]. rewrite Hmin, Hmax.
  split; [lia|]. split; [lia|].
  by eapply (shape_subtrees _ _ (deg_mn _ Ht) (deg_mx _ Ht)).
Qed.

Lemma node_parameters_witness :
  let m := Node.mk 3 [3; 4]%Z None in
  Z.of_nat (minkeys example_set) = (2 - 1)%Z /\
  Z.of_nat (maxkeys example_set) = (2 * 2 - 1)%Z /\
  Node.maxkeys m = maxkeys example_set /\ Node.min_keys m = minkeys example_set /\
  length (Node.keys m) <= maxkeys example_set.
Proof.
  intros m. apply (node_parameters 2 example_set m);
    [lia|reach [Add 1; Add 2; Add 3; Add 4]%Z|].
  vm_compute. do 2 right. left.
Defined.
